(** * Outlook cleaner: a shallow embedding of the IMAP cleaning service

    The development follows the Python sources [auth.py], [imap_service.py],
    [main.py], [filters.py] and [config.py].  Python [str] and [bytes] values
    are both modelled by [string] (a sequence of 8-bit characters).  In
    [auth.py] upper case is that of the ASCII letters, which is all that the
    test for the letters OK depends on; in the filters [str.upper] is a
    parameter, the class [PyText].  The [imaplib] connection is an abstract
    server that answers one command at a time; every call made
    on it and every line printed is recorded in a trace, so that statements
    about the commands a run issues are statements about that trace.  The
    Python library functions that the program calls without defining them
    (codecs, [decode_header], message parsing, [str()]) are parameters,
    grouped in the class [PyLib]; base64 is written out after RFC 4648.

    [clean_inbox] is modelled for a [SenderNameFilter] and an access token
    already obtained.  The filters of [filters.py] and [get_config_value] of
    [config.py] are modelled as the pure functions they are.  The acquisition
    of the token (MSAL), the reading of the configuration file, [main] and
    the deprecated client-side path [get_message_headers] are outside the
    model. *)

From Stdlib Require Import Ascii String List Arith Lia Bool DecimalString.
From stdpp Require Import base strings gmap list.
Import ListNotations.
Open Scope string_scope.

(** * Part I: the model *)

(** ** Base64 (RFC 4648), the codec behind [base64.b64encode] *)

Module Base64.

Definition alphabet : string :=
  "ABCDEFGHIJKLMNOPQRSTUVWXYZabcdefghijklmnopqrstuvwxyz0123456789+/".

Definition pad : ascii := "="%char.

(** A sextet is kept as its six bits, most significant first. *)
Definition sextet : Type := (bool * bool * bool * bool * bool * bool)%type.

Definition bit (b : bool) (w : nat) : nat := if b then w else 0.

Definition sextet_val (s : sextet) : nat :=
  let '(b5, b4, b3, b2, b1, b0) := s in
  bit b5 32 + bit b4 16 + bit b3 8 + bit b2 4 + bit b1 2 + bit b0 1.

Definition sextet_of_val (n : nat) : sextet :=
  (Nat.testbit n 5, Nat.testbit n 4, Nat.testbit n 3,
   Nat.testbit n 2, Nat.testbit n 1, Nat.testbit n 0).

Definition enc_char (s : sextet) : ascii :=
  match String.get (sextet_val s) alphabet with
  | Some c => c
  | None => pad
  end.

Fixpoint index_from (i : nat) (c : ascii) (tbl : string) : option nat :=
  match tbl with
  | EmptyString => None
  | String d tbl' => if Ascii.eqb c d then Some i else index_from (S i) c tbl'
  end.

Definition dec_char (c : ascii) : option sextet :=
  match index_from 0 c alphabet with
  | Some n => Some (sextet_of_val n)
  | None => None
  end.

(** Three octets are cut into four sextets; [Ascii] lists the bits of an
    octet least significant first. *)
Definition enc3 (x y z : ascii) : ascii * ascii * ascii * ascii :=
  let '(Ascii x0 x1 x2 x3 x4 x5 x6 x7) := x in
  let '(Ascii y0 y1 y2 y3 y4 y5 y6 y7) := y in
  let '(Ascii z0 z1 z2 z3 z4 z5 z6 z7) := z in
  (enc_char (x7, x6, x5, x4, x3, x2),
   enc_char (x1, x0, y7, y6, y5, y4),
   enc_char (y3, y2, y1, y0, z7, z6),
   enc_char (z5, z4, z3, z2, z1, z0)).

Definition dec4 (p q r s : sextet) : ascii * ascii * ascii :=
  let '(p5, p4, p3, p2, p1, p0) := p in
  let '(q5, q4, q3, q2, q1, q0) := q in
  let '(r5, r4, r3, r2, r1, r0) := r in
  let '(s5, s4, s3, s2, s1, s0) := s in
  (Ascii q4 q5 p0 p1 p2 p3 p4 p5,
   Ascii r2 r3 r4 r5 q0 q1 q2 q3,
   Ascii s0 s1 s2 s3 s4 s5 r0 r1).

Definition zero_sextet : sextet := (false, false, false, false, false, false).

(** [base64.b64encode]: full groups of three octets, then one padded
    group for a remainder of one or two octets. *)
Fixpoint b64encode (s : string) : string :=
  match s with
  | EmptyString => EmptyString
  | String x EmptyString =>
      let '(a, b, _, _) := enc3 x zero zero in
      String a (String b (String pad (String pad EmptyString)))
  | String x (String y EmptyString) =>
      let '(a, b, c, _) := enc3 x y zero in
      String a (String b (String c (String pad EmptyString)))
  | String x (String y (String z rest)) =>
      let '(a, b, c, d) := enc3 x y z in
      String a (String b (String c (String d (b64encode rest))))
  end.

(** [base64.b64decode] on well-formed input: groups of four characters,
    padding accepted in the last group only. *)
Fixpoint b64decode (s : string) : option string :=
  match s with
  | EmptyString => Some EmptyString
  | String a (String b (String c (String d rest))) =>
      if Ascii.eqb d pad then
        match rest with
        | EmptyString =>
            if Ascii.eqb c pad then
              match dec_char a, dec_char b with
              | Some p, Some q =>
                  let '(x, _, _) := dec4 p q zero_sextet zero_sextet in
                  Some (String x EmptyString)
              | _, _ => None
              end
            else
              match dec_char a, dec_char b, dec_char c with
              | Some p, Some q, Some r =>
                  let '(x, y, _) := dec4 p q r zero_sextet in
                  Some (String x (String y EmptyString))
              | _, _, _ => None
              end
        | String _ _ => None
        end
      else
        match dec_char a, dec_char b, dec_char c, dec_char d, b64decode rest with
        | Some p, Some q, Some r, Some s, Some out =>
            let '(x, y, z) := dec4 p q r s in
            Some (String x (String y (String z out)))
        | _, _, _, _, _ => None
        end
  | _ => None
  end.

End Base64.

(** ** Python strings *)

Definition chr (n : nat) : string := String (ascii_of_nat n) EmptyString.

Definition CRLF : string := chr 13 ++ chr 10.

(** [str.upper] and [str.lower] on the ASCII letters. *)
Definition upper_char (c : ascii) : ascii :=
  let n := nat_of_ascii c in
  if Nat.leb 97 n && Nat.leb n 122 then ascii_of_nat (n - 32) else c.

Definition lower_char (c : ascii) : ascii :=
  let n := nat_of_ascii c in
  if Nat.leb 65 n && Nat.leb n 90 then ascii_of_nat (n + 32) else c.

Fixpoint upper (s : string) : string :=
  match s with
  | EmptyString => EmptyString
  | String c s' => String (upper_char c) (upper s')
  end.

Fixpoint lower (s : string) : string :=
  match s with
  | EmptyString => EmptyString
  | String c s' => String (lower_char c) (lower s')
  end.

(** [s.startswith(p)] *)
Definition startswith (s p : string) : bool := String.prefix p s.

(** [needle in hay] *)
Fixpoint contains (needle hay : string) : bool :=
  String.prefix needle hay ||
  match hay with
  | EmptyString => false
  | String _ hay' => contains needle hay'
  end.

(** White space as [str.strip] sees it, among the first 256 code points. *)
Definition is_space (c : ascii) : bool :=
  let n := nat_of_ascii c in
  (Nat.leb 9 n && Nat.leb n 13) || (Nat.leb 28 n && Nat.leb n 32) || Nat.eqb n 133 || Nat.eqb n 160.

(** White space as [bytes.split] sees it. *)
Definition is_bytes_space (c : ascii) : bool :=
  let n := nat_of_ascii c in
  (Nat.leb 9 n && Nat.leb n 13) || Nat.eqb n 32.

Fixpoint lstrip (s : string) : string :=
  match s with
  | EmptyString => EmptyString
  | String c s' => if is_space c then lstrip s' else s
  end.

Fixpoint rstrip (s : string) : string :=
  match s with
  | EmptyString => EmptyString
  | String c s' =>
      match rstrip s' with
      | EmptyString => if is_space c then EmptyString else String c EmptyString
      | r => String c r
      end
  end.

Definition strip (s : string) : string := rstrip (lstrip s).

(** [b.split()]: the maximal runs of non-blank bytes, in order. *)
Fixpoint split_from (cur : string) (s : string) : list string :=
  match s with
  | EmptyString => match cur with EmptyString => [] | _ => [cur] end
  | String c s' =>
      if is_bytes_space c then
        match cur with
        | EmptyString => split_from EmptyString s'
        | _ => cur :: split_from EmptyString s'
        end
      else split_from (cur ++ String c EmptyString) s'
  end.

Definition split (s : string) : list string := split_from EmptyString s.

(** [sep.join(parts)] *)
Fixpoint join (sep : string) (parts : list string) : string :=
  match parts with
  | [] => EmptyString
  | [x] => x
  | x :: rest => x ++ sep ++ join sep rest
  end.

(** [str(n)] for a non-negative integer. *)
Definition str_of_nat (n : nat) : string := NilZero.string_of_uint (Nat.to_uint n).

(** [s[:n]] *)
Definition slice_to (n : nat) (s : string) : string := String.substring 0 n s.

(** ** Exceptions and results *)

Inductive exn_class :=
| IMAP4_error
| OSError
| AttributeError
| TypeError
| LookupError
| UnicodeDecodeError
| IndexError
| ValueError
| OtherException.

Record exn := Exn { exn_cls : exn_class; exn_msg : string }.

(** [except (OSError, imaplib.IMAP4.error)] *)
Definition is_transport (e : exn) : bool :=
  match exn_cls e with
  | IMAP4_error | OSError => true
  | _ => false
  end.

(** [except (OSError, imaplib.IMAP4.error, AttributeError)] *)
Definition is_liveness_error (e : exn) : bool :=
  match exn_cls e with
  | IMAP4_error | OSError | AttributeError => true
  | _ => false
  end.

(** [except (OSError, AttributeError)] *)
Definition is_os_or_attribute (e : exn) : bool :=
  match exn_cls e with
  | OSError | AttributeError => true
  | _ => false
  end.

(** [except (UnicodeDecodeError, LookupError)] *)
Definition is_decode_error (e : exn) : bool :=
  match exn_cls e with
  | UnicodeDecodeError | LookupError => true
  | _ => false
  end.

(** [except (AttributeError, TypeError)] *)
Definition is_attribute_or_type (e : exn) : bool :=
  match exn_cls e with
  | AttributeError | TypeError => true
  | _ => false
  end.

(** [isinstance(e, imaplib.IMAP4.error)] *)
Definition is_imap_error (e : exn) : bool :=
  match exn_cls e with
  | IMAP4_error => true
  | _ => false
  end.

Inductive result (A : Type) :=
| Ok (a : A)
| Raise (e : exn).

Arguments Ok {A} a.
Arguments Raise {A} e.

(** A computation threads a state and either returns or raises; the state
    survives a raise, as the effects of Python code do. *)
Definition M (S A : Type) : Type := S -> result A * S.

#[global] Instance M_ret (S : Type) : MRet (M S) := fun A a s => (Ok a, s).

#[global] Instance M_bind (S : Type) : MBind (M S) := fun A B k m s =>
  match m s with
  | (Ok a, s1) => k a s1
  | (Raise e, s1) => (Raise e, s1)
  end.

Definition raise {S A : Type} (e : exn) : M S A := fun s => (Raise e, s).

(** [try: m  except ... as e: h e]; a handler re-raises what its clause
    does not name. *)
Definition catch {S A : Type} (m : M S A) (h : exn -> M S A) : M S A := fun s =>
  match m s with
  | (Ok a, s1) => (Ok a, s1)
  | (Raise e, s1) => h e s1
  end.

(** [try: m  finally: f] *)
Definition finally {S A : Type} (m : M S A) (f : M S unit) : M S A := fun s =>
  match m s with
  | (r, s1) =>
      match f s1 with
      | (Ok _, s2) => (r, s2)
      | (Raise e, s2) => (Raise e, s2)
      end
  end.

Definition lift_result {S A : Type} (r : result A) : M S A := fun s => (r, s).

(** Code without effects still raises: the same operations on [result]. *)
#[global] Instance result_ret : MRet result := fun A a => Ok a.

#[global] Instance result_bind : MBind result := fun A B k r =>
  match r with
  | Ok a => k a
  | Raise e => Raise e
  end.

Definition catch_result {A : Type} (r : result A) (h : exn -> result A) : result A :=
  match r with
  | Ok a => Ok a
  | Raise e => h e
  end.

(** ** The connection: commands, replies and the trace *)

(** One element of the [data] list of an [imaplib] response. *)
Inductive item :=
| INone
| IBytes (b : string)
| IPair (b1 b2 : string).

(** What a call on the connection returns: [None], a line, or the pair
    [(typ, data)] of a completed command. *)
Inductive value :=
| VNone
| VBytes (b : string)
| VStr (s : string)
| VResp (typ : string) (data : list item).

Inductive reply :=
| Ret (v : value)
| Throw (e : exn).

(** The calls the program makes on [imaplib]. *)
Inductive command :=
| IMAP4_SSL (host : string)
| Authenticate (mechanism : string) (payload : string)
| NewTag
| Send (line : string)
| Readline
| SetState (state : string)
| Select (mailbox : string) (readonly : bool)
| Noop
| Close
| Logout
| UidSearch (charset : option string) (criteria : string)
| UidFetch (uid : string) (parts : string)
| UidStore (uid : string) (op flags : string)
| Expunge.

Inductive event :=
| Call (c : command) (r : reply)
| Print (line : string).

(** The server (and the library object in front of it) as a transition
    function on an abstract state. *)
Class Server (W : Type) := serve : command -> W -> reply * W.

Inductive errors_mode := Strict | Ignore.

(** A fragment of [email.header.decode_header]: a payload that is [bytes]
    or already [str]. *)
Inductive payload :=
| PBytes (b : string)
| PStr (s : string).

(** The Python library functions the program calls and does not define:
    [bytes.decode(encoding, errors=...)], [email.header.decode_header],
    [email.message_from_bytes(...).get("Subject", "")], and [str()] of a
    connection value and of a response's data list. *)
Class PyLib := {
  bytes_decode : string -> errors_mode -> string -> result string;
  decode_header : string -> result (list (payload * option string));
  message_subject : string -> option string;
  py_str : value -> string;
  py_str_data : list item -> string
}.

(** The service object's connection handle is [None] until [connect]
    succeeds once; the trace grows at its end. *)
Record io (W : Type) := IO {
  world : W;
  connection : bool;
  trace : list event
}.

Arguments IO {W} world connection trace.
Arguments world {W} i.
Arguments connection {W} i.
Arguments trace {W} i.

Record OutlookService := {
  server : string;
  email : string;
  token : string;
  mailbox : string
}.

Record MessageRecord := {
  id : string;
  sender : string;
  subject : string
}.

Section Model.

Context {W : Type} `{!Server W} `{!PyLib}.

(** A call on a connection object. *)
Definition call (c : command) : M (io W) value := fun s =>
  let '(r, w) := serve c (world s) in
  let s' := IO w (connection s) (trace s ++ [Call c r])%list in
  match r with
  | Ret v => (Ok v, s')
  | Throw e => (Raise e, s')
  end.

(** A call through [self.connection], which may still be [None]. *)
Definition conn_call (c : command) : M (io W) value := fun s =>
  if connection s then call c s
  else (Raise (Exn AttributeError "'NoneType' object has no attribute"), s).

Definition print (line : string) : M (io W) unit := fun s =>
  (Ok tt, IO (world s) (connection s) (trace s ++ [Print line])%list).

Definition set_connection (b : bool) : M (io W) unit := fun s =>
  (Ok tt, IO (world s) b (trace s)).

Definition get_connection : M (io W) bool := fun s => (Ok (connection s), s).

(** [imap_conn.state = st]: an assignment, seen by the connection object;
    it yields nothing and cannot raise. *)
Definition assign_state (st : string) : M (io W) unit := fun s =>
  let '(_, w) := serve (SetState st) (world s) in
  (Ok tt, IO w (connection s) (trace s ++ [Call (SetState st) (Ret VNone)])%list).

(** [typ, data = v] *)
Definition unpack {S : Type} (v : value) : M S (string * list item) :=
  match v with
  | VResp typ data => mret (typ, data)
  | _ => raise (Exn TypeError "cannot unpack non-iterable object")
  end.

(** ** auth.py *)

(** What [_read_imap_response] makes of the line it read. *)
Definition response_text (response : value) : result string :=
  match response with
  | VBytes b =>
      text ← bytes_decode "utf-8" Ignore b;
      mret (strip text)
  | VStr s => mret (strip s)
  | VNone => mret ""
  | VResp _ _ => Raise (Exn AttributeError "'tuple' object has no attribute 'strip'")
  end.

Definition _read_imap_response : M (io W) string :=
  response ← call Readline;
  lift_result (response_text response).

(** The [while attempts < max_attempts] loop; [fuel] is
    [max_attempts - attempts]. *)
Fixpoint read_final_loop (fuel : nat) (tag_str : string) (response_lines : list string)
  : M (io W) (list string) :=
  match fuel with
  | 0 => mret response_lines
  | S fuel' =>
      response ← _read_imap_response;
      if String.eqb response "" then mret response_lines
      else
        let response_lines := (response_lines ++ [response])%list in
        if startswith response tag_str then mret response_lines
        else read_final_loop fuel' tag_str response_lines
  end.

Definition _read_final_auth_response (tag_str : string) (max_attempts : nat)
  : M (io W) string :=
  response_lines ← read_final_loop max_attempts tag_str [];
  mret (join " " response_lines).

Definition _validate_auth_response (full_response tag_str : string) : result bool :=
  if contains tag_str full_response && contains "OK" (upper full_response) then Ok true
  else
    let error_msg := "XOAUTH2 authentication failed. Server response: " ++ full_response in
    Raise (Exn IMAP4_error error_msg).

(** The [try] body of [_authenticate_oauth2_manual] up to the final
    response: the text accumulated by the exchange. *)
Definition xoauth2_exchange (auth_bytes : string) (tag : value) : M (io W) string :=
  let command := py_str tag ++ " AUTHENTICATE XOAUTH2" in
  call (Send (command ++ CRLF));;
  response ← _read_imap_response;
  if negb (startswith response "+" || String.eqb response "+") then
    let error_msg :=
      "Unexpected server response: " ++ response ++ ". Expected '+' to continue." in
    raise (Exn IMAP4_error error_msg)
  else
    call (Send (auth_bytes ++ CRLF));;
    let tag_str := py_str tag in
    _read_final_auth_response tag_str 10.

Definition _authenticate_oauth2_manual (auth_bytes : string) : M (io W) (option bool) :=
  tag ← call NewTag;
  catch
    (full_response ← xoauth2_exchange auth_bytes tag;
     let tag_str := py_str tag in
     valid ← lift_result (_validate_auth_response full_response tag_str);
     if valid : bool then
       assign_state "AUTH";;
       mret (Some true)
     else mret None)
    (fun e =>
       if is_imap_error e then raise e
       else raise (Exn IMAP4_error ("Error during XOAUTH2 authentication: " ++ exn_msg e))).

(** The SASL string before encoding. *)
Definition auth_string (email_address access_token : string) : string :=
  "user=" ++ email_address ++ chr 1 ++ "auth=Bearer " ++ access_token ++ chr 1 ++ chr 1.

(** [base64.b64encode(auth_string.encode('utf-8')).decode('utf-8')] *)
Definition auth_bytes_of (email_address access_token : string) : string :=
  Base64.b64encode (auth_string email_address access_token).

(** The [try] body of [authenticate_oauth2]: the built-in call. *)
Definition authenticate_primary (auth_bytes : string) : M (io W) (option bool) :=
  response ← call (Authenticate "XOAUTH2" auth_bytes);
  '(typ, data) ← unpack response;
  if String.eqb typ "OK" then mret (Some true)
  else
    let error_msg := "XOAUTH2 authentication failed. Response: " ++ py_str_data data in
    raise (Exn IMAP4_error error_msg).

Definition authenticate_oauth2 (email_address access_token : string)
  : M (io W) (option bool) :=
  let auth_bytes := auth_bytes_of email_address access_token in
  catch (authenticate_primary auth_bytes)
    (fun e =>
       if is_attribute_or_type e then
         print ("[WARN] Using manual XOAUTH2 implementation: " ++ exn_msg e);;
         _authenticate_oauth2_manual auth_bytes
       else
         print ("[WARN] Error with authenticate(), trying manual method: " ++ exn_msg e);;
         _authenticate_oauth2_manual auth_bytes).

(** ** imap_service.py *)

(** The search phase also threads the set of UIDs met so far, an object
    shared by reference between [search_specific_senders] and
    [_process_email_ids]: what is added to it stays added when the callee
    raises. *)
Record search_state := SearchState {
  sio : io W;
  total_found_uids : gset string
}.

Definition lift_io {A : Type} (m : M (io W) A) : M search_state A := fun st =>
  let '(r, s) := m (sio st) in
  (r, SearchState s (total_found_uids st)).

Definition get_found : M search_state (gset string) := fun st =>
  (Ok (total_found_uids st), st).

Definition add_found (uid : string) : M search_state unit := fun st =>
  (Ok tt, SearchState (sio st) ({[ uid ]} ∪ total_found_uids st)).

Definition connect (self : OutlookService) : M (io W) unit :=
  print ("[*] Connecting to " ++ server self ++ "...");;
  call (IMAP4_SSL (server self));;
  set_connection true;;
  print "[OK] Connection established.";;
  print ("[*] Authenticating with OAuth2 for user: " ++ email self);;
  authenticate_oauth2 (email self) (token self);;
  print "[OK] OAuth2 login successful.";;
  conn_call (Select (mailbox self) false);;
  mret tt.

Definition _is_connection_alive : M (io W) bool :=
  catch (conn_call Noop;; mret true)
    (fun e => if is_liveness_error e then mret false else raise e).

(** [try: c  except (OSError, imaplib.IMAP4.error, AttributeError): pass] *)
Definition quietly (c : command) : M (io W) unit :=
  catch (conn_call c;; mret tt)
    (fun e => if is_liveness_error e then mret tt else raise e).

Definition _reconnect (self : OutlookService) : M (io W) unit :=
  print "[*] Connection lost, reconnecting...";;
  catch
    (has ← get_connection;
     if has : bool then quietly Close;; quietly Logout else mret tt)
    (fun e => if is_os_or_attribute e then mret tt else raise e);;
  connect self.

Definition _try_decode_with_encoding (val encoding : string) : result (option string) :=
  catch_result (text ← bytes_decode encoding Ignore val; mret (Some text))
    (fun e => if is_decode_error e then Ok None else Raise e).

(** The [for fallback_encoding in [...]] loop and the last resort after it. *)
Fixpoint decode_fallback_loop (val : string) (encodings : list string) : result string :=
  match encodings with
  | [] => bytes_decode "utf-8" Ignore val
  | fallback_encoding :: rest =>
      r ← _try_decode_with_encoding val fallback_encoding;
      match r with
      | Some text => mret text
      | None => decode_fallback_loop val rest
      end
  end.

Definition placeholder_encodings : list string := ["unknown-8bit"; "unknown"].

(** [encoding and encoding.lower() not in ['unknown-8bit', 'unknown']] *)
Definition usable_encoding (encoding : option string) : option string :=
  match encoding with
  | Some enc =>
      if String.eqb enc "" then None
      else if existsb (String.eqb (lower enc)) placeholder_encodings then None
      else Some enc
  | None => None
  end.

Definition fallback_encodings : list string := ["utf-8"; "latin-1"; "iso-8859-1"].

Definition _decode_bytes_with_fallbacks (val : string) (encoding : option string)
  : result string :=
  first ←
    match usable_encoding encoding with
    | Some enc => _try_decode_with_encoding val enc
    | None => mret None
    end;
  match first with
  | Some text => mret text
  | None => decode_fallback_loop val fallback_encodings
  end.

(** Python truth of a header value: [None] and the empty string are false. *)
Definition truthy (header_val : option string) : bool :=
  match header_val with
  | Some h => negb (String.eqb h "")
  | None => false
  end.

Definition str_of_header (header_val : option string) : string :=
  match header_val with
  | Some h => h
  | None => "None"
  end.

Definition _decode_header_safely (header_val : option string) : result string :=
  if negb (truthy header_val) then Ok ""
  else
    catch_result
      (decoded_list ← decode_header (str_of_header header_val);
       match decoded_list with
       | [] => Raise (Exn IndexError "list index out of range")
       | (val, encoding) :: _ =>
           match val with
           | PBytes b => _decode_bytes_with_fallbacks b encoding
           | PStr s => mret s
           end
       end)
      (fun _ => Ok (if truthy header_val then str_of_header header_val else "")).

Definition subject_parts : string := "(BODY.PEEK[HEADER.FIELDS (SUBJECT)])".

Definition placeholder_subject : string := "(Error fetching subject)".

(** The [for response_part in msg_data] loop: every tuple part overwrites
    the subject. *)
Fixpoint subject_of_parts (msg_data : list item) (subject : string) : result string :=
  match msg_data with
  | [] => Ok subject
  | IPair _ raw :: rest =>
      let subject_header :=
        match message_subject raw with
        | Some h => Some h
        | None => Some ""
        end in
      subject ← _decode_header_safely subject_header;
      subject_of_parts rest subject
  | _ :: rest => subject_of_parts rest subject
  end.

Definition _fetch_email_subject (uid : string) : M (io W) string :=
  catch
    (response ← conn_call (UidFetch uid subject_parts);
     '(typ, msg_data) ← unpack response;
     if negb (String.eqb typ "OK") then
       raise (Exn IMAP4_error ("UID FETCH failed: " ++ typ))
     else lift_result (subject_of_parts msg_data "(No Subject)"))
    (fun e => if is_transport e then mret placeholder_subject else raise e).

Definition search_criteria (name : string) : string :=
  "(FROM " ++ chr 34 ++ name ++ chr 34 ++ ")".

Definition _uid_search_with_charset (self : OutlookService) (criteria : string)
  (charset : option string) : M (io W) value :=
  alive ← _is_connection_alive;
  (if alive : bool then mret tt else _reconnect self);;
  match charset with
  | Some cs =>
      if String.eqb cs "" then conn_call (UidSearch None criteria)
      else conn_call (UidSearch (Some cs) criteria)
  | None => conn_call (UidSearch None criteria)
  end.

(** [if data and data[0]: return data[0].split()  return []] *)
Definition uids_of_data {S : Type} (data : list item) : M S (list string) :=
  match data with
  | IBytes b :: _ => if String.eqb b "" then mret [] else mret (split b)
  | IPair _ _ :: _ => raise (Exn AttributeError "'tuple' object has no attribute 'split'")
  | INone :: _ => mret []
  | [] => mret []
  end.

(** The [try] body of one round of the charset loop. *)
Definition search_attempt (self : OutlookService) (criteria : string)
  (charset : option string) : M (io W) (list string) :=
  response ← _uid_search_with_charset self criteria charset;
  '(typ, data) ← unpack response;
  if negb (String.eqb typ "OK") then
    raise (Exn IMAP4_error ("UID SEARCH failed (" ++ typ ++ ")"))
  else uids_of_data data.

(** The [for charset in ('UTF-8', None)] loop, and the [return []] after it. *)
Fixpoint search_charsets (self : OutlookService) (name criteria : string)
  (charsets : list (option string)) : M (io W) (list string) :=
  match charsets with
  | [] => mret []
  | charset :: rest =>
      catch (search_attempt self criteria charset)
        (fun e =>
           if is_transport e then
             match charset with
             | None =>
                 print ("  [WARN] Search failed for '" ++ name ++ "': " ++ exn_msg e);;
                 mret []
             | Some _ => search_charsets self name criteria rest
             end
           else raise e)
  end.

Definition _search_sender_on_server (self : OutlookService) (name : string)
  : M (io W) (list string) :=
  search_charsets self name (search_criteria name) [Some "UTF-8"; None].

(** The body of the [for uid_bytes in uids_bytes] loop inside its [try]:
    the results after this UID. *)
Definition process_one (uid_bytes sender_name : string) (results : list MessageRecord)
  : M search_state (list MessageRecord) :=
  uid_str ← lift_result (bytes_decode "utf-8" Strict uid_bytes);
  seen ← get_found;
  if bool_decide (uid_str ∈ seen) then mret results
  else
    add_found uid_str;;
    subject ← lift_io (_fetch_email_subject uid_str);
    mret (results ++ [{| id := uid_str; sender := sender_name; subject := subject |}])%list.

(** The [except (OSError, imaplib.IMAP4.error) as e] clause of that loop. *)
Definition process_error (sender_name : string) (results : list MessageRecord) (e : exn)
  : M search_state (list MessageRecord) :=
  lift_io (print ("  [WARN] Connection error processing email from '" ++ sender_name
                  ++ "': " ++ exn_msg e));;
  catch (lift_io (conn_call Noop);; mret tt)
    (fun e' => if is_transport e' then raise e else raise e');;
  mret results.

Fixpoint process_loop (uids_bytes : list string) (sender_name : string)
  (results : list MessageRecord) : M search_state (list MessageRecord) :=
  match uids_bytes with
  | [] => mret results
  | uid_bytes :: rest =>
      results ←
        catch (process_one uid_bytes sender_name results)
          (fun e => if is_transport e then process_error sender_name results e else raise e);
      process_loop rest sender_name results
  end.

Definition _process_email_ids (uids_bytes : list string) (sender_name : string)
  : M search_state (list MessageRecord) :=
  process_loop uids_bytes sender_name [].

Definition is_nil {A : Type} (l : list A) : bool :=
  match l with
  | [] => true
  | _ => false
  end.

(** The [try] body for one sender name. *)
Definition search_one (self : OutlookService) (name : string) (results : list MessageRecord)
  : M search_state (list MessageRecord) :=
  uids_bytes ← lift_io (_search_sender_on_server self name);
  if is_nil uids_bytes then
    lift_io (print ("  [SKIP] No emails found from '" ++ name ++ "'"));;
    mret results
  else
    lift_io (print ("  [MATCH] Found " ++ str_of_nat (length uids_bytes)
                    ++ " emails from '" ++ name ++ "'"));;
    email_results ← _process_email_ids uids_bytes name;
    mret (results ++ email_results)%list.

(** The [except (OSError, imaplib.IMAP4.error) as e] clause for one name. *)
Definition search_retry (self : OutlookService) (name : string) (results : list MessageRecord)
  (e : exn) : M search_state (list MessageRecord) :=
  lift_io (print ("  [WARN] Connection error while searching '" ++ name ++ "': " ++ exn_msg e));;
  catch
    (lift_io (_reconnect self);;
     uids_bytes ← lift_io (_search_sender_on_server self name);
     if is_nil uids_bytes then
       lift_io (print ("  [SKIP] No emails found from '" ++ name ++ "' (after reconnect)"));;
       mret results
     else
       lift_io (print ("  [MATCH] Found " ++ str_of_nat (length uids_bytes)
                       ++ " emails from '" ++ name ++ "' (after reconnect)"));;
       email_results ← _process_email_ids uids_bytes name;
       mret (results ++ email_results)%list)
    (fun reconnect_err =>
       lift_io (print ("  [ERROR] Failed to reconnect: " ++ exn_msg reconnect_err));;
       mret results).

Fixpoint senders_loop (self : OutlookService) (sender_names : list string)
  (results : list MessageRecord) : M search_state (list MessageRecord) :=
  match sender_names with
  | [] => mret results
  | name :: rest =>
      results ←
        catch (search_one self name results)
          (fun e => if is_transport e then search_retry self name results e else raise e);
      senders_loop self rest results
  end.

(** [total_found_uids = set()] is created here and dropped on return. *)
Definition search_specific_senders (self : OutlookService) (sender_names : list string)
  : M (io W) (list MessageRecord) := fun s =>
  let m :=
    lift_io (print ("[*] Querying server for " ++ str_of_nat (length sender_names)
                    ++ " specific senders..."));;
    lift_io (print "");;
    senders_loop self sender_names [] in
  let '(r, st) := m (SearchState s ∅) in
  (r, sio st).

Definition store_flags : string := "\Deleted".

Definition _delete_single_uid (self : OutlookService) (uid : string) : M (io W) unit :=
  alive ← _is_connection_alive;
  (if alive : bool then mret tt else _reconnect self);;
  conn_call (UidStore uid "+FLAGS" store_flags);;
  mret tt.

Definition _retry_delete_single_uid (self : OutlookService) (uid : string) : M (io W) unit :=
  _reconnect self;;
  conn_call (UidStore uid "+FLAGS" store_flags);;
  mret tt.

(** One round of [for offset, uid in enumerate(batch_uids)]. *)
Definition delete_one (self : OutlookService) (uid : string) : M (io W) unit :=
  catch (_delete_single_uid self uid)
    (fun e =>
       if is_transport e then
         print ("  [WARN] Error deleting UID " ++ uid ++ ": " ++ exn_msg e);;
         catch (_retry_delete_single_uid self uid)
           (fun retry_err =>
              print ("  [ERROR] Failed to delete UID " ++ uid ++ " after reconnect: "
                     ++ exn_msg retry_err))
       else raise e).

Fixpoint delete_each (self : OutlookService) (batch_uids : list string) : M (io W) unit :=
  match batch_uids with
  | [] => mret tt
  | uid :: rest => delete_one self uid;; delete_each self rest
  end.

Definition _process_deletion_batch (self : OutlookService) (batch_uids : list string)
  (batch_start : nat) : M (io W) unit :=
  delete_each self batch_uids;;
  print ("    [*] Processed batch " ++ str_of_nat batch_start ++ " to "
         ++ str_of_nat (batch_start + length batch_uids)).

Definition _expunge_with_retry (self : OutlookService) : M (io W) unit :=
  catch
    (alive ← _is_connection_alive;
     (if alive : bool then mret tt else _reconnect self);;
     conn_call Expunge;;
     print "[OK] Cleanup completed successfully.")
    (fun e =>
       if is_transport e then
         print ("[WARN] Error during expunge: " ++ exn_msg e);;
         catch
           (_reconnect self;;
            conn_call Expunge;;
            print "[OK] Cleanup completed successfully (after reconnect).")
           (fun expunge_err =>
              print ("[ERROR] Failed to complete expunge: " ++ exn_msg expunge_err))
       else raise e).

(** [range(start, stop, step)] for a positive step; [fuel] bounds the
    number of elements. *)
Fixpoint range_from (fuel start stop step : nat) : list nat :=
  match fuel with
  | 0 => []
  | S fuel' =>
      if Nat.ltb start stop then start :: range_from fuel' (start + step) stop step
      else []
  end.

Definition py_range (start stop step : nat) : list nat := range_from stop start stop step.

(** [l[k:k+n]] *)
Definition slice {A : Type} (l : list A) (k n : nat) : list A := firstn n (skipn k l).

(** The pairs [(k, batch)] that the loop of [delete_emails] goes through. *)
Definition batches (email_ids : list string) (batch_size : nat) : list (nat * list string) :=
  map (fun k => (k, slice email_ids k batch_size)) (py_range 0 (length email_ids) batch_size).

Fixpoint delete_batches (self : OutlookService) (bs : list (nat * list string))
  : M (io W) unit :=
  match bs with
  | [] => mret tt
  | (k, batch) :: rest => _process_deletion_batch self batch k;; delete_batches self rest
  end.

Definition delete_emails (self : OutlookService) (email_ids : list string) (batch_size : nat)
  : M (io W) unit :=
  if is_nil email_ids then print "[INFO] No emails to delete."
  else
    print ("[*] Moving " ++ str_of_nat (length email_ids)
           ++ " emails to Deleted folder in batches...");;
    alive ← _is_connection_alive;
    (if alive : bool then mret tt else _reconnect self);;
    (if Nat.eqb batch_size 0 then raise (Exn ValueError "range() arg 3 must not be zero")
     else delete_batches self (batches email_ids batch_size));;
    _expunge_with_retry self.

(** [try: c  except Exception: pass] *)
Definition silently (c : command) : M (io W) unit :=
  catch (conn_call c;; mret tt) (fun _ => mret tt).

Definition close : M (io W) unit :=
  has ← get_connection;
  if has : bool then silently Close;; silently Logout else mret tt.

(** ** main.py *)

Fixpoint print_matches (emails : list MessageRecord) : M (io W) unit :=
  match emails with
  | [] => mret tt
  | mail :: rest =>
      print ("  [MATCH] '" ++ sender mail ++ "' | Subject: "
             ++ slice_to 50 (subject mail) ++ "...");;
      print_matches rest
  end.

(** [ids_to_delete = [mail['id'] for mail in emails]] *)
Definition ids_to_delete (emails : list MessageRecord) : list string := map id emails.

(** [clean_inbox] with a [SenderNameFilter] over [sender_names] and an
    access token already in hand, that is a non-empty one: without one the
    code first acquires a token, which is outside the model.  The fresh
    service object has no connection yet. *)
Definition clean_inbox (user_email : string) (sender_names : list string)
  (access_token : string) (move_to_deleted : bool) (imap_server mailbox : string)
  : M (io W) unit :=
  catch
    (let service :=
       {| server := imap_server; email := user_email; token := access_token;
          mailbox := mailbox |} in
     set_connection false;;
     finally
       (connect service;;
        print ("[*] Senders containing: " ++ join ", " sender_names);;
        print "";;
        emails ← search_specific_senders service sender_names;
        let ids := ids_to_delete emails in
        print_matches emails;;
        print (chr 10 ++ "[*] Summary: Found " ++ str_of_nat (length ids)
               ++ " emails to process.");;
        if move_to_deleted && negb (is_nil ids) then delete_emails service ids 100
        else print "[INFO] Read-only mode or no matches found. No changes made.")
       close)
    (fun e => print ("[ERROR] " ++ exn_msg e)).

End Model.

(** ** filters.py *)

(** A message as a filter sees it: a [dict] from field names to text,
    which [matches] updates in place. *)
Definition email_dict : Type := gmap string string.

(** [email_data.get(key, '')] *)
Definition get_text (email_data : email_dict) (key : string) : string :=
  match email_data !! key with
  | Some text => text
  | None => ""
  end.

(** [str.isascii()] *)
Definition isascii (text : string) : bool :=
  forallb (fun c => Nat.ltb (nat_of_ascii c) 128) (list_ascii_of_string text).

(** [str.upper()], which Python defines over all of Unicode, is a
    parameter of the filters; on ASCII text it is the upper case of the
    ASCII letters. *)
Class PyText := {
  str_upper : string -> string;
  str_upper_ascii : forall text, isascii text = true -> str_upper text = upper text
}.

Module SenderNameFilter.

Record t := {
  restricted_names_original : list string;
  restricted_names : list string
}.

Section Methods.

Context {PT : PyText}.

(** [__init__] *)
Definition init (names : list string) : t :=
  {| restricted_names_original := names;
     restricted_names := map str_upper names |}.

(** The inner loop of [matches]: the first original name whose upper case
    is [name] is recorded. *)
Fixpoint record_original (originals : list string) (name : string) (email_data : email_dict)
  : email_dict :=
  match originals with
  | [] => email_data
  | orig_name :: rest =>
      if String.eqb (str_upper orig_name) name then <["matched_name" := orig_name]> email_data
      else record_original rest name email_data
  end.

(** The outer loop of [matches], from [names] on. *)
Fixpoint matches_from (self : t) (names : list string) (sender : string)
  (email_data : email_dict) : bool * email_dict :=
  match names with
  | [] => (false, email_data)
  | name :: rest =>
      if contains name sender then
        (true, record_original (restricted_names_original self) name email_data)
      else matches_from self rest sender email_data
  end.

(** The verdict, and [email_data] as the call leaves it. *)
Definition matches (self : t) (email_data : email_dict) : bool * email_dict :=
  let sender := str_upper (get_text email_data "sender") in
  matches_from self (restricted_names self) sender email_data.

Definition get_description (self : t) : string :=
  "Senders containing: " ++ join ", " (restricted_names_original self).

Definition get_sender_names_for_search (self : t) : list string :=
  restricted_names_original self.

End Methods.

End SenderNameFilter.

Module SubjectFilter.

Record t := { keywords : list string }.

Section Methods.

Context {PT : PyText}.

(** [__init__] *)
Definition init (words : list string) : t := {| keywords := map str_upper words |}.

Fixpoint matches_from (words : list string) (subject : string) (email_data : email_dict)
  : bool * email_dict :=
  match words with
  | [] => (false, email_data)
  | keyword :: rest =>
      if contains keyword subject then (true, <["matched_keyword" := keyword]> email_data)
      else matches_from rest subject email_data
  end.

Definition matches (self : t) (email_data : email_dict) : bool * email_dict :=
  let subject := str_upper (get_text email_data "subject") in
  matches_from (keywords self) subject email_data.

Definition get_description (self : t) : string :=
  "Subjects containing: " ++ join ", " (keywords self).

End Methods.

End SubjectFilter.

(** ** config.py *)

(** A configuration value: a [dict] with string keys, or any other Python
    value, of which [get_config_value] only asks whether it is a [dict]. *)
#[warnings="-register-all"]
Inductive config_value (A : Type) :=
| Other (a : A)
| Dict (d : gmap string (config_value A)).

Arguments Other {A} a.
Arguments Dict {A} d.

(** [get_config_value(config, *keys, default=default)] *)
Fixpoint get_config_value {A : Type} (config : config_value A) (keys : list string)
  (default : config_value A) : config_value A :=
  match keys with
  | [] => config
  | key :: rest =>
      match config with
      | Dict d =>
          match d !! key with
          | Some value => get_config_value value rest default
          | None => default
          end
      | Other _ => default
      end
  end.

(** ** Fixtures: a library table and servers to run the model on *)

Definition all_ascii (b : string) : bool :=
  forallb (fun c => Nat.ltb (nat_of_ascii c) 128) (list_ascii_of_string b).

Definition only_ascii (b : string) : string :=
  string_of_list_ascii (List.filter (fun c => Nat.ltb (nat_of_ascii c) 128) (list_ascii_of_string b)).

(** A codec table: UTF-8 restricted to its ASCII range (other bytes are
    undecodable), Latin-1 as the identity, nothing else known. *)
Definition example_decode (encoding : string) (mode : errors_mode) (b : string)
  : result string :=
  let enc := lower encoding in
  if String.eqb enc "utf-8" then
    if all_ascii b then Ok b
    else
      match mode with
      | Ignore => Ok (only_ascii b)
      | Strict => Raise (Exn UnicodeDecodeError "'utf-8' codec can't decode byte")
      end
  else if String.eqb enc "latin-1" || String.eqb enc "iso-8859-1" then Ok b
  else Raise (Exn LookupError ("unknown encoding: " ++ encoding)).

Definition mixed_header : string := "Re: =?utf-8?q?caf=C3=A9?=".

Definition broken_header : string := "=?utf-8?q?=FF?=".

(** [decode_header] on the two encoded headers above; other text has no
    encoded word and comes back as it is. *)
Definition example_decode_header (h : string) : result (list (payload * option string)) :=
  if String.eqb h mixed_header then
    Ok [(PBytes "Re: ", None); (PBytes ("caf" ++ chr 195 ++ chr 169), Some "utf-8")]
  else if String.eqb h broken_header then Ok [(PBytes (chr 255), Some "utf-8")]
  else Ok [(PStr h, None)].

Definition example_subject (raw : string) : option string :=
  if String.prefix "Subject: " raw then Some (strip (String.substring 9 (String.length raw) raw))
  else None.

Definition example_str (v : value) : string :=
  match v with
  | VNone => "None"
  | VBytes b => "b'" ++ b ++ "'"
  | VStr s => s
  | VResp typ _ => "('" ++ typ ++ "', [...])"
  end.

Definition example_lib : PyLib := {|
  bytes_decode := example_decode;
  decode_header := example_decode_header;
  message_subject := example_subject;
  py_str := example_str;
  py_str_data := fun _ => "[...]"
|}.

(** The same table with the IDNA codec, which decodes ASCII labels and,
    as in CPython, refuses any error handling but the strict one with a
    [UnicodeError], a [ValueError] that is no [UnicodeDecodeError]. *)
Definition idna_decode (encoding : string) (mode : errors_mode) (b : string)
  : result string :=
  if String.eqb (lower encoding) "idna" then
    match mode with
    | Strict =>
        if all_ascii b then Ok b
        else Raise (Exn UnicodeDecodeError "'idna' codec can't decode byte")
    | Ignore => Raise (Exn ValueError "Unsupported error handling ignore")
    end
  else example_decode encoding mode b.

Definition idna_header : string := "=?idna?q?abc?=".

Definition idna_mixed_header : string := "=?idna?q?abc?= =?utf-8?q?caf=C3=A9?=".

Definition idna_decode_header (h : string) : result (list (payload * option string)) :=
  if String.eqb h idna_header then Ok [(PBytes "abc", Some "idna")]
  else if String.eqb h idna_mixed_header then
    Ok [(PBytes "abc", Some "idna"); (PBytes ("caf" ++ chr 195 ++ chr 169), Some "utf-8")]
  else example_decode_header h.

Definition idna_lib : PyLib := {|
  bytes_decode := idna_decode;
  decode_header := idna_decode_header;
  message_subject := example_subject;
  py_str := example_str;
  py_str_data := fun _ => "[...]"
|}.

(** A server without memory: the reply depends on the command alone. *)
Definition stateless (f : command -> reply) : Server unit := fun c w => (f c, w).

(** A scripted server: it plays its replies in order, whatever is asked,
    and closes the socket after the last one. *)
Definition scripted : Server (list reply) := fun _ w =>
  match w with
  | r :: rest => (r, rest)
  | [] => (Throw (Exn IMAP4_error "socket error: EOF"), [])
  end.

Definition ok_resp (data : list item) : reply := Ret (VResp "OK" data).

Definition broken_pipe : exn := Exn OSError "[Errno 32] Broken pipe".

(** A server whose connection is gone: every command fails in the
    transport. *)
Definition dead_server : Server unit := stateless (fun _ => Throw broken_pipe).

(** A server that answers the liveness probe but fails every fetch. *)
Definition flaky_fetch_server : Server unit :=
  stateless (fun c =>
    match c with
    | UidFetch _ _ => Throw broken_pipe
    | _ => ok_resp [INone]
    end).


Definition example_service : OutlookService := {|
  server := "outlook.office365.com";
  email := "user@example.com";
  token := "tok";
  mailbox := "Inbox"
|}.

Definition start {W : Type} (w : W) (connected : bool) : io W := IO w connected [].

Definition rejecting_script : list reply :=
  [Ret (VBytes "A1"); Ret VNone; Ret (VBytes "+ "); Ret VNone; Ret (VBytes "b'A1' NO invalid")].

(** The socket sends the continuation and then refuses, in words that
    happen to hold the letters o and k. *)
Definition refusal_with_ok_letters : string := "b'A1' NO invalid token".

Definition refusing_script : list reply :=
  [Ret (VBytes "A1"); Ret VNone; Ret (VBytes "+ "); Ret VNone;
   Ret (VBytes refusal_with_ok_letters)].

Definition refused_mechanism : reply := Ret (VResp "NO" [IBytes "AUTHENTICATE failed."]).

Definition dead_fetch (uid : string) : event :=
  Call (UidFetch uid subject_parts) (Throw broken_pipe).

Definition dead_record (uid : string) : MessageRecord :=
  {| id := uid; sender := "Netflix"; subject := placeholder_subject |}.

(** A server that grants everything. *)
Definition obliging_server : Server unit := stateless (fun _ => ok_resp [INone]).

(** The socket answers two probes and one store, then closes. *)
Definition dropping_script : list reply := [ok_resp [INone]; ok_resp [INone]; ok_resp [INone]].

Definition is_failed_store (ev : event) : bool :=
  match ev with
  | Call (UidStore _ _ _) (Throw _) => true
  | _ => false
  end.

(** A server on which every search matches UID 42. *)
Definition always_42_server : Server unit :=
  stateless (fun c =>
    match c with
    | UidSearch _ _ => ok_resp [IBytes "42"]
    | UidFetch _ _ => ok_resp [IPair "1 (BODY[HEADER.FIELDS (SUBJECT)] {16}" "Subject: hello"]
    | _ => ok_resp [INone]
    end).

(** A server whose searches return a UID that is not valid UTF-8. *)
Definition garbled_uid_server : Server unit :=
  stateless (fun c =>
    match c with
    | UidSearch _ _ => ok_resp [IBytes (chr 255)]
    | _ => ok_resp [INone]
    end).

Definition undecodable : exn := Exn UnicodeDecodeError "'utf-8' codec can't decode byte".

(** A server on which every store fails in the transport, and nothing
    else does. *)
Definition failing_store_server : Server unit :=
  stateless (fun c =>
    match c with
    | UidStore _ _ _ => Throw broken_pipe
    | _ => ok_resp [INone]
    end).


(** [imaplib] encodes the arguments of a command as ASCII: a criterion
    with any other character never leaves the client, the call failing
    with a [UnicodeEncodeError], a [ValueError] that is neither an
    [OSError] nor an [IMAP4.error]. *)
Definition unicode_encode_error : exn :=
  Exn ValueError "'ascii' codec can't encode character '\xf3' in position 12: ordinal not in range(128)".

Definition ascii_only_server : Server unit :=
  stateless (fun c =>
    match c with
    | UidSearch _ criteria =>
        if all_ascii criteria then ok_resp [INone] else Throw unicode_encode_error
    | _ => ok_resp [INone]
    end).

(** Text in which only ASCII letters have an upper case. *)
Definition ascii_text : PyText := {|
  str_upper := upper;
  str_upper_ascii := fun _ _ => eq_refl
|}.

Definition netflix_mail : email_dict := {[ "sender" := "NETFLIX <info@account.netflix.com>" ]}.

(** * Part II: notions the properties are stated with *)

Class Traced (S : Type) := trace_of : S -> list event.

#[global] Instance io_traced (W : Type) : Traced (io W) := trace.

#[global] Instance search_traced (W : Type) : Traced (@search_state W) :=
  fun st => trace (sio st).

Section Notions.

Context {W : Type} {SV : Server W} {PL : PyLib}.

(** ** A logic of runs: result, final state and the events added *)

(** [runs m s Q]: from [s], [m] extends the trace by some events [evs] and
    [Q] holds of its result, its final state and [evs]. *)
Definition runs {S A : Type} `{!Traced S} (m : M S A) (s : S)
  (Q : result A -> S -> list event -> Prop) : Prop :=
  exists evs, trace_of (m s).2 = (trace_of s ++ evs)%list /\ Q (m s).1 (m s).2 evs.

Definition reply_result (r : reply) : result value :=
  match r with
  | Ret v => Ok v
  | Throw e => Raise e
  end.

(** ** Footprints: which events a computation may add *)

(** Events of the session itself: anything but a search or a store. *)
Definition quiet (ev : event) : Prop :=
  match ev with
  | Call (UidStore _ _ _) _ => False
  | Call (UidSearch _ _) _ => False
  | _ => True
  end.

(** [only P m]: every event [m] adds satisfies [P], and [m] never loses
    the connection handle. *)
Definition only {W A : Type} (P : event -> Prop) (m : M (io W) A) : Prop :=
  forall s, runs m s (fun _ s' evs =>
    Forall P evs /\ (connection s = true -> connection s' = true)).

(** ** Substrings *)

(** The text [hay] contains [needle]: the spec's reading of [in]. *)
Definition has_substring (needle hay : string) : Prop :=
  exists pre post, hay = pre ++ needle ++ post.

(** The text holds the letters O and K side by side, in either case,
    anywhere: what the test ['OK' in full_response.upper()] of the code
    amounts to. *)
Definition has_ok_letters (text : string) : Prop :=
  exists pre c1 c2 post,
    text = pre ++ String c1 (String c2 post) /\
    (c1 = "O" \/ c1 = "o")%char /\ (c2 = "K" \/ c2 = "k")%char.

(** The text holds an OK token, in the specification's words: one of its
    words, as white space delimits them, is OK in either case. *)
Definition has_ok_token (text : string) : Prop :=
  exists word, In word (split text) /\ upper word = "OK".

Definition ok_token_in (text : string) : bool :=
  existsb (fun word => String.eqb (upper word) "OK") (split text).

(** How the fallback announces itself, by the class of the exception. *)
Definition fallback_warning (e : exn) : string :=
  if is_attribute_or_type e then "[WARN] Using manual XOAUTH2 implementation: " ++ exn_msg e
  else "[WARN] Error with authenticate(), trying manual method: " ++ exn_msg e.

(** The built-in call did not end with an OK status. *)
Definition primary_failed (r : reply) : Prop :=
  match r with
  | Ret (VResp typ _) => typ <> "OK"
  | _ => True
  end.

(** ** The bounded read of the final response *)

Definition is_readline (ev : event) : bool :=
  match ev with
  | Call Readline _ => true
  | _ => false
  end.

Definition readline_count (evs : list event) : nat := length (List.filter is_readline evs).

(** The text a [Readline] event delivered, as [_read_imap_response] sees it. *)
Definition line_of (ev : event) : option (result string) :=
  match ev with
  | Call Readline (Ret v) => Some (response_text v)
  | Call Readline (Throw e) => Some (Raise e)
  | _ => None
  end.

(** A line after which the reader goes on: not empty, not tagged. *)
Definition continues (tag_str : string) (ev : event) : Prop :=
  exists text, line_of ev = Some (Ok text) /\ text <> "" /\ startswith text tag_str = false.

Fixpoint lines_read (evs : list event) : list string :=
  match evs with
  | [] => []
  | ev :: rest =>
      match line_of ev with
      | Some (Ok text) => if String.eqb text "" then lines_read rest else text :: lines_read rest
      | _ => lines_read rest
      end
  end.

Definition reader_post (fuel : nat) (tag_str : string) (acc : list string)
  (r : result (list string)) (evs : list event) : Prop :=
  length evs <= fuel /\
  Forall (fun ev => is_readline ev = true) evs /\
  (forall pre ev, evs = (pre ++ [ev])%list -> Forall (continues tag_str) pre) /\
  (forall lines, r = Ok lines -> lines = (acc ++ lines_read evs)%list).

(** ** The header decoder *)

Definition is_placeholder (enc : string) : bool :=
  String.eqb (lower enc) "unknown-8bit" || String.eqb (lower enc) "unknown".

(** The chain in the specification's words: the declared encoding unless
    it is missing or a placeholder, then UTF-8, then Latin-1 under its two
    names. *)
Definition chain_candidates (encoding : option string) : list string :=
  (match encoding with
   | Some enc => if String.eqb enc "" || is_placeholder enc then [] else [enc]
   | None => []
   end ++ ["utf-8"; "latin-1"; "iso-8859-1"])%list.

(** The chain as the specification words it: each candidate is attempted,
    a candidate that fails hands over to the next, and only the last
    resort decodes leniently. *)
Fixpoint attempt_chain_from (val : string) (candidates : list string) : result string :=
  match candidates with
  | [] => bytes_decode "utf-8" Ignore val
  | enc :: rest =>
      match bytes_decode enc Strict val with
      | Ok text => Ok text
      | Raise _ => attempt_chain_from val rest
      end
  end.

Definition attempt_chain (val : string) (encoding : option string) : result string :=
  attempt_chain_from val (chain_candidates encoding).

(** A candidate gives up on the bytes: decoding them leniently with it
    fails as an unknown codec or a decoding error, the two failures that
    hand over to the next candidate. *)
Definition gives_up (val enc : string) : Prop :=
  exists e, bytes_decode enc Ignore val = Raise e /\ is_decode_error e = true.

(** The chain yields [text]: it is the lenient decoding by the first
    candidate, in order, that does not give up, or the lenient UTF-8
    decoding of the last resort when all of them do. *)
Definition chain_yields (val : string) (candidates : list string) (text : string) : Prop :=
  (exists pre enc post,
     candidates = (pre ++ enc :: post)%list /\
     Forall (gives_up val) pre /\
     bytes_decode enc Ignore val = Ok text) \/
  (Forall (gives_up val) candidates /\ bytes_decode "utf-8" Ignore val = Ok text).

(** The chain breaks: the first candidate that does not give up fails in
    another way, or the last resort itself fails. *)
Definition chain_breaks (val : string) (candidates : list string) : Prop :=
  (exists pre enc post e,
     candidates = (pre ++ enc :: post)%list /\
     Forall (gives_up val) pre /\
     bytes_decode enc Ignore val = Raise e /\ is_decode_error e = false) \/
  (Forall (gives_up val) candidates /\ exists e, bytes_decode "utf-8" Ignore val = Raise e).

(** What the decoder makes of one fragment of [decode_header]. *)
Definition decode_fragment (fragment : payload * option string) : result string :=
  match fragment with
  | (PBytes b, encoding) => _decode_bytes_with_fallbacks b encoding
  | (PStr s, _) => Ok s
  end.

(** ** Search by sender *)

Fixpoint search_commands (evs : list event) : list command :=
  match evs with
  | [] => []
  | Call (UidSearch charset criteria) _ :: rest =>
      UidSearch charset criteria :: search_commands rest
  | _ :: rest => search_commands rest
  end.

(** The charset that goes on the wire: an empty name counts as none. *)
Definition wire_charset (charset : option string) : option string :=
  match charset with
  | Some cs => if String.eqb cs "" then None else Some cs
  | None => None
  end.

(** A reply that makes a search attempt fail: a transport or protocol
    exception, or a completion status other than OK. *)
Definition rejected (r : reply) : Prop :=
  match r with
  | Throw e => is_transport e = true
  | Ret (VResp typ _) => typ <> "OK"
  | Ret _ => False
  end.

(** What one guarded search did: nothing on the wire, or the search as
    its last call, whose reply is the result. *)
Definition searched_once (charset : option string) (criteria : string)
  (r : result value) (evs : list event) : Prop :=
  (Forall quiet evs /\ exists e, r = Raise e) \/
  (exists pre rp, evs = (pre ++ [Call (UidSearch (wire_charset charset) criteria) rp])%list /\
                  Forall quiet pre /\ r = reply_result rp).

(** What the code makes of the reply to a search: the UIDs, or the
    exception of a failed attempt. *)
Definition search_outcome (rp : reply) : result (list string) :=
  match rp with
  | Throw e => Raise e
  | Ret (VResp typ data) =>
      if String.eqb typ "OK" then
        match data with
        | IBytes b :: _ => Ok (if String.eqb b "" then [] else split b)
        | IPair _ _ :: _ => Raise (Exn AttributeError "'tuple' object has no attribute 'split'")
        | _ => Ok []
        end
      else Raise (Exn IMAP4_error ("UID SEARCH failed (" ++ typ ++ ")"))
  | Ret _ => Raise (Exn TypeError "cannot unpack non-iterable object")
  end.

(** One attempt: either no search reached the wire and the attempt
    raised, or exactly one did, last, and its reply decides the outcome. *)
Definition attempted (charset : option string) (criteria : string)
  (r : result (list string)) (evs : list event) : Prop :=
  (Forall quiet evs /\ exists e, r = Raise e) \/
  (exists pre rp, evs = (pre ++ [Call (UidSearch (wire_charset charset) criteria) rp])%list /\
                  Forall quiet pre /\ r = search_outcome rp).

Definition search_warning (name : string) (e : exn) : string :=
  "  [WARN] Search failed for '" ++ name ++ "': " ++ exn_msg e.

(** ** Flagging for deletion *)

Fixpoint store_commands (evs : list event) : list command :=
  match evs with
  | [] => []
  | Call (UidStore uid op flags) _ :: rest => UidStore uid op flags :: store_commands rest
  | _ :: rest => store_commands rest
  end.

(** The store command that flags one UID. *)
Definition flag_command (uid : string) : command := UidStore uid "+FLAGS" store_flags.

Definition anything (ev : event) : Prop := True.

(** The line that logs the failed deletion of a UID. *)
Definition is_deletion_error (ev : event) : bool :=
  match ev with
  | Print line => String.prefix "  [WARN] Error deleting UID " line
  | Call _ _ => false
  end.


(** A store that flags this UID was sent and returned. *)
Definition flagged_in (uid : string) (evs : list event) : Prop :=
  exists v, In (Call (flag_command uid) (Ret v)) evs.


(** ** Deduplicated search results *)

Definition no_store (ev : event) : Prop :=
  match ev with
  | Call (UidStore _ _ _) _ => False
  | _ => True
  end.

Definition no_search (ev : event) : Prop :=
  match ev with
  | Call (UidSearch _ _) _ => False
  | _ => True
  end.

(** The UIDs, as bytes, that the searches of a trace returned. *)
Fixpoint searched_uids (evs : list event) : list string :=
  match evs with
  | [] => []
  | Call (UidSearch _ _) (Ret (VResp typ (IBytes b :: _))) :: rest =>
      ((if String.eqb typ "OK" then split b else []) ++ searched_uids rest)%list
  | _ :: rest => searched_uids rest
  end.

(** The UIDs that the store commands of a trace name. *)
Fixpoint stored_uids (evs : list event) : list string :=
  match evs with
  | [] => []
  | Call (UidStore uid _ _) _ :: rest => uid :: stored_uids rest
  | _ :: rest => stored_uids rest
  end.

(** Every UID of [uids] was returned by a search of [evs]. *)
Definition from_searches (uids : list string) (evs : list event) : Prop :=
  forall u, In u uids -> In u (searched_uids evs).

Definition searched (r : result (list string)) (evs : list event) : Prop :=
  Forall no_store evs /\ forall uids, r = Ok uids -> from_searches uids evs.

(** The records that a piece of the search phase added: their UIDs are
    pairwise distinct, were not in the seen-set before and are in it
    after, and each decodes one of [uids_bytes]. *)
Definition fresh (new : list MessageRecord) (before after : gset string)
  (uids_bytes : list string) : Prop :=
  NoDup (map id new) /\
  forall u, In u (map id new) ->
    (u ∉ before) /\ (u ∈ after) /\
    exists ub, In ub uids_bytes /\ bytes_decode "utf-8" Strict ub = Ok u.

Definition processed (results : list MessageRecord) (st : @search_state W)
  (uids_bytes : list string) (r : result (list MessageRecord)) (st' : @search_state W)
  (evs : list event) : Prop :=
  Forall quiet evs /\
  total_found_uids st ⊆ total_found_uids st' /\
  forall results', r = Ok results' ->
    exists new, results' = (results ++ new)%list /\
                fresh new (total_found_uids st) (total_found_uids st') uids_bytes.

(** What the search for one sender name added to the results. *)
Definition gathered (results : list MessageRecord) (st : @search_state W)
  (r : result (list MessageRecord)) (st' : @search_state W) (evs : list event) : Prop :=
  Forall no_store evs /\
  total_found_uids st ⊆ total_found_uids st' /\
  forall results', r = Ok results' ->
    exists new, results' = (results ++ new)%list /\
                fresh new (total_found_uids st) (total_found_uids st') (searched_uids evs).

(** The aggregated result of the search phase: no UID twice, and every
    UID decoded from bytes that a search of this run returned. *)
Definition deduplicated (r : result (list MessageRecord)) (evs : list event) : Prop :=
  Forall no_store evs /\
  forall emails, r = Ok emails ->
    NoDup (map id emails) /\
    forall u, In u (map id emails) ->
      exists ub, In ub (searched_uids evs) /\ bytes_decode "utf-8" Strict ub = Ok u.

(** ** Deletion after search *)

(** An event of the deletion pass over [ids]: no search, and stores only
    of UIDs in [ids]. *)
Definition deleting (ids : list string) (ev : event) : Prop :=
  match ev with
  | Call (UidStore uid _ _) _ => In uid ids
  | Call (UidSearch _ _) _ => False
  | _ => True
  end.

(** The trace splits in two: first a part without any store, then a part
    without any search in which every stored UID decodes bytes that a
    search of the first part returned. *)
Definition deletes_follow_searches {PL : PyLib} (evs : list event) : Prop :=
  exists before after,
    evs = (before ++ after)%list /\
    Forall no_store before /\
    Forall no_search after /\
    forall u, In u (stored_uids after) ->
      exists ub, In ub (searched_uids before) /\ bytes_decode "utf-8" Strict ub = Ok u.

(** What [clean_inbox] does once the search has returned [emails]. *)
Definition after_search (service : OutlookService) (move_to_deleted : bool)
  (emails : list MessageRecord) : M (io W) unit :=
  let ids := ids_to_delete emails in
  print_matches emails;;
  print (chr 10 ++ "[*] Summary: Found " ++ str_of_nat (length ids)
         ++ " emails to process.");;
  if move_to_deleted && negb (is_nil ids) then delete_emails service ids 100
  else print "[INFO] Read-only mode or no matches found. No changes made.".

End Notions.

(** ** The session handle and the discipline of the wire *)

(** The connection handle of a state, for both monads. *)
Class Handled (S : Type) := handle_of : S -> bool.

#[global] Instance io_handled (W : Type) : Handled (io W) := connection.

#[global] Instance search_handled (W : Type) : Handled (@search_state W) :=
  fun st => connection (sio st).

(** A connection was opened: [IMAP4_SSL(...)] returned. *)
Definition is_open (ev : event) : bool :=
  match ev with
  | Call (IMAP4_SSL _) (Ret _) => true
  | _ => false
  end.

Definition opened (evs : list event) : Prop := Exists (fun ev => is_open ev = true) evs.

(** [obeys P m]: every event [m] adds satisfies [P]; [m] keeps the
    connection handle, and holds one once a connection was opened. *)
Definition obeys {S A : Type} `{!Traced S} `{!Handled S} (P : event -> Prop) (m : M S A)
  : Prop :=
  forall s, runs m s (fun _ s' evs =>
    Forall P evs /\ (handle_of s = true \/ opened evs -> handle_of s' = true)).

Definition is_print (ev : event) : Prop :=
  match ev with
  | Print _ => True
  | Call _ _ => False
  end.

Section Discipline.

Context {PL : PyLib}.

(** The two lines that the manual exchange sends: the command under some
    tag, and the encoded SASL string. *)
Definition exchange_line (service : OutlookService) (line : string) : Prop :=
  (exists tag, line = (py_str tag ++ " AUTHENTICATE XOAUTH2") ++ CRLF) \/
  line = auth_bytes_of (email service) (token service) ++ CRLF.

(** The shape of every command of a cleaning run: the configured host,
    mailbox and credentials; searches by one of the sender names, with
    charset UTF-8 or none; fetches that peek at the subject header; stores
    that add the deleted flag, and expunges, only when deletion is on. *)
Definition wire (service : OutlookService) (sender_names : list string)
  (move_to_deleted : bool) (ev : event) : Prop :=
  match ev with
  | Call (IMAP4_SSL host) _ => host = server service
  | Call (Authenticate mechanism payload) _ =>
      mechanism = "XOAUTH2" /\ payload = auth_bytes_of (email service) (token service)
  | Call (Send line) _ => exchange_line service line
  | Call (SetState st) _ => st = "AUTH"
  | Call (Select mb readonly) _ => mb = mailbox service /\ readonly = false
  | Call (UidSearch charset criteria) _ =>
      (charset = Some "UTF-8" \/ charset = None) /\
      exists name, In name sender_names /\ criteria = search_criteria name
  | Call (UidFetch _ parts) _ => parts = subject_parts
  | Call (UidStore _ op fl) _ => move_to_deleted = true /\ op = "+FLAGS" /\ fl = "\Deleted"
  | Call Expunge _ => move_to_deleted = true
  | _ => True
  end.

(** The same without the switch: what any run may send. *)
Definition well_formed (service : OutlookService) (sender_names : list string) (ev : event)
  : Prop :=
  wire service sender_names true ev.

(** An event that changes no message: neither a store nor an expunge. *)
Definition leaves_messages (ev : event) : Prop :=
  match ev with
  | Call (UidStore _ _ _) _ => False
  | Call Expunge _ => False
  | _ => True
  end.

End Discipline.

Section Closing.

Context {W : Type} {SV : Server W}.

(** What [close] adds to the trace from a state: both commands when
    there is a handle, whatever they answer, and nothing without one. *)
Definition close_events (s : io W) (evs : list event) : Prop :=
  if connection s then exists rc rl, evs = [Call Close rc; Call Logout rl] else evs = [].

(** The run ends with the two closing commands, followed by prints only. *)
Definition closed_at_end (evs : list event) : Prop :=
  exists pre rc rl post,
    evs = (pre ++ [Call Close rc; Call Logout rl] ++ post)%list /\ Forall is_print post.

End Closing.

(** ** The session: connecting, expunging, flagging *)

(** An event of session management: no search, fetch, store or expunge. *)
Definition session_event (ev : event) : Prop :=
  match ev with
  | Call (UidSearch _ _) _ => False
  | Call (UidFetch _ _) _ => False
  | Call (UidStore _ _ _) _ => False
  | Call Expunge _ => False
  | _ => True
  end.

Definition is_select (ev : event) : bool :=
  match ev with
  | Call (Select _ _) _ => true
  | _ => false
  end.

Definition is_expunge (ev : event) : bool :=
  match ev with
  | Call Expunge _ => true
  | _ => false
  end.

(** The UIDs of [uids], in order, the i-th repeated as [counts] says; a
    shorter [counts] stops early. *)
Fixpoint repeated (uids : list string) (counts : list nat) : list string :=
  match uids, counts with
  | uid :: uids', k :: counts' => (repeat uid k ++ repeated uids' counts')%list
  | _, _ => []
  end.

Definition expunges (evs : list event) : nat := length (List.filter is_expunge evs).

(** Once an EXPUNGE has returned, only prints follow. *)
Fixpoint settled (evs : list event) : Prop :=
  match evs with
  | [] => True
  | Call Expunge (Ret _) :: rest => Forall is_print rest
  | _ :: rest => settled rest
  end.

(** No EXPUNGE has returned. *)
Definition unsettled (ev : event) : Prop :=
  match ev with
  | Call Expunge (Ret _) => False
  | _ => True
  end.

(** ** The subject of a fetched message *)

Section Subjects.

Context {PL : PyLib}.

(** The bytes of the last tuple part of a FETCH response, if any. *)
Fixpoint last_part (msg_data : list item) : option string :=
  match msg_data with
  | [] => None
  | IPair _ raw :: rest =>
      match last_part rest with
      | Some later => Some later
      | None => Some raw
      end
  | _ :: rest => last_part rest
  end.

(** [msg.get("Subject", "")] of the parsed part. *)
Definition header_text (raw : string) : string :=
  match message_subject raw with
  | Some h => h
  | None => ""
  end.

End Subjects.

(** ** The manual exchange *)

Fixpoint sent_lines (evs : list event) : list string :=
  match evs with
  | [] => []
  | Call (Send line) _ :: rest => line :: sent_lines rest
  | _ :: rest => sent_lines rest
  end.

Section Exchange.

Context {PL : PyLib}.

Definition command_line (tag : value) : string :=
  (py_str tag ++ " AUTHENTICATE XOAUTH2") ++ CRLF.

(** The payload line directly follows a line read from the server that
    begins with a plus sign. *)
Definition payload_follows_continuation (auth_bytes : string) (evs : list event) : Prop :=
  exists pre v text rp post,
    evs = (pre ++ [Call Readline (Ret v); Call (Send (auth_bytes ++ CRLF)) rp] ++ post)%list /\
    response_text v = Ok text /\ startswith text "+" = true.

(** What the manual exchange may have sent: nothing, the command alone,
    or the command and then the payload, the latter after a continuation. *)
Definition exchange_sends (auth_bytes : string) (evs : list event) : Prop :=
  sent_lines evs = [] \/
  exists tag,
    sent_lines evs = [command_line tag] \/
    (sent_lines evs = [command_line tag; auth_bytes ++ CRLF] /\
     payload_follows_continuation auth_bytes evs).

End Exchange.

(** ** The results of the search phase *)

(** [yields m R]: from any state, the result of [m] satisfies [R]. *)
Definition yields {S A : Type} (m : M S A) (R : result A -> Prop) : Prop :=
  forall s, R (m s).1.

(** The records come in groups, one per sender name and in the order of
    the names, each record carrying the name its group was searched by. *)
Definition grouped_by_sender (sender_names : list string) (emails : list MessageRecord)
  : Prop :=
  exists groups,
    emails = concat groups /\
    Forall2 (fun name group => Forall (fun mail => sender mail = name) group)
      sender_names groups.

(** [results] grew by records of one sender name. *)
Definition extended_for (name : string) (results : list MessageRecord)
  (r : result (list MessageRecord)) : Prop :=
  forall results', r = Ok results' ->
    exists new, results' = (results ++ new)%list /\ Forall (fun mail => sender mail = name) new.

(** ** Filters and configuration *)

(** The text [hay] contains [needle] up to the case of ASCII letters. *)
Definition contains_ignoring_case (needle hay : string) : Prop :=
  exists pre mid post, hay = pre ++ mid ++ post /\ upper mid = upper needle.

(** A reply that the teardown of [_reconnect] passes over: a value, or an
    exception of the classes its [except] clauses name. *)
Definition passed_over (r : reply) : Prop :=
  match r with
  | Ret _ => True
  | Throw e => is_liveness_error e = true
  end.

(** ** Fetching each message once *)

Fixpoint fetched_uids (evs : list event) : list string :=
  match evs with
  | [] => []
  | Call (UidFetch uid _) _ :: rest => uid :: fetched_uids rest
  | _ :: rest => fetched_uids rest
  end.

Definition no_fetch (ev : event) : Prop :=
  match ev with
  | Call (UidFetch _ _) _ => False
  | _ => True
  end.

Definition no_expunge (ev : event) : Prop := is_expunge ev = false.

Section Fetching.

Context {W : Type}.

(** The fetches of a piece of the search phase: no UID twice, each one
    new to the seen-set before and in it after; the seen-set only grows. *)
Definition fetches_fresh (st st' : @search_state W) (evs : list event) : Prop :=
  total_found_uids st ⊆ total_found_uids st' /\
  NoDup (fetched_uids evs) /\
  forall u, In u (fetched_uids evs) ->
    (u ∉ total_found_uids st) /\ (u ∈ total_found_uids st').

Definition keeps_fresh {A : Type} `{!Server W} (m : M (@search_state W) A) : Prop :=
  forall st, runs m st (fun _ st' evs => fetches_fresh st st' evs).

End Fetching.


(** ** One guarded search, and the fallback *)

Definition reconnect_line : string := "[*] Connection lost, reconnecting...".

(** A SELECT that returned. *)
Definition selected (ev : event) : bool :=
  match ev with
  | Call (Select _ _) (Ret _) => true
  | _ => false
  end.

(** The events secure the connection: the liveness probe returned, and it
    is all there is; or a reconnection was announced and ended with the
    mailbox selected. *)
Definition secured (self : OutlookService) (evs : list event) : Prop :=
  Forall session_event evs /\
  ((exists v, evs = [Call Noop (Ret v)]) \/
   (In (Print reconnect_line) evs /\
    exists pre v, evs = (pre ++ [Call (Select (mailbox self) false) (Ret v)])%list)).

(** The events fail to secure it, with the exception [e]: the probe
    raised [e], of a class it does not absorb; or a reconnection was
    announced and no SELECT returned. *)
Definition unsecured (e : exn) (evs : list event) : Prop :=
  Forall session_event evs /\
  ((evs = [Call Noop (Throw e)] /\ is_liveness_error e = false) \/
   (In (Print reconnect_line) evs /\ Forall (fun ev => selected ev = false) evs)).

Section Fallback.

Context {W : Type} {SV : Server W} {PL : PyLib}.

(** One attempt at the search [c], with the outcome [o]: the connection
    is secured and then [c] is sent, once, as the last event, its reply
    deciding the outcome; or the connection could not be secured and
    nothing is sent. *)
Definition attempt (self : OutlookService) (c : command) (o : result (list string))
  (evs : list event) : Prop :=
  (exists pre rp,
     evs = (pre ++ [Call c rp])%list /\ secured self pre /\ o = search_outcome rp) \/
  (exists e, o = Raise e /\ unsecured e evs).

(** The search by one name: an attempt with the UTF-8 charset; when it
    fails with a transport or protocol error, and only then, a second
    attempt without a charset; when this one fails in the same way, a
    warning and the empty list.  A failure of another class ends the search
    and is its result. *)
Definition fell_back (self : OutlookService) (name : string) (r : result (list string))
  (evs : list event) : Prop :=
  let criteria := search_criteria name in
  exists o1 evs1,
    attempt self (UidSearch (Some "UTF-8") criteria) o1 evs1 /\
    match o1 with
    | Ok uids => r = Ok uids /\ evs = evs1
    | Raise e1 =>
        if is_transport e1 then
          exists o2 evs2,
            attempt self (UidSearch None criteria) o2 evs2 /\
            match o2 with
            | Ok uids => r = Ok uids /\ evs = (evs1 ++ evs2)%list
            | Raise e2 =>
                if is_transport e2
                then r = Ok [] /\
                     evs = (evs1 ++ evs2 ++ [Print (search_warning name e2)])%list
                else r = Raise e2 /\ evs = (evs1 ++ evs2)%list
            end
        else r = Raise e1 /\ evs = evs1
    end.

End Fallback.

(** ** The turn of each UID in a deletion pass *)

(** Some call of the run failed with the exception [e]. *)
Definition thrown (e : exn) (evs : list event) : Prop :=
  exists c, In (Call c (Throw e)) evs.

(** The deletion of this UID was given up after the retry, and logged. *)
Definition gave_up (uid : string) (evs : list event) : Prop :=
  exists e,
    In (Print ("  [ERROR] Failed to delete UID " ++ uid ++ " after reconnect: " ++ exn_msg e))
       evs.

(** Every UID of the list was dealt with: flagged, or given up. *)
Definition all_dealt_with (uids : list string) (evs : list event) : Prop :=
  forall uid, In uid uids -> flagged_in uid evs \/ gave_up uid evs.

(** The stores sent go through the list in order, with at most two for each
    UID. *)
Definition stores_in_order (uids : list string) (evs : list event) : Prop :=
  exists counts,
    Forall (fun k => k <= 2) counts /\
    store_commands evs = map flag_command (repeated uids counts).

Section Honesty.

Context {W : Type} {SV : Server W}.

(** [honest m]: what [m] raises is a transport or protocol error, or the
    exception of a call that failed during [m]. *)
Definition honest {A : Type} (m : M (io W) A) : Prop :=
  forall s, runs m s (fun r _ evs =>
    forall e, r = Raise e -> is_transport e = true \/ thrown e evs).

End Honesty.

(** * Part III: properties *)

(** ** Base64 round trip *)

Import Base64.

Lemma dec_enc_char (s : sextet) : dec_char (enc_char s) = Some s.
Proof.
destruct s as [[[[[b5 b4] b3] b2] b1] b0].
destruct b5, b4, b3, b2, b1, b0; reflexivity.
Qed.

Lemma enc_char_not_pad (s : sextet) : Ascii.eqb (enc_char s) pad = false.
Proof.
destruct s as [[[[[b5 b4] b3] b2] b1] b0].
destruct b5, b4, b3, b2, b1, b0; reflexivity.
Qed.

(** Induction on strings three characters at a time. *)
Lemma string_ind3 (P : string -> Prop) :
P EmptyString ->
(forall x, P (String x EmptyString)) ->
(forall x y, P (String x (String y EmptyString))) ->
(forall x y z rest, P rest -> P (String x (String y (String z rest)))) ->
forall s, P s.
Proof.
intros H0 H1 H2 H3.
fix IH 1.
intros [|x [|y [|z rest]]]; [exact H0 | apply H1 | apply H2 | apply H3, IH].
Qed.

Lemma b64encode_group x y z rest :
b64encode (String x (String y (String z rest))) =
let '(a, b, c, d) := enc3 x y z in
String a (String b (String c (String d (b64encode rest)))).
Proof. reflexivity. Qed.

Lemma b64decode_group a b c d rest :
Ascii.eqb d pad = false ->
b64decode (String a (String b (String c (String d rest)))) =
match dec_char a, dec_char b, dec_char c, dec_char d, b64decode rest with
| Some p, Some q, Some r, Some s, Some out =>
    let '(x, y, z) := dec4 p q r s in
    Some (String x (String y (String z out)))
| _, _, _, _, _ => None
end.
Proof. intros Hd. cbn [b64decode]. rewrite Hd. reflexivity. Qed.

Lemma b64decode_b64encode (s : string) : b64decode (b64encode s) = Some s.
Proof.
induction s as [|x|x y|x y z rest IH] using string_ind3.
- reflexivity.
- destruct x as [x0 x1 x2 x3 x4 x5 x6 x7]. cbn -[dec_char enc_char].
  rewrite !dec_enc_char. reflexivity.
- destruct x as [x0 x1 x2 x3 x4 x5 x6 x7], y as [y0 y1 y2 y3 y4 y5 y6 y7].
  cbn -[dec_char enc_char].
  rewrite enc_char_not_pad, !dec_enc_char. reflexivity.
- rewrite b64encode_group.
  destruct x as [x0 x1 x2 x3 x4 x5 x6 x7], y as [y0 y1 y2 y3 y4 y5 y6 y7],
    z as [z0 z1 z2 z3 z4 z5 z6 z7].
  cbn [enc3].
  rewrite b64decode_group by apply enc_char_not_pad.
  rewrite !dec_enc_char, IH. reflexivity.
Qed.

Example b64encode_samples :
  (b64encode "a", b64encode "ab", b64encode "abc", b64encode "Man is") =
  ("YQ==", "YWI=", "YWJj", "TWFuIGlz").
Proof. reflexivity. Qed.

(** ** A logic of runs: result, final state and the events added *)

Lemma catch_eq {S A : Type} (m : M S A) (h : exn -> M S A) (s : S) :
  catch m h s =
  match m s with
  | (Ok a, s1) => (Ok a, s1)
  | (Raise e, s1) => h e s1
  end.
Proof. reflexivity. Qed.

Lemma bind_eq {S A B : Type} (m : M S A) (k : A -> M S B) (s : S) :
  (m ≫= k) s =
  match m s with
  | (Ok a, s1) => k a s1
  | (Raise e, s1) => (Raise e, s1)
  end.
Proof. reflexivity. Qed.

Lemma bind_assoc {S A B C : Type} (m : M S A) (k : A -> M S B) (k' : B -> M S C) (s : S) :
  ((m ≫= k) ≫= k') s = (m ≫= (fun a => k a ≫= k')) s.
Proof. rewrite !bind_eq. destruct (m s) as [[a|e] s1]; reflexivity. Qed.

Section Logic.

Context {S : Type} {TS : Traced S}.

Lemma runs_intro {A : Type} (m : M S A) s r s' evs (Q : result A -> S -> list event -> Prop) :
  m s = (r, s') -> trace_of s' = (trace_of s ++ evs)%list -> Q r s' evs -> runs m s Q.
Proof. intros Hm Ht HQ. exists evs. rewrite Hm. auto. Qed.

Lemma runs_elim {A : Type} (m : M S A) s r s' (Q : result A -> S -> list event -> Prop) :
  runs m s Q -> m s = (r, s') ->
  exists evs, trace_of s' = (trace_of s ++ evs)%list /\ Q r s' evs.
Proof. intros [evs [Ht HQ]] Hm. rewrite Hm in Ht, HQ. eauto. Qed.

Lemma runs_ext {A : Type} (m m' : M S A) s (Q : result A -> S -> list event -> Prop) :
  m s = m' s -> runs m s Q -> runs m' s Q.
Proof. unfold runs. intros ->. auto. Qed.

Lemma runs_mono {A : Type} (m : M S A) s (Q Q' : result A -> S -> list event -> Prop) :
  runs m s Q -> (forall r s' evs, Q r s' evs -> Q' r s' evs) -> runs m s Q'.
Proof. intros [evs [Ht HQ]] H. exists evs. auto. Qed.

Lemma runs_ret {A : Type} (a : A) s (Q : result A -> S -> list event -> Prop) :
  Q (Ok a) s [] -> runs (mret a) s Q.
Proof. intros HQ. exists []. rewrite app_nil_r. auto. Qed.

Lemma runs_raise {A : Type} (e : exn) s (Q : result A -> S -> list event -> Prop) :
  Q (Raise e) s [] -> runs (raise e) s Q.
Proof. intros HQ. exists []. rewrite app_nil_r. auto. Qed.

Lemma runs_lift_result {A : Type} (r : result A) s (Q : result A -> S -> list event -> Prop) :
  Q r s [] -> runs (lift_result r) s Q.
Proof. intros HQ. exists []. rewrite app_nil_r. auto. Qed.

Lemma runs_bind {A B : Type} (m : M S A) (k : A -> M S B) s
  (Q : result B -> S -> list event -> Prop) :
  runs m s (fun r s1 evs1 =>
    match r with
    | Ok a => runs (k a) s1 (fun r' s' evs2 => Q r' s' (evs1 ++ evs2)%list)
    | Raise e => Q (Raise e) s1 evs1
    end) ->
  runs (m ≫= k) s Q.
Proof.
  intros [evs1 [Ht H]]. unfold mbind, M_bind, runs in *.
  destruct (m s) as [[a|e] s1]; simpl in *.
  - destruct H as [evs2 [Ht2 HQ]]. exists (evs1 ++ evs2)%list.
    rewrite Ht2, Ht, app_assoc. auto.
  - exists evs1. auto.
Qed.

Lemma runs_catch {A : Type} (m : M S A) (h : exn -> M S A) s
  (Q : result A -> S -> list event -> Prop) :
  runs m s (fun r s1 evs1 =>
    match r with
    | Ok a => Q (Ok a) s1 evs1
    | Raise e => runs (h e) s1 (fun r' s' evs2 => Q r' s' (evs1 ++ evs2)%list)
    end) ->
  runs (catch m h) s Q.
Proof.
  intros [evs1 [Ht H]]. unfold catch, runs in *.
  destruct (m s) as [[a|e] s1]; simpl in *.
  - exists evs1. auto.
  - destruct H as [evs2 [Ht2 HQ]]. exists (evs1 ++ evs2)%list.
    rewrite Ht2, Ht, app_assoc. auto.
Qed.

Lemma runs_finally {A : Type} (m : M S A) (f : M S unit) s
  (Q : result A -> S -> list event -> Prop) :
  runs m s (fun r s1 evs1 =>
    runs f s1 (fun r' s' evs2 =>
      match r' with
      | Ok _ => Q r s' (evs1 ++ evs2)%list
      | Raise e => Q (Raise e) s' (evs1 ++ evs2)%list
      end)) ->
  runs (finally m f) s Q.
Proof.
  intros [evs1 [Ht [evs2 [Ht2 H]]]]. unfold finally, runs in *.
  destruct (m s) as [r s1]; simpl in *.
  destruct (f s1) as [[u|e] s2]; simpl in *;
    exists (evs1 ++ evs2)%list; rewrite Ht2, Ht, app_assoc; auto.
Qed.

End Logic.

Section IoLogic.

Context {W : Type} {SV : Server W} {PL : PyLib}.

Lemma runs_call (c : command) (s : io W) (Q : result value -> io W -> list event -> Prop) :
  (forall r w, serve c (world s) = (r, w) ->
     Q (reply_result r) (IO w (connection s) (trace s ++ [Call c r])) [Call c r]) ->
  runs (call c) s Q.
Proof.
  intros H. unfold runs, call. destruct (serve c (world s)) as [r w] eqn:E.
  specialize (H r w eq_refl). exists [Call c r]. destruct r; simpl; auto.
Qed.

Lemma runs_conn_call (c : command) (s : io W)
  (Q : result value -> io W -> list event -> Prop) :
  (connection s = true -> runs (call c) s Q) ->
  (connection s = false ->
   Q (Raise (Exn AttributeError "'NoneType' object has no attribute")) s []) ->
  runs (conn_call c) s Q.
Proof.
  intros Ht Hf. unfold runs, conn_call in *. destruct (connection s).
  - apply Ht. reflexivity.
  - exists []. simpl. rewrite app_nil_r. auto.
Qed.

Lemma runs_print (line : string) (s : io W) (Q : result unit -> io W -> list event -> Prop) :
  Q (Ok tt) (IO (world s) (connection s) (trace s ++ [Print line])) [Print line] ->
  runs (print line) s Q.
Proof. intros H. exists [Print line]. simpl. auto. Qed.

Lemma runs_set_connection (b : bool) (s : io W)
  (Q : result unit -> io W -> list event -> Prop) :
  Q (Ok tt) (IO (world s) b (trace s)) [] -> runs (set_connection b) s Q.
Proof. intros H. exists []. simpl. unfold trace_of, io_traced. simpl. rewrite app_nil_r. auto. Qed.

Lemma runs_get_connection (s : io W) (Q : result bool -> io W -> list event -> Prop) :
  Q (Ok (connection s)) s [] -> runs get_connection s Q.
Proof. intros H. exists []. simpl. rewrite app_nil_r. auto. Qed.

Lemma runs_assign_state (st : string) (s : io W)
  (Q : result unit -> io W -> list event -> Prop) :
  (forall w, Q (Ok tt) (IO w (connection s) (trace s ++ [Call (SetState st) (Ret VNone)]))
               [Call (SetState st) (Ret VNone)]) ->
  runs (assign_state st) s Q.
Proof.
  intros H. unfold runs, assign_state. destruct (serve (SetState st) (world s)) as [r w].
  exists [Call (SetState st) (Ret VNone)]. simpl. auto.
Qed.

End IoLogic.

(** ** Footprints: which events a computation may add *)

Section Footprint.

Context {W : Type} {SV : Server W} {PL : PyLib}.
Variable P : event -> Prop.

Lemma only_ret {A : Type} (a : A) : only (W := W) P (mret a).
Proof. intros s. apply runs_ret. auto. Qed.

Lemma only_raise {A : Type} (e : exn) : only (W := W) (A := A) P (raise e).
Proof. intros s. apply runs_raise. auto. Qed.

Lemma only_lift_result {A : Type} (r : result A) : only (W := W) P (lift_result r).
Proof. intros s. apply runs_lift_result. auto. Qed.

Lemma only_bind {A B : Type} (m : M (io W) A) (k : A -> M (io W) B) :
  only P m -> (forall a, only P (k a)) -> only P (m ≫= k).
Proof.
  intros Hm Hk s. apply runs_bind. eapply runs_mono; [apply Hm|].
  intros [a|e] s1 evs1 [HP Hc]; [|auto].
  eapply runs_mono; [apply Hk|]. intros r s2 evs2 [HP2 Hc2].
  split; [apply Forall_app; auto | auto].
Qed.

Lemma only_catch {A : Type} (m : M (io W) A) (h : exn -> M (io W) A) :
  only P m -> (forall e, only P (h e)) -> only P (catch m h).
Proof.
  intros Hm Hh s. apply runs_catch. eapply runs_mono; [apply Hm|].
  intros [a|e] s1 evs1 [HP Hc]; [auto|].
  eapply runs_mono; [apply Hh|]. intros r s2 evs2 [HP2 Hc2].
  split; [apply Forall_app; auto | auto].
Qed.

Lemma only_call (c : command) : (forall r, P (Call c r)) -> only P (call c).
Proof. intros H s. apply runs_call. intros r w _. split; [repeat constructor; auto | auto]. Qed.

Lemma only_conn_call (c : command) : (forall r, P (Call c r)) -> only P (conn_call c).
Proof.
  intros H s. apply runs_conn_call; intros Hc.
  - apply only_call, H.
  - split; [constructor | auto].
Qed.

Lemma only_print (line : string) : P (Print line) -> only (W := W) P (print line).
Proof. intros H s. apply runs_print. split; [repeat constructor; auto | auto]. Qed.

Lemma only_get_connection : only (W := W) P get_connection.
Proof. intros s. apply runs_get_connection. auto. Qed.

Lemma only_connected : only (W := W) P (set_connection true).
Proof. intros s. apply runs_set_connection. auto. Qed.

Lemma only_assign_state (st : string) :
  P (Call (SetState st) (Ret VNone)) -> only P (assign_state st).
Proof. intros H s. apply runs_assign_state. intros w. split; [repeat constructor; auto | auto]. Qed.

End Footprint.

Lemma only_mono {W A : Type} (P P' : event -> Prop) (m : M (io W) A) :
  (forall ev, P ev -> P' ev) -> only P m -> only P' m.
Proof.
  intros H Hm s. eapply runs_mono; [apply Hm|]. intros r s' evs [HP Hc].
  split; [eapply Forall_impl; eauto | auto].
Qed.

Create HintDb footprint.

Ltac only_step :=
  lazymatch goal with
  | |- only _ (mbind _ _) => apply only_bind; [| intros ?]
  | |- only _ (mret _) => apply only_ret
  | |- only _ (raise _) => apply only_raise
  | |- only _ (lift_result _) => apply only_lift_result
  | |- only _ (catch _ _) => apply only_catch; [| intros ?]
  | |- only _ (call _) => apply only_call; intros; first [exact I | assumption]
  | |- only _ (conn_call _) => apply only_conn_call; intros; first [exact I | assumption]
  | |- only _ (print _) => apply only_print; exact I
  | |- only _ get_connection => apply only_get_connection
  | |- only _ (set_connection true) => apply only_connected
  | |- only _ (assign_state _) => apply only_assign_state; exact I
  | |- only _ (if ?b then _ else _) => destruct b
  | |- only _ (match ?x with _ => _ end) => destruct x
  end.

Ltac only_auto := repeat first [ solve [ auto with footprint ] | only_step ].

(** The same for a footprint [P] that every quiet event satisfies. *)
Ltac only_via Himp :=
  repeat first
    [ solve [ auto with footprint ]
    | solve [ eapply only_mono; [exact Himp | auto with footprint] ]
    | only_step ].

Section SessionFootprint.

Context {W : Type} {SV : Server W} {PL : PyLib}.

Lemma quiet_read_imap_response : only (W := W) quiet _read_imap_response.
Proof. unfold _read_imap_response. only_auto. Qed.

#[local] Hint Resolve quiet_read_imap_response : footprint.

Lemma quiet_read_final_loop fuel tag_str response_lines :
  only (W := W) quiet (read_final_loop fuel tag_str response_lines).
Proof.
  revert response_lines. induction fuel as [|fuel IH]; intros response_lines; simpl.
  - only_auto.
  - only_auto.
Qed.

#[local] Hint Resolve quiet_read_final_loop : footprint.

Lemma quiet_authenticate_oauth2_manual auth_bytes :
  only (W := W) quiet (_authenticate_oauth2_manual auth_bytes).
Proof.
  unfold _authenticate_oauth2_manual, xoauth2_exchange, _read_final_auth_response.
  only_auto.
Qed.

#[local] Hint Resolve quiet_authenticate_oauth2_manual : footprint.

Lemma quiet_authenticate_oauth2 email_address access_token :
  only (W := W) quiet (authenticate_oauth2 email_address access_token).
Proof. unfold authenticate_oauth2, authenticate_primary, unpack. only_auto. Qed.

#[local] Hint Resolve quiet_authenticate_oauth2 : footprint.

Lemma quiet_connect self : only (W := W) quiet (connect self).
Proof. unfold connect. only_auto. Qed.

#[local] Hint Resolve quiet_connect : footprint.

Lemma quiet_is_connection_alive : only (W := W) quiet _is_connection_alive.
Proof. unfold _is_connection_alive. only_auto. Qed.

Lemma quiet_reconnect self : only (W := W) quiet (_reconnect self).
Proof. unfold _reconnect, quietly. only_auto. Qed.

#[local] Hint Resolve quiet_is_connection_alive quiet_reconnect : footprint.

Lemma quiet_fetch_email_subject uid : only (W := W) quiet (_fetch_email_subject uid).
Proof. unfold _fetch_email_subject, unpack. only_auto. Qed.

Lemma quiet_close : only (W := W) quiet close.
Proof. unfold close, silently. only_auto. Qed.

Lemma quiet_expunge_with_retry self : only (W := W) quiet (_expunge_with_retry self).
Proof. unfold _expunge_with_retry. only_auto. Qed.

Lemma quiet_print_matches emails : only (W := W) quiet (print_matches emails).
Proof. induction emails as [|mail rest IH]; simpl; only_auto. Qed.

End SessionFootprint.

#[global] Hint Resolve quiet_read_imap_response quiet_read_final_loop
  quiet_authenticate_oauth2_manual quiet_authenticate_oauth2 quiet_connect
  quiet_is_connection_alive quiet_reconnect quiet_fetch_email_subject quiet_close
  quiet_expunge_with_retry quiet_print_matches : footprint.

(** ** Substrings *)

Lemma append_cons (c : ascii) (a b : string) : String c a ++ b = String c (a ++ b).
Proof. reflexivity. Qed.

Lemma append_nil (b : string) : "" ++ b = b.
Proof. reflexivity. Qed.

Ltac sapp := rewrite ?append_cons, ?append_nil in *.

Lemma prefix_spec (p s : string) : String.prefix p s = true <-> exists post, s = p ++ post.
Proof.
  revert p. induction s as [|d s IH]; intros [|c p]; simpl.
  - split; [intros _; exists ""; reflexivity | reflexivity].
  - split; [discriminate | intros [post H]; discriminate].
  - split; [intros _; exists (String d s); reflexivity | reflexivity].
  - destruct (ascii_dec c d) as [->|Hne].
    + rewrite IH. split; intros [post H]; exists post; sapp; congruence.
    + split; [discriminate | intros [post H]; sapp; congruence].
Qed.

Lemma contains_spec (needle hay : string) :
  contains needle hay = true <-> has_substring needle hay.
Proof.
  unfold has_substring. induction hay as [|c hay IH].
  - cbn [contains]. rewrite orb_false_r, prefix_spec. split.
    + intros [post H]. exists "", post. exact H.
    + intros [[|d pre] [post H]]; sapp; [exists post; exact H | discriminate].
  - cbn [contains]. rewrite orb_true_iff, prefix_spec, IH. split.
    + intros [[post H]|[pre [post H]]].
      * exists "", post. exact H.
      * exists (String c pre), post. sapp. congruence.
    + intros [[|d pre] [post H]]; sapp.
      * left. exists post. exact H.
      * right. exists pre, post. congruence.
Qed.

Lemma upper_app (a b : string) : upper (a ++ b) = upper a ++ upper b.
Proof.
  induction a as [|c a IH]; sapp; [reflexivity|].
  cbn [upper]. sapp. rewrite IH. reflexivity.
Qed.

Lemma upper_split (s a b : string) :
  upper s = a ++ b -> exists a' b', s = a' ++ b' /\ upper a' = a /\ upper b' = b.
Proof.
  revert s. induction a as [|c a IH]; intros s H; sapp.
  - exists "", s. auto.
  - destruct s as [|d s]; [discriminate|]. cbn [upper] in H. injection H as Hc Hs.
    destruct (IH s Hs) as [a' [b' [-> [Ha Hb]]]].
    exists (String d a'), b'. cbn [upper]. rewrite Hc, Ha. auto.
Qed.

Lemma upper_char_O (c : ascii) : upper_char c = "O"%char <-> (c = "O" \/ c = "o")%char.
Proof.
  destruct c as [[] [] [] [] [] [] [] []]; vm_compute;
    (split; [intros H; first [discriminate H | left; reflexivity | right; reflexivity]
            | intros [H|H]; first [discriminate H | reflexivity]]).
Qed.

Lemma upper_char_K (c : ascii) : upper_char c = "K"%char <-> (c = "K" \/ c = "k")%char.
Proof.
  destruct c as [[] [] [] [] [] [] [] []]; vm_compute;
    (split; [intros H; first [discriminate H | left; reflexivity | right; reflexivity]
            | intros [H|H]; first [discriminate H | reflexivity]]).
Qed.

Lemma ok_letters_spec (text : string) :
  contains "OK" (upper text) = true <-> has_ok_letters text.
Proof.
  rewrite contains_spec. unfold has_substring, has_ok_letters. split.
  - intros [pre [post H]].
    destruct (upper_split _ _ _ H) as [pre' [rest [-> [_ Hrest]]]].
    destruct rest as [|c1 [|c2 post']]; sapp; try discriminate.
    cbn [upper] in Hrest. injection Hrest as H1 H2 _.
    exists pre', c1, c2, post'.
    rewrite <- upper_char_O, <- upper_char_K. auto.
  - intros [pre [c1 [c2 [post [-> [H1 H2]]]]]].
    rewrite <- upper_char_O in H1. rewrite <- upper_char_K in H2.
    exists (upper pre), (upper post). rewrite upper_app. cbn [upper]. rewrite H1, H2. reflexivity.
Qed.

Section AuthFacts.

Context {W : Type} {SV : Server W} {PL : PyLib}.

Lemma append_assoc (a b c : string) : (a ++ b) ++ c = a ++ b ++ c.
Proof.
  induction a as [|x a IH]; [rewrite !append_nil; reflexivity|].
  rewrite !append_cons, IH. reflexivity.
Qed.

Lemma append_nil_r (a : string) : a ++ "" = a.
Proof.
  induction a as [|x a IH]; [apply append_nil|]. rewrite append_cons, IH. reflexivity.
Qed.

(** Every word of [split] is a piece of the text. *)
Lemma split_from_piece (s cur word : string) :
  In word (split_from cur s) -> exists pre post, cur ++ s = pre ++ word ++ post.
Proof.
  revert cur. induction s as [|c s IH]; intros cur Hin; cbn [split_from] in Hin.
  - destruct cur as [|x cur]; [destruct Hin|]. destruct Hin as [<-|[]].
    exists "", "". rewrite append_nil. reflexivity.
  - destruct (is_bytes_space c).
    + assert (Hrest : In word (split_from "" s) ->
                exists pre post, cur ++ String c s = pre ++ word ++ post).
      { intros H. destruct (IH "" H) as (pre & post & Heq). rewrite append_nil in Heq.
        exists (cur ++ String c pre), post. rewrite append_assoc, append_cons, <- Heq.
        reflexivity. }
      destruct cur as [|x cur]; [exact (Hrest Hin)|].
      destruct Hin as [<-|Hin]; [|exact (Hrest Hin)].
      exists "", (String c s). rewrite append_nil. reflexivity.
    + destruct (IH _ Hin) as (pre & post & Heq). exists pre, post.
      rewrite <- Heq, append_assoc, append_cons, append_nil. reflexivity.
Qed.

Lemma upper_ok (word : string) :
  upper word = "OK" ->
  exists c1 c2, word = String c1 (String c2 "") /\
                (c1 = "O" \/ c1 = "o")%char /\ (c2 = "K" \/ c2 = "k")%char.
Proof.
  destruct word as [|c1 [|c2 [|c3 rest]]]; cbn [upper]; try discriminate.
  intros [= H1 H2]. exists c1, c2. split; [reflexivity|].
  assert (Hchar : forall (c u : ascii), upper_char c = u ->
            (Nat.leb 65 (nat_of_ascii u) && Nat.leb (nat_of_ascii u) 90 = true) ->
            c = u \/ c = ascii_of_nat (nat_of_ascii u + 32)).
  { intros c u Hu Hrange. unfold upper_char in Hu.
    destruct (Nat.leb 97 (nat_of_ascii c) && Nat.leb (nat_of_ascii c) 122) eqn:E; [|auto].
    right. subst u. rewrite nat_ascii_embedding.
    - replace (nat_of_ascii c - 32 + 32) with (nat_of_ascii c).
      + symmetry. apply ascii_nat_embedding.
      + apply andb_true_iff in E as [E1 E2]. apply Nat.leb_le in E1. lia.
    - pose proof (nat_ascii_bounded c). lia. }
  split.
  - destruct (Hchar c1 "O"%char H1 eq_refl) as [->| ->]; [left|right]; reflexivity.
  - destruct (Hchar c2 "K"%char H2 eq_refl) as [->| ->]; [left|right]; reflexivity.
Qed.

(** The code accepts whatever carries an OK token: its test is the weaker
    one. *)
Lemma ok_token_has_letters (text : string) : has_ok_token text -> has_ok_letters text.
Proof.
  intros (word & Hin & Hup). unfold split in Hin.
  destruct (split_from_piece _ _ _ Hin) as (pre & post & Heq).
  destruct (upper_ok _ Hup) as (c1 & c2 & -> & H1 & H2).
  rewrite append_nil, !append_cons, append_nil in Heq.
  exists pre, c1, c2, post. split; [exact Heq | auto].
Qed.

Lemma ok_token_in_spec (text : string) : ok_token_in text = true <-> has_ok_token text.
Proof.
  unfold ok_token_in, has_ok_token. rewrite existsb_exists. split.
  - intros (word & Hin & H). apply String.eqb_eq in H. eauto.
  - intros (word & Hin & H). exists word. split; [exact Hin|]. apply String.eqb_eq, H.
Qed.

Lemma validate_auth_response_spec (full_response tag_str : string) :
  (_validate_auth_response full_response tag_str = Ok true <->
   has_substring tag_str full_response /\ has_ok_letters full_response) /\
  (~ (has_substring tag_str full_response /\ has_ok_letters full_response) ->
   _validate_auth_response full_response tag_str =
   Raise (Exn IMAP4_error
            ("XOAUTH2 authentication failed. Server response: " ++ full_response))).
Proof.
  unfold _validate_auth_response.
  rewrite <- contains_spec, <- ok_letters_spec, <- andb_true_iff.
  destruct (contains tag_str full_response && contains "OK" (upper full_response)).
  - split; [tauto | intros H; exfalso; apply H; reflexivity].
  - split; [split; discriminate | reflexivity].
Qed.

(** What the code makes of the accumulated server text [full_response]:
    the exchange succeeds exactly when that text contains the tag and,
    anywhere, the letters OK in either case; otherwise it raises the
    authentication error whose message ends with the whole server text.  On
    success the only further effect is marking the connection
    authenticated. *)
Lemma manual_exchange_outcome (auth_bytes : string) (s s1 s2 : io W) (tag : value)
  (full_response : string) :
  call NewTag s = (Ok tag, s1) ->
  xoauth2_exchange auth_bytes tag s1 = (Ok full_response, s2) ->
  let outcome := _authenticate_oauth2_manual auth_bytes s in
  let accepted := has_substring (py_str tag) full_response /\ has_ok_letters full_response in
  (outcome.1 = Ok (Some true) <-> accepted) /\
  (~ accepted ->
   outcome = (Raise (Exn IMAP4_error
                       ("XOAUTH2 authentication failed. Server response: " ++ full_response)),
              s2)) /\
  (accepted ->
   trace outcome.2 = (trace s2 ++ [Call (SetState "AUTH") (Ret VNone)])%list).
Proof.
  intros Htag Hex outcome accepted. subst outcome accepted.
  destruct (validate_auth_response_spec full_response (py_str tag)) as [Hiff Hno].
  unfold _authenticate_oauth2_manual, mbind, M_bind, catch. rewrite Htag.
  unfold mbind, M_bind. rewrite Hex. unfold lift_result.
  destruct (_validate_auth_response full_response (py_str tag)) as [[|]|e] eqn:Hv.
  - unfold assign_state. destruct (serve (SetState "AUTH") (world s2)) as [r w].
    simpl. split; [|split].
    + split; [intros _; apply Hiff; reflexivity | reflexivity].
    + intros Hn. exfalso. apply Hn, Hiff. reflexivity.
    + reflexivity.
  - simpl. split; [|split].
    + split; [discriminate | intros H; apply Hiff in H; discriminate].
    + intros Hn. specialize (Hno Hn). discriminate.
    + intros H. apply Hiff in H. discriminate.
  - assert (Hn : ~ (has_substring (py_str tag) full_response /\ has_ok_letters full_response)).
    { intros H. apply Hiff in H. discriminate. }
    specialize (Hno Hn). injection Hno as ->. simpl. split; [|split].
    + split; [discriminate | intros H; contradiction].
    + reflexivity.
    + intros H. contradiction.
Qed.

End AuthFacts.

(** A scripted server that sends the continuation and then refuses, in
    words without the letters OK. *)
Example refusal_without_ok_letters_raises :
  @_authenticate_oauth2_manual _ scripted example_lib "QUJD" (start rejecting_script true) =
  (Raise (Exn IMAP4_error "XOAUTH2 authentication failed. Server response: b'A1' NO invalid"),
   IO [] true
     [Call NewTag (Ret (VBytes "A1"));
      Call (Send ("b'A1' AUTHENTICATE XOAUTH2" ++ CRLF)) (Ret VNone);
      Call Readline (Ret (VBytes "+ "));
      Call (Send ("QUJD" ++ CRLF)) (Ret VNone);
      Call Readline (Ret (VBytes "b'A1' NO invalid"))]).
Proof.
  refine (proj1 (proj2 (@manual_exchange_outcome _ scripted example_lib "QUJD"
    (start rejecting_script true) _ _ (VBytes "A1") "b'A1' NO invalid" _ _)) _).
  - vm_compute. reflexivity.
  - vm_compute. reflexivity.
  - intros [_ Hok]. apply ok_letters_spec in Hok. vm_compute in Hok. discriminate Hok.
Qed.

(** The exchange of the specification's test: a continuation, then an
    untagged line, then the tagged OK. *)
Example continuation_then_ok_authenticates :
  let run :=
    @_authenticate_oauth2_manual _ scripted example_lib "QUJD"
      (start [Ret (VBytes "A1"); Ret VNone; Ret (VBytes "+ "); Ret VNone;
              Ret (VBytes "* CAPABILITY IMAP4rev1"); Ret (VBytes "b'A1' OK done")] true) in
  run.1 = Ok (Some true) /\
  last (trace run.2) = Some (Call (SetState "AUTH") (Ret VNone)).
Proof. vm_compute. split; reflexivity. Qed.

(** C3: a defect of the code.  The refusal [<tag> NO invalid token]
    carries the tag and no OK token, its words being the tag, NO, invalid
    and token, so that the exchange is to fail with the authentication
    error; yet the code, which looks for the letters OK anywhere in the
    upper-cased text, finds them in TOKEN: [_validate_auth_response]
    returns [True], and the exchange returns [True] and marks the connection
    authenticated. *)
Theorem refusal_with_ok_letters_authenticates :
  let run :=
    @_authenticate_oauth2_manual _ scripted example_lib "QUJD" (start refusing_script true) in
  split refusal_with_ok_letters = ["b'A1'"; "NO"; "invalid"; "token"] /\
  ok_token_in refusal_with_ok_letters = false /\
  contains "b'A1'" refusal_with_ok_letters = true /\
  @_validate_auth_response refusal_with_ok_letters "b'A1'" = Ok true /\
  run.1 = Ok (Some true) /\
  last (trace run.2) = Some (Call (SetState "AUTH") (Ret VNone)).
Proof. vm_compute. repeat split; reflexivity. Qed.

Section AuthenticateFacts.

Context {W : Type} {SV : Server W} {PL : PyLib}.

Lemma starts_with_call {A : Type} (c : command) (k : value -> M (io W) A)
  (h : exn -> M (io W) A) (s : io W) :
  (forall v, only quiet (k v)) -> (forall e, only quiet (h e)) ->
  exists r evs, trace (catch (call c ≫= k) h s).2 = (trace s ++ Call c r :: evs)%list.
Proof.
  intros Hk Hh.
  assert (H : runs (catch (call c ≫= k) h) s
                (fun _ _ evs => exists r evs', evs = Call c r :: evs')).
  { apply runs_catch, runs_bind, runs_call. intros r w _.
    destruct r as [v|e]; simpl.
    - eapply runs_mono; [apply Hk|]. intros [a|e] s1 evs1 _.
      + exists (Ret v), evs1. reflexivity.
      + eapply runs_mono; [apply Hh|]. intros r' s2 evs2 _.
        exists (Ret v), (evs1 ++ evs2)%list. reflexivity.
    - eapply runs_mono; [apply Hh|]. intros r' s2 evs2 _.
      exists (Throw e), evs2. reflexivity. }
  destruct H as [evs [Ht [r [evs' ->]]]]. exists r, evs'. exact Ht.
Qed.

(** C4: the payload that [authenticate_oauth2] hands to the connection is
    the base64 text of the SASL string, and decoding it gives back exactly
    [user=<identity>^Aauth=Bearer <token>^A^A]. *)
Theorem sasl_string_round_trip (identity bearer : string) (s : io W) :
  Base64.b64decode (auth_bytes_of identity bearer) =
    Some ("user=" ++ identity ++ chr 1 ++ "auth=Bearer " ++ bearer ++ chr 1 ++ chr 1) /\
  exists r evs,
    trace (authenticate_oauth2 identity bearer s).2 =
    (trace s ++ Call (Authenticate "XOAUTH2" (auth_bytes_of identity bearer)) r :: evs)%list.
Proof.
  split.
  - unfold auth_bytes_of. rewrite b64decode_b64encode. reflexivity.
  - unfold authenticate_oauth2, authenticate_primary.
    apply starts_with_call; intros; unfold unpack; only_auto.
Qed.

(** C8: whatever goes wrong in the built-in [authenticate] call (an
    exception of any class, a value that is not a status pair, or a status
    other than OK, which the code turns into an error), [authenticate_oauth2]
    prints a warning and continues as the manual XOAUTH2 exchange, from the
    state the failed call left. *)
Theorem primary_failure_falls_back (email_address access_token : string) (s : io W)
  (r : reply) (w : W) :
  let auth_bytes := auth_bytes_of email_address access_token in
  serve (Authenticate "XOAUTH2" auth_bytes) (world s) = (r, w) ->
  primary_failed r ->
  exists e,
    (authenticate_primary auth_bytes s).1 = Raise e /\
    (forall e', r = Throw e' -> e = e') /\
    authenticate_oauth2 email_address access_token s =
    (print (fallback_warning e);; _authenticate_oauth2_manual auth_bytes)
      (IO w (connection s) (trace s ++ [Call (Authenticate "XOAUTH2" auth_bytes) r])).
Proof.
  intros auth_bytes Hserve Hfail.
  unfold authenticate_oauth2, catch. fold auth_bytes.
  unfold authenticate_primary, fallback_warning, unpack, mbind, M_bind, call, raise.
  rewrite Hserve.
  destruct r as [v|e].
  - destruct v as [| | |typ data]; simpl;
      try (eexists; split; [reflexivity|]; split; [discriminate|]; reflexivity).
    simpl in Hfail. apply String.eqb_neq in Hfail. rewrite Hfail. simpl.
    eexists; split; [reflexivity|]; split; [discriminate|]; reflexivity.
  - simpl. exists e. split; [reflexivity|]. split; [congruence|].
    destruct (is_attribute_or_type e); reflexivity.
Qed.

End AuthenticateFacts.

(** The fallback at work: a server that answers NO to the built-in call. *)
Lemma primary_failure_falls_back_witness :
  exists e,
    (@authenticate_primary unit (stateless (fun _ => refused_mechanism)) example_lib
       (auth_bytes_of "me" "tok") (start tt true)).1 = Raise e /\
    (forall e', refused_mechanism = Throw e' -> e = e') /\
    @authenticate_oauth2 unit (stateless (fun _ => refused_mechanism)) example_lib
      "me" "tok" (start tt true) =
    (print (@fallback_warning e);;
     @_authenticate_oauth2_manual unit (stateless (fun _ => refused_mechanism)) example_lib
       (auth_bytes_of "me" "tok"))
      (IO tt true [Call (Authenticate "XOAUTH2" (auth_bytes_of "me" "tok")) refused_mechanism]).
Proof.
  apply (@primary_failure_falls_back unit (stateless (fun _ => refused_mechanism)) example_lib
           "me" "tok" (start tt true) refused_mechanism tt).
  - reflexivity.
  - simpl. discriminate.
Defined.

(** ** The bounded read of the final response *)

Section ReadFacts.

Context {W : Type} {SV : Server W} {PL : PyLib}.

Lemma runs_read_imap_response (s : io W) (Q : result string -> io W -> list event -> Prop) :
  (forall r w,
     Q (match r with Ret v => response_text v | Throw e => Raise e end)
       (IO w (connection s) (trace s ++ [Call Readline r])) [Call Readline r]) ->
  runs _read_imap_response s Q.
Proof.
  intros H. unfold _read_imap_response. apply runs_bind, runs_call. intros r w _.
  specialize (H r w). destruct r as [v|e]; simpl.
  - apply runs_lift_result. exact H.
  - exact H.
Qed.

Lemma only_last_nil {A : Type} (pre : list A) (x y : A) :
  [x] = (pre ++ [y])%list -> pre = [].
Proof. destruct pre as [|a [|b pre]]; simpl; intros H; [reflexivity | discriminate..]. Qed.

Lemma read_final_loop_spec (fuel : nat) (tag_str : string) (acc : list string) (s : io W) :
  runs (read_final_loop fuel tag_str acc) s (fun r _ evs => reader_post fuel tag_str acc r evs).
Proof.
  revert acc s. induction fuel as [|fuel IH]; intros acc s; simpl.
  - apply runs_ret. repeat split; auto.
    + intros pre ev H. destruct pre; discriminate.
    + intros lines [= <-]. simpl. rewrite app_nil_r. reflexivity.
  - apply runs_bind, runs_read_imap_response. intros r w.
    set (ev := Call Readline r).
    assert (Hstop : forall (res : result (list string)),
              (forall lines, res = Ok lines -> lines = (acc ++ lines_read [ev])%list) ->
              reader_post (S fuel) tag_str acc res [ev]).
    { intros res Hres. repeat split; simpl; auto with arith.
      intros pre ev' H. apply only_last_nil in H. subst pre. constructor. }
    destruct (match r with Ret v => response_text v | Throw e => Raise e end)
      as [text|e] eqn:Hline.
    + assert (Hl : line_of ev = Some (Ok text)).
      { subst ev. destruct r; simpl; congruence. }
      destruct (String.eqb text "") eqn:Hempty.
      * apply runs_ret. apply Hstop. intros lines [= <-]. cbn [lines_read].
        rewrite Hl, Hempty, app_nil_r. reflexivity.
      * destruct (startswith text tag_str) eqn:Htag.
        -- apply runs_ret. apply Hstop. intros lines [= <-]. cbn [lines_read].
           rewrite Hl, Hempty. reflexivity.
        -- eapply runs_mono; [apply IH|]. intros res _ evs2 (Hlen & Hall & Hpre & Hres).
           repeat split.
           ++ simpl. lia.
           ++ simpl. constructor; auto.
           ++ intros pre ev' H. destruct pre as [|p pre]; [constructor|].
              simpl in H. injection H as <- H. constructor.
              ** exists text. apply String.eqb_neq in Hempty. auto.
              ** eapply Hpre. exact H.
           ++ intros lines Hlines. rewrite (Hres lines Hlines). cbn [lines_read app].
              rewrite Hl, Hempty, <- app_assoc. reflexivity.
    + apply Hstop. discriminate.
Qed.

(** C9: reading the final response of the manual exchange adds nothing
    but [readline] calls to the trace, at most [max_attempts] of them (10 at
    its one call site, so the whole exchange reads at most 11 lines); every
    line before the last one read is non-empty and does not begin with the
    tag, that is, the reader stops at the first empty or tagged line; and
    what it returns is the lines it read, joined by spaces. *)
Theorem final_response_read_is_bounded (tag_str : string) (max_attempts : nat) (s : io W) :
  runs (_read_final_auth_response tag_str max_attempts) s (fun r _ evs =>
    length evs <= max_attempts /\
    Forall (fun ev => is_readline ev = true) evs /\
    (forall pre ev, evs = (pre ++ [ev])%list -> Forall (continues tag_str) pre) /\
    (forall text, r = Ok text -> text = join " " (lines_read evs))) /\
  (forall auth_bytes tag,
     runs (xoauth2_exchange auth_bytes tag) s (fun _ _ evs => readline_count evs <= 11)).
Proof.
  split.
  - unfold _read_final_auth_response. apply runs_bind.
    eapply runs_mono; [apply read_final_loop_spec|].
    intros r s1 evs (Hlen & Hall & Hpre & Hres).
    destruct r as [lines|e].
    + apply runs_ret. rewrite app_nil_r. repeat split; auto.
      intros text [= <-]. rewrite (Hres lines eq_refl). reflexivity.
    + repeat split; auto. discriminate.
  - intros auth_bytes tag. unfold xoauth2_exchange, _read_final_auth_response.
    assert (Hcount : forall evs, length evs <= 10 -> readline_count evs <= 10).
    { intros evs H. unfold readline_count. etransitivity; [apply List.filter_length_le | exact H]. }
    assert (Hfew : forall evs, length evs <= 3 -> readline_count evs <= 11).
    { intros evs H. unfold readline_count. etransitivity; [apply List.filter_length_le | lia]. }
    apply runs_bind, runs_call. intros r w _.
    destruct r as [v|e]; cbn [reply_result]; [|apply Hfew; simpl; lia].
    apply runs_bind, runs_read_imap_response. intros r1 w1.
    destruct (match r1 with Ret v0 => response_text v0 | Throw e => Raise e end)
      as [text|e]; [|apply Hfew; simpl; lia].
    destruct (negb _).
    { apply runs_raise. apply Hfew. simpl. lia. }
    apply runs_bind, runs_call. intros r2 w2 _.
    destruct r2 as [v2|e2]; cbn [reply_result]; [|apply Hfew; simpl; lia].
    apply runs_bind. eapply runs_mono; [apply read_final_loop_spec|].
    intros r3 s3 evs3 (Hlen & _). specialize (Hcount evs3 Hlen).
    assert (Hfin : readline_count
                     ([Call (Send ((py_str tag ++ " AUTHENTICATE XOAUTH2") ++ CRLF)) (Ret v)]
                      ++ [Call Readline r1]
                      ++ [Call (Send (auth_bytes ++ CRLF)) (Ret v2)] ++ evs3) <= 11).
    { unfold readline_count in *. simpl. lia. }
    destruct r3 as [lines|e3].
    + apply runs_ret. rewrite app_nil_r. exact Hfin.
    + exact Hfin.
Qed.

End ReadFacts.

(** ** The header decoder *)

Section DecoderFacts.

Context {PL : PyLib}.

Lemma gives_up_not_ok (val enc text : string) :
  gives_up val enc -> bytes_decode enc Ignore val = Ok text -> False.
Proof. intros [e [He _]] Hok. rewrite He in Hok. discriminate Hok. Qed.

Lemma gives_up_not_other (val enc : string) (e : exn) :
  gives_up val enc -> bytes_decode enc Ignore val = Raise e -> is_decode_error e = true.
Proof. intros [e' [He' Hd]] He. rewrite He' in He. injection He as <-. exact Hd. Qed.

(** An occurrence of a candidate that does not give up, after candidates
    that all do, is the first one of the list. *)
Lemma first_willing_cons (val enc : string) (rest pre post : list string) (enc' : string) :
  (enc :: rest = pre ++ enc' :: post)%list ->
  Forall (gives_up val) pre ->
  (pre = [] /\ enc' = enc /\ post = rest) \/
  (gives_up val enc /\
   exists pre', pre = enc :: pre' /\ (rest = pre' ++ enc' :: post)%list /\
                Forall (gives_up val) pre').
Proof.
  intros Heq Hpre. destruct pre as [|p pre'].
  - injection Heq as <- <-. left. auto.
  - injection Heq as <- ->. right. inversion Hpre as [|? ? Hp Hpre']; subst.
    split; [exact Hp|]. exists pre'. auto.
Qed.

Lemma decode_fallback_loop_yields (val : string) (candidates : list string) (text : string) :
  decode_fallback_loop val candidates = Ok text <-> chain_yields val candidates text.
Proof.
  unfold chain_yields. induction candidates as [|enc rest IH]; cbn [decode_fallback_loop].
  - split.
    + intros H. right. split; [constructor | exact H].
    + intros [(pre & enc & post & Heq & _) | [_ H]]; [|exact H].
      destruct pre; discriminate Heq.
  - unfold _try_decode_with_encoding, catch_result, mbind, result_bind, mret, result_ret.
    destruct (bytes_decode enc Ignore val) as [t|e] eqn:Hdec.
    + split.
      * intros H. injection H as ->. left. exists [], enc, rest. auto.
      * intros [(pre & enc' & post & Heq & Hpre & Hok) | [Hall _]].
        -- destruct (first_willing_cons _ _ _ _ _ _ Heq Hpre) as [(_ & -> & _) | [Hg _]].
           ++ rewrite Hdec in Hok. exact Hok.
           ++ destruct (gives_up_not_ok _ _ _ Hg Hdec).
        -- inversion Hall as [|? ? Hg _]; subst. destruct (gives_up_not_ok _ _ _ Hg Hdec).
    + destruct (is_decode_error e) eqn:He.
      * assert (Hg : gives_up val enc) by (exists e; auto).
        rewrite IH. split.
        -- intros [(pre & enc' & post & -> & Hpre & Hok) | [Hall Hok]].
           ++ left. exists (enc :: pre), enc', post. auto.
           ++ right. auto.
        -- intros [(pre & enc' & post & Heq & Hpre & Hok) | [Hall Hok]].
           ++ destruct (first_willing_cons _ _ _ _ _ _ Heq Hpre)
                as [(_ & -> & _) | [_ (pre' & _ & -> & Hpre')]].
              ** rewrite Hdec in Hok. discriminate Hok.
              ** left. exists pre', enc', post. auto.
           ++ right. inversion Hall; subst. auto.
      * split; [discriminate|].
        intros [(pre & enc' & post & Heq & Hpre & Hok) | [Hall _]].
        -- destruct (first_willing_cons _ _ _ _ _ _ Heq Hpre) as [(_ & -> & _) | [Hg _]].
           ++ rewrite Hdec in Hok. discriminate Hok.
           ++ rewrite (gives_up_not_other _ _ _ Hg Hdec) in He. discriminate He.
        -- inversion Hall as [|? ? Hg _]; subst.
           rewrite (gives_up_not_other _ _ _ Hg Hdec) in He. discriminate He.
Qed.

Lemma decode_fallback_loop_breaks (val : string) (candidates : list string) :
  (exists e, decode_fallback_loop val candidates = Raise e) <-> chain_breaks val candidates.
Proof.
  unfold chain_breaks. induction candidates as [|enc rest IH]; cbn [decode_fallback_loop].
  - split.
    + intros H. right. split; [constructor | exact H].
    + intros [(pre & enc & post & e & Heq & _) | [_ H]]; [|exact H].
      destruct pre; discriminate Heq.
  - unfold _try_decode_with_encoding, catch_result, mbind, result_bind, mret, result_ret.
    destruct (bytes_decode enc Ignore val) as [t|e] eqn:Hdec.
    + split.
      * intros [e He]. discriminate He.
      * intros [(pre & enc' & post & e & Heq & Hpre & Hr & _) | [Hall _]].
        -- destruct (first_willing_cons _ _ _ _ _ _ Heq Hpre) as [(_ & -> & _) | [Hg _]].
           ++ rewrite Hdec in Hr. discriminate Hr.
           ++ destruct (gives_up_not_ok _ _ _ Hg Hdec).
        -- inversion Hall as [|? ? Hg _]; subst. destruct (gives_up_not_ok _ _ _ Hg Hdec).
    + destruct (is_decode_error e) eqn:He.
      * assert (Hg : gives_up val enc) by (exists e; auto).
        rewrite IH. split.
        -- intros [(pre & enc' & post & e' & -> & Hpre & Hr) | [Hall Hr]].
           ++ left. exists (enc :: pre), enc', post, e'. auto.
           ++ right. auto.
        -- intros [(pre & enc' & post & e' & Heq & Hpre & Hr & He') | [Hall Hr]].
           ++ destruct (first_willing_cons _ _ _ _ _ _ Heq Hpre)
                as [(_ & -> & _) | [_ (pre' & _ & -> & Hpre')]].
              ** rewrite Hdec in Hr. injection Hr as <-. rewrite He in He'. discriminate He'.
              ** left. exists pre', enc', post, e'. auto.
           ++ right. inversion Hall; subst. auto.
      * split.
        -- intros _. left. exists [], enc, rest, e. auto.
        -- intros _. exists e. reflexivity.
Qed.

Lemma usable_encoding_candidates (encoding : option string) :
  chain_candidates encoding =
  (match usable_encoding encoding with Some enc => [enc] | None => [] end
   ++ fallback_encodings)%list.
Proof.
  unfold chain_candidates, usable_encoding, is_placeholder, placeholder_encodings.
  destruct encoding as [enc|]; [|reflexivity].
  destruct (String.eqb enc ""); [reflexivity|]. simpl.
  rewrite orb_false_r. destruct (_ || _); reflexivity.
Qed.

(** The declared encoding, when usable, is one more turn of the loop. *)
Lemma decode_bytes_with_fallbacks_loop (val : string) (encoding : option string) :
  _decode_bytes_with_fallbacks val encoding =
  decode_fallback_loop val (chain_candidates encoding).
Proof.
  unfold _decode_bytes_with_fallbacks.
  rewrite usable_encoding_candidates.
  destruct (usable_encoding encoding) as [enc|]; [|reflexivity].
  cbn [app decode_fallback_loop].
  unfold mbind, result_bind, mret, result_ret.
  destruct (_try_decode_with_encoding val enc) as [[text|]|e]; reflexivity.
Qed.

Lemma decode_header_safely_first (header_val : option string)
  (fragment : payload * option string) (rest : list (payload * option string)) :
  truthy header_val = true ->
  decode_header (str_of_header header_val) = Ok (fragment :: rest) ->
  _decode_header_safely header_val =
  Ok (match decode_fragment fragment with
      | Ok text => text
      | Raise _ => str_of_header header_val
      end).
Proof.
  intros Ht Hd. unfold _decode_header_safely, catch_result, mbind, result_bind.
  rewrite Ht, Hd. simpl. destruct fragment as [[b|s] encoding]; simpl; [|reflexivity].
  destruct (_decode_bytes_with_fallbacks b encoding); reflexivity.
Qed.

(** C6, amended: the decoder gives the empty string for an absent header
    and never raises, whatever the header and whatever the codecs do; and
    when the first decoded fragment is a byte payload, its result is
    [text] exactly when the chain yields [text], or the chain breaks and
    [text] is the raw header.  The chain goes through the declared
    encoding unless missing or a placeholder, then UTF-8, Latin-1 and
    ISO-8859-1, in this order, and every attempt is lenient: one that drops
    invalid bytes has decoded, and only an unknown codec or a decoding
    error hands over to the next. *)
Theorem header_decoder_never_raises (header_val : option string) :
  (truthy header_val = false -> _decode_header_safely header_val = Ok "") /\
  (exists text, _decode_header_safely header_val = Ok text) /\
  (forall val encoding rest text,
     truthy header_val = true ->
     decode_header (str_of_header header_val) = Ok ((PBytes val, encoding) :: rest) ->
     (_decode_header_safely header_val = Ok text <->
      chain_yields val (chain_candidates encoding) text \/
      (chain_breaks val (chain_candidates encoding) /\ text = str_of_header header_val))).
Proof.
  split; [|split].
  - intros Hf. unfold _decode_header_safely. rewrite Hf. reflexivity.
  - unfold _decode_header_safely, catch_result.
    destruct (negb (truthy header_val)); [eauto|].
    destruct (_ ≫= _); eauto.
  - intros val encoding rest text Ht Hd.
    rewrite (decode_header_safely_first _ _ _ Ht Hd). cbn [decode_fragment].
    rewrite decode_bytes_with_fallbacks_loop.
    rewrite <- decode_fallback_loop_yields, <- decode_fallback_loop_breaks.
    destruct (decode_fallback_loop val (chain_candidates encoding)) as [t|e].
    + split.
      * intros H. left. exact H.
      * intros [H | [[e He] _]]; [exact H | discriminate He].
    + split.
      * intros H. injection H as <-. right. split; [exists e|]; reflexivity.
      * intros [H | [_ ->]]; [discriminate H | reflexivity].
Qed.

(** C10, amended: when [decode_header] yields several fragments the
    decoder's result is the decoding of the first one alone, the same
    whatever the fragments after it are; and when decoding the first one
    raises, it is the raw header, as the decoder was given it. *)
Theorem only_first_fragment_is_decoded (header_val : option string)
  (first second : payload * option string) (others : list (payload * option string)) :
  truthy header_val = true ->
  decode_header (str_of_header header_val) = Ok (first :: second :: others) ->
  _decode_header_safely header_val =
  Ok (match decode_fragment first with
      | Ok text => text
      | Raise _ => str_of_header header_val
      end).
Proof. intros Ht Hd. exact (decode_header_safely_first _ _ _ Ht Hd). Qed.

End DecoderFacts.

(** A subject mixing plain text and an encoded word loses the encoded
    word. *)
Lemma only_first_fragment_is_decoded_witness :
  @_decode_header_safely example_lib (Some mixed_header) = Ok "Re: ".
Proof.
  refine (@only_first_fragment_is_decoded example_lib (Some mixed_header)
            (PBytes "Re: ", None) (PBytes ("caf" ++ chr 195 ++ chr 169), Some "utf-8") [] _ _).
  - reflexivity.
  - reflexivity.
Defined.

(** A byte invalid in the declared encoding is dropped, not raised. *)
Example broken_header_decodes : @_decode_header_safely example_lib (Some broken_header) = Ok "".
Proof. reflexivity. Qed.

(** The claim as the specification words it fails, twice.  A byte invalid in
    the declared UTF-8 does not make the attempt fail: the code decodes
    leniently from the first attempt on and gives the empty string, where
    the chain of attempts goes on to Latin-1 and gives the character 255.
    And a codec that fails with an error the code does not await, as the
    IDNA codec does when asked to decode leniently, ends the chain: the
    code gives the raw header, where the chain of attempts gives the
    decoded text. *)
Lemma lenient_attempts_never_fall_back :
  @decode_header example_lib broken_header = Ok [(PBytes (chr 255), Some "utf-8")] /\
  @_decode_header_safely example_lib (Some broken_header) = Ok "" /\
  @attempt_chain example_lib (chr 255) (Some "utf-8") = Ok (chr 255) /\
  @decode_header idna_lib idna_header = Ok [(PBytes "abc", Some "idna")] /\
  @_decode_header_safely idna_lib (Some idna_header) = Ok idna_header /\
  @attempt_chain idna_lib "abc" (Some "idna") = Ok "abc".
Proof. vm_compute. repeat split; reflexivity. Qed.

(** The claim as the specification words it fails: when the IDNA codec
    fails on the first fragment, the result is the whole raw header, the
    source of the second fragment included, and not the decoding of the
    first fragment, which the strict codec gives as [abc]. *)
Lemma failed_first_fragment_keeps_all :
  @decode_header idna_lib idna_mixed_header =
    Ok [(PBytes "abc", Some "idna"); (PBytes ("caf" ++ chr 195 ++ chr 169), Some "utf-8")] /\
  @_decode_header_safely idna_lib (Some idna_mixed_header) = Ok idna_mixed_header /\
  contains "caf=C3=A9" idna_mixed_header = true /\
  @bytes_decode idna_lib "idna" Strict "abc" = Ok "abc".
Proof. vm_compute. repeat split; reflexivity. Qed.

(** ** Search by sender *)

Lemma search_commands_app (a b : list event) :
  search_commands (a ++ b) = (search_commands a ++ search_commands b)%list.
Proof.
  induction a as [|ev a IH]; simpl; [reflexivity|].
  destruct ev as [[] r|line]; simpl; rewrite ?IH; reflexivity.
Qed.

Lemma search_commands_quiet (evs : list event) :
  Forall quiet evs -> search_commands evs = [].
Proof.
  induction 1 as [|ev evs Hq _ IH]; simpl; [reflexivity|].
  destruct ev as [[] r|line]; simpl in *; auto; contradiction.
Qed.

Lemma only_runs {W A : Type} (P : event -> Prop) (m : M (io W) A) (s : io W) :
  only P m ->
  runs m s (fun _ s' evs => Forall P evs /\ (connection s = true -> connection s' = true)).
Proof. intros H. apply H. Qed.

Section SearchFacts.

Context {W : Type} {SV : Server W} {PL : PyLib}.

Lemma uid_search_with_charset_spec (self : OutlookService) (criteria : string)
  (charset : option string) (s : io W) :
  runs (_uid_search_with_charset self criteria charset) s (fun r _ evs =>
    searched_once charset criteria r evs).
Proof.
  unfold _uid_search_with_charset.
  assert (Hlast : forall (s1 : io W),
            runs (conn_call (UidSearch (wire_charset charset) criteria)) s1 (fun r _ evs =>
              searched_once charset criteria r evs)).
  { intros s1. apply runs_conn_call; intros _.
    - apply runs_call. intros rp w _. right. exists [], rp. auto.
    - left. split; [constructor | eauto]. }
  assert (Hsame : (match charset with
                   | Some cs => if String.eqb cs "" then conn_call (UidSearch None criteria)
                                else conn_call (UidSearch (Some cs) criteria)
                   | None => conn_call (UidSearch None criteria)
                   end : M (io W) value) = conn_call (UidSearch (wire_charset charset) criteria)).
  { destruct charset as [cs|]; simpl; [destruct (String.eqb cs "")|]; reflexivity. }
  rewrite Hsame. clear Hsame.
  apply runs_bind. eapply runs_mono; [apply (quiet_is_connection_alive s)|].
  intros [alive|e] s1 evs1 [Hq1 _].
  - assert (Hre : runs (if alive then mret tt else _reconnect self) s1
              (fun _ _ evs => Forall quiet evs)).
    { destruct alive; [apply runs_ret; constructor|].
      eapply runs_mono; [apply (quiet_reconnect self)|]. intros ? ? ? [Hq _]. exact Hq. }
    apply runs_bind. eapply runs_mono; [apply Hre|]. intros [[]|e] s2 evs2 Hq2.
    + eapply runs_mono; [apply Hlast|]. intros r s3 evs3 [[Hq3 He]|[pre [rp [-> [Hq3 Hr]]]]].
      * left. split; [|exact He]. repeat (apply Forall_app; split); auto.
      * right. exists ((evs1 ++ evs2) ++ pre)%list, rp. split; [|split].
        -- rewrite !app_assoc. reflexivity.
        -- repeat (apply Forall_app; split); auto.
        -- exact Hr.
    + left. split; [apply Forall_app; auto | eauto].
  - left. split; [exact Hq1 | eauto].
Qed.

Lemma search_attempt_spec (self : OutlookService) (criteria : string)
  (charset : option string) (s : io W) :
  runs (search_attempt self criteria charset) s (fun r _ evs =>
    attempted charset criteria r evs).
Proof.
  unfold search_attempt. apply runs_bind.
  eapply runs_mono; [apply uid_search_with_charset_spec|].
  intros r s1 evs [[Hq [e ->]]|[pre [rp [-> [Hq ->]]]]].
  - left. eauto.
  - assert (Hpost : forall (r' : result (list string)), r' = search_outcome rp ->
              attempted charset criteria r'
                (pre ++ [Call (UidSearch (wire_charset charset) criteria) rp])).
    { intros r' ->. right. exists pre, rp. auto. }
    assert (Hdone : forall (m : M (io W) (list string)) (r' : result (list string)),
              (forall s2, m s2 = (r', s2)) -> r' = search_outcome rp ->
              runs m s1 (fun r'' _ evs2 =>
                attempted charset criteria r''
                  ((pre ++ [Call (UidSearch (wire_charset charset) criteria) rp]) ++ evs2))).
    { intros m r' Hm Hr'. exists []. rewrite Hm. simpl. rewrite !app_nil_r.
      split; [reflexivity | apply Hpost, Hr']. }
    destruct rp as [v|e]; cbn [reply_result]; [|apply Hpost; reflexivity].
    destruct v as [| | |typ data]; unfold unpack.
    1-3: apply runs_bind, runs_raise; rewrite app_nil_r; apply Hpost; reflexivity.
    apply runs_bind, runs_ret.
    destruct (String.eqb typ "OK") eqn:Hok; cbn [negb].
    + unfold uids_of_data.
      destruct data as [|[|b|b1 b2] data]; [| |destruct (String.eqb b "") eqn:Hb|];
        (eapply Hdone;
         [intros; reflexivity | cbn [search_outcome]; rewrite Hok, ?Hb; reflexivity]).
    + eapply Hdone; [intros; reflexivity | cbn [search_outcome]; rewrite Hok; reflexivity].
Qed.

Lemma rejected_outcome (rp : reply) :
  rejected rp -> exists e, search_outcome rp = Raise e /\ is_transport e = true.
Proof.
  destruct rp as [[| | |typ data]|e]; simpl; try contradiction.
  - intros H. apply String.eqb_neq in H. rewrite H. eauto.
  - intros H. eauto.
Qed.

End SearchFacts.

(** A server that rejects the charset and answers the plain search. *)
Example charset_rejected_then_found :
  let server : Server unit :=
    stateless (fun c =>
      match c with
      | UidSearch (Some _) _ => Ret (VResp "NO" [IBytes "[BADCHARSET] not supported"])
      | UidSearch None _ => ok_resp [IBytes "10 11"]
      | _ => ok_resp [INone]
      end) in
  let run := @_search_sender_on_server unit server example_lib example_service "Netflix"
               (start tt true) in
  run.1 = Ok ["10"; "11"] /\
  search_commands (trace run.2) =
  [UidSearch (Some "UTF-8") (search_criteria "Netflix");
   UidSearch None (search_criteria "Netflix")].
Proof. vm_compute. split; reflexivity. Qed.

(** ** A failed subject fetch *)

Section FetchFacts.

Context {W : Type} {SV : Server W} {PL : PyLib}.

Lemma fetch_error_gives_placeholder (uid : string) (s : io W) (e : exn) (w : W) :
  connection s = true ->
  serve (UidFetch uid subject_parts) (world s) = (Throw e, w) ->
  is_transport e = true ->
  _fetch_email_subject uid s =
  (Ok placeholder_subject,
   IO w true (trace s ++ [Call (UidFetch uid subject_parts) (Throw e)])).
Proof.
  intros Hc Hs He. unfold _fetch_email_subject. rewrite catch_eq, bind_eq.
  unfold conn_call, call. rewrite Hc, Hs, He. reflexivity.
Qed.

(** C7, as the code has it: when the FETCH of a subject raises a transport
    or protocol error, [_fetch_email_subject] absorbs it; the record is
    added with the placeholder subject and the loop goes on with the next
    UID, from a state where the only new call is that FETCH: no liveness
    check is made and nothing is propagated, whether the connection is dead
    or not. *)
Theorem fetch_error_keeps_record (st : @search_state W) (uid_bytes uid : string)
  (rest : list string) (sender_name : string) (results : list MessageRecord)
  (e : exn) (w : W) :
  bytes_decode "utf-8" Strict uid_bytes = Ok uid ->
  uid ∉ total_found_uids st ->
  connection (sio st) = true ->
  serve (UidFetch uid subject_parts) (world (sio st)) = (Throw e, w) ->
  is_transport e = true ->
  process_loop (uid_bytes :: rest) sender_name results st =
  process_loop rest sender_name
    (results ++ [{| id := uid; sender := sender_name; subject := placeholder_subject |}])
    (SearchState
       (IO w true (trace (sio st) ++ [Call (UidFetch uid subject_parts) (Throw e)]))
       ({[ uid ]} ∪ total_found_uids st)).
Proof.
  intros Hd Hnew Hc Hs He. cbn [process_loop]. rewrite bind_eq, catch_eq.
  unfold process_one. rewrite bind_eq. unfold lift_result at 1. rewrite Hd.
  rewrite bind_eq. unfold get_found at 1.
  rewrite bool_decide_eq_false_2 by exact Hnew.
  rewrite bind_eq. unfold add_found at 1. rewrite bind_eq. unfold lift_io at 1.
  cbn [sio total_found_uids].
  rewrite (fetch_error_gives_placeholder uid (sio st) e w Hc Hs He).
  reflexivity.
Qed.

End FetchFacts.

(** On a dead connection the first UID's record is kept and the second
    UID is processed the same way. *)
Lemma fetch_error_keeps_record_witness :
  @process_loop unit dead_server example_lib ["5"; "6"] "Netflix" []
    (SearchState (start tt true) ∅) =
  @process_loop unit dead_server example_lib ["6"] "Netflix" [dead_record "5"]
    (SearchState (IO tt true [dead_fetch "5"]) ({[ "5" ]} ∪ ∅)).
Proof.
  apply (@fetch_error_keeps_record unit dead_server example_lib
           (SearchState (start tt true) ∅) "5" "5" ["6"] "Netflix" [] broken_pipe tt).
  - reflexivity.
  - apply not_elem_of_empty.
  - reflexivity.
  - reflexivity.
  - reflexivity.
Defined.

(** The claim as the specification words it fails on a dead connection:
    the FETCH and the NOOP probe would both raise, yet the run ends
    normally with both records, and no probe was ever sent. *)
Lemma dead_connection_fetch_is_swallowed :
  let run :=
    @_process_email_ids unit dead_server example_lib ["5"; "6"] "Netflix"
      (SearchState (start tt true) ∅) in
  @serve unit dead_server (UidFetch "5" subject_parts) tt = (Throw broken_pipe, tt) /\
  @serve unit dead_server Noop tt = (Throw broken_pipe, tt) /\
  is_transport broken_pipe = true /\
  run.1 = Ok [dead_record "5"; dead_record "6"] /\
  trace (sio run.2) = [dead_fetch "5"; dead_fetch "6"].
Proof. vm_compute. repeat split; reflexivity. Qed.

(** ** Batches *)


Lemma range_from_concat (ids : list string) (step fuel k : nat) :
  0 < step -> length ids - k <= fuel ->
  concat (map (fun j => slice ids j step) (range_from fuel k (length ids) step)) = skipn k ids.
Proof.
  intros Hstep. revert k. induction fuel as [|fuel IH]; intros k Hfuel; simpl.
  - symmetry. apply skipn_all2. lia.
  - destruct (Nat.ltb_spec k (length ids)) as [Hlt|Hge].
    + simpl. rewrite IH by lia. unfold slice.
      replace (k + step) with (step + k) by lia.
      rewrite <- (skipn_skipn step k ids). apply firstn_skipn.
    + symmetry. apply skipn_all2. lia.
Qed.


Lemma batches_concat (ids : list string) (batch_size : nat) :
  0 < batch_size -> concat (map snd (batches ids batch_size)) = ids.
Proof.
  intros H. unfold batches, py_range. rewrite map_map. simpl.
  rewrite range_from_concat by lia. reflexivity.
Qed.



(** ** Flagging for deletion *)

Lemma store_commands_app (a b : list event) :
  store_commands (a ++ b) = (store_commands a ++ store_commands b)%list.
Proof.
  induction a as [|ev a IH]; simpl; [reflexivity|].
  destruct ev as [[] r|line]; simpl; rewrite ?IH; reflexivity.
Qed.

Lemma store_commands_quiet (evs : list event) :
  Forall quiet evs -> store_commands evs = [].
Proof.
  induction 1 as [|ev evs Hq _ IH]; simpl; [reflexivity|].
  destruct ev as [[] r|line]; simpl in *; auto; contradiction.
Qed.

Section DeleteFacts.

Context {W : Type} {SV : Server W} {PL : PyLib}.

Lemma anything_retry (self : OutlookService) (uid : string) (e : exn) :
  only (W := W) anything
    (print ("  [WARN] Error deleting UID " ++ uid ++ ": " ++ exn_msg e);;
     catch (_retry_delete_single_uid self uid)
       (fun retry_err =>
          print ("  [ERROR] Failed to delete UID " ++ uid ++ " after reconnect: "
                 ++ exn_msg retry_err))).
Proof.
  unfold _retry_delete_single_uid.
  assert (Hre : only (W := W) anything (_reconnect self)).
  { eapply only_mono; [|apply quiet_reconnect]. intros; exact I. }
  only_auto.
Qed.

End DeleteFacts.

(** On a server that grants everything each UID gets its one store, batch
    after batch, and no deletion error is logged. *)
Example healthy_run_flags_each_uid_once :
  let run :=
    @delete_emails unit obliging_server example_lib example_service ["10"; "11"; "12"] 2
      (start tt true) in
  run.1 = Ok tt /\
  existsb is_deletion_error (trace run.2) = false /\
  store_commands (trace run.2) = map flag_command ["10"; "11"; "12"].
Proof. vm_compute. repeat split; reflexivity. Qed.

(** The same from a service that holds no connection yet: the first check
    reconnects, and each UID gets its one store. *)
Example run_without_handle_flags_each_uid_once :
  let run :=
    @delete_emails unit obliging_server example_lib example_service ["10"; "11"; "12"] 2
      (start tt false) in
  run.1 = Ok tt /\
  existsb is_deletion_error (trace run.2) = false /\
  store_commands (trace run.2) = map flag_command ["10"; "11"; "12"].
Proof. vm_compute. repeat split; reflexivity. Qed.

(** When the connection is lost for good between two UIDs, UID 7 is
    flagged, then the probe before UID 8 fails and so do both
    reconnections: the deletion of UID 8 is logged as failed, no store was
    sent for it, and the pass ends normally. *)
Example lost_connection_skips_uid :
  let run :=
    @delete_emails _ scripted example_lib example_service ["7"; "8"] 100
      (start dropping_script true) in
  run.1 = Ok tt /\
  existsb is_failed_store (trace run.2) = false /\
  existsb is_deletion_error (trace run.2) = true /\
  store_commands (trace run.2) = [flag_command "7"].
Proof. vm_compute. repeat split; reflexivity. Qed.


(** ** Deduplicated search results *)

Lemma searched_uids_app (a b : list event) :
  searched_uids (a ++ b) = (searched_uids a ++ searched_uids b)%list.
Proof.
  induction a as [|ev a IH]; [reflexivity|].
  destruct ev as [c r|line]; [|exact IH].
  destruct c; try exact IH.
  destruct r as [[| | |typ [|[|d|d1 d2] data]]|e]; try exact IH.
  cbn [searched_uids app]. rewrite IH, <- app_assoc. reflexivity.
Qed.

Lemma stored_uids_app (a b : list event) :
  stored_uids (a ++ b) = (stored_uids a ++ stored_uids b)%list.
Proof.
  induction a as [|ev a IH]; [reflexivity|].
  destruct ev as [[] r|line]; simpl; rewrite ?IH; reflexivity.
Qed.

Lemma stored_uids_no_store (evs : list event) : Forall no_store evs -> stored_uids evs = [].
Proof.
  induction 1 as [|ev evs Hq _ IH]; simpl; [reflexivity|].
  destruct ev as [[] r|line]; simpl in *; auto; contradiction.
Qed.

Lemma quiet_no_store (ev : event) : quiet ev -> no_store ev.
Proof. destruct ev as [[] r|line]; simpl; auto. Qed.

Lemma quiet_no_search (ev : event) : quiet ev -> no_search ev.
Proof. destruct ev as [[] r|line]; simpl; auto. Qed.

Lemma Forall_quiet_no_store (evs : list event) : Forall quiet evs -> Forall no_store evs.
Proof. apply List.Forall_impl, quiet_no_store. Qed.

Section SearchResults.

Context {W : Type} {SV : Server W} {PL : PyLib}.

Lemma search_outcome_from_searches (pre : list event) (charset : option string)
  (criteria : string) (rp : reply) (uids : list string) :
  search_outcome rp = Ok uids ->
  from_searches uids (pre ++ [Call (UidSearch charset criteria) rp]).
Proof.
  intros H u Hu. rewrite searched_uids_app. apply in_or_app. right.
  destruct rp as [[| | |typ data]|e]; try discriminate. cbn [search_outcome] in H.
  destruct (String.eqb typ "OK") eqn:Hok; [|discriminate].
  destruct data as [|[|b|b1 b2] data]; try discriminate;
    try (injection H as <-; contradiction).
  injection H as <-. cbn [searched_uids]. rewrite Hok, app_nil_r.
  destruct (String.eqb b ""); [contradiction | exact Hu].
Qed.

Lemma attempted_searched (charset : option string) (criteria : string)
  (r : result (list string)) (evs : list event) :
  attempted charset criteria r evs -> searched r evs.
Proof.
  intros [[Hq [e ->]]|[pre [rp [-> [Hq ->]]]]].
  - split; [apply Forall_quiet_no_store, Hq | discriminate].
  - split.
    + apply Forall_app. split; [apply Forall_quiet_no_store, Hq|].
      repeat constructor.
    + intros uids H. eapply search_outcome_from_searches, H.
Qed.

Lemma from_searches_later (uids : list string) (a b : list event) :
  from_searches uids b -> from_searches uids (a ++ b).
Proof. intros H u Hu. rewrite searched_uids_app. apply in_or_app. right. auto. Qed.

Lemma from_searches_earlier (uids : list string) (a b : list event) :
  from_searches uids a -> from_searches uids (a ++ b).
Proof. intros H u Hu. rewrite searched_uids_app. apply in_or_app. left. auto. Qed.

Lemma search_sender_on_server_spec (self : OutlookService) (name : string) (s : io W) :
  runs (_search_sender_on_server self name) s (fun r _ evs => searched r evs).
Proof.
  unfold _search_sender_on_server. cbn [search_charsets].
  apply runs_catch. eapply runs_mono; [apply search_attempt_spec|].
  intros r1 s1 evs1 H1. apply attempted_searched in H1. destruct H1 as [Hn1 Hu1].
  destruct r1 as [uids|e]; [split; auto|].
  destruct (is_transport e).
  - apply runs_catch. eapply runs_mono; [apply search_attempt_spec|].
    intros r2 s2 evs2 H2. apply attempted_searched in H2. destruct H2 as [Hn2 Hu2].
    destruct r2 as [uids|e2].
    + split; [apply Forall_app; auto|]. intros uids' [= <-].
      apply from_searches_later. auto.
    + destruct (is_transport e2).
      * apply runs_bind, runs_print, runs_ret. split.
        -- repeat (apply Forall_app; split); auto; repeat constructor.
        -- intros uids [= <-] u [].
      * apply runs_raise. split; [|discriminate].
        repeat (apply Forall_app; split); auto.
  - apply runs_raise. split; [|discriminate]. apply Forall_app; auto.
Qed.

Lemma runs_lift_io {A : Type} (m : M (io W) A) (st : @search_state W)
  (Q : result A -> @search_state W -> list event -> Prop) :
  runs m (sio st) (fun r s' evs => Q r (SearchState s' (total_found_uids st)) evs) ->
  runs (lift_io m) st Q.
Proof.
  intros [evs [Ht HQ]]. exists evs. unfold lift_io.
  destruct (m (sio st)) as [r s']. simpl in *. auto.
Qed.

Lemma fresh_nil (before after : gset string) (uids_bytes : list string) :
  fresh [] before after uids_bytes.
Proof. split; [constructor | intros u []]. Qed.

Lemma process_one_spec (uid_bytes sender_name : string) (results : list MessageRecord)
  (st : @search_state W) :
  runs (process_one uid_bytes sender_name results) st
    (processed results st [uid_bytes]).
Proof.
  unfold process_one. apply runs_bind, runs_lift_result.
  destruct (bytes_decode "utf-8" Strict uid_bytes) as [uid|e] eqn:Hd.
  2:{ split; [constructor|]. split; [reflexivity | discriminate]. }
  apply runs_bind. exists []. cbn [get_found fst snd]. rewrite app_nil_r.
  split; [reflexivity|].
  destruct (bool_decide (uid ∈ total_found_uids st)) eqn:Hseen.
  - apply runs_ret. split; [constructor|]. split; [reflexivity|].
    intros results' [= <-]. exists []. rewrite app_nil_r. split; [reflexivity|].
    apply fresh_nil.
  - apply bool_decide_eq_false in Hseen.
    apply runs_bind. exists []. cbn [add_found fst snd]. rewrite app_nil_r.
    split; [reflexivity|].
    apply runs_bind, runs_lift_io. cbn [sio total_found_uids].
    eapply runs_mono; [apply (quiet_fetch_email_subject uid)|].
    intros r s' evs [Hq _]. cbn [app].
    assert (Hsub : total_found_uids st ⊆ {[uid]} ∪ total_found_uids st) by set_solver.
    destruct r as [subject|e]; [|split; [exact Hq|]; split; [exact Hsub | discriminate]].
    apply runs_ret. rewrite app_nil_r. split; [exact Hq|]. split; [exact Hsub|].
    intros results' [= <-]. eexists [_]. split; [reflexivity|]. split.
    + repeat constructor. simpl. intros H. inversion H.
    + intros u [<-|[]]. simpl. split; [exact Hseen|]. split; [set_solver|].
      exists uid_bytes. split; [left; reflexivity | exact Hd].
Qed.

Lemma process_error_spec (sender_name : string) (results : list MessageRecord) (e : exn)
  (st : @search_state W) :
  runs (process_error sender_name results e) st (processed results st []).
Proof.
  unfold process_error. apply runs_bind, runs_lift_io, runs_print.
  apply runs_bind, runs_catch, runs_bind, runs_lift_io.
  assert (Hnoop : only (W := W) quiet (conn_call Noop)) by only_auto.
  eapply runs_mono; [apply Hnoop|]. intros r s' evs [Hq _].
  assert (Hall : forall more, Forall quiet more ->
            Forall quiet ([Print ("  [WARN] Connection error processing email from '"
                                  ++ sender_name ++ "': " ++ exn_msg e)] ++ more)).
  { intros more Hm. constructor; [exact I | exact Hm]. }
  destruct r as [v|e'].
  - apply runs_ret, runs_ret. rewrite !app_nil_r.
    split; [apply Hall, Hq|]. split; [reflexivity|].
    intros results' [= <-]. exists []. rewrite app_nil_r. split; [reflexivity | apply fresh_nil].
  - destruct (is_transport e'); apply runs_raise; rewrite !app_nil_r;
      (split; [apply Hall, Hq|]; split; [reflexivity | discriminate]).
Qed.

Lemma fresh_app (new1 new2 : list MessageRecord) (before middle after : gset string)
  (uids1 uids2 uids : list string) :
  fresh new1 before middle uids1 -> fresh new2 middle after uids2 ->
  before ⊆ middle -> middle ⊆ after ->
  (forall ub, In ub uids1 -> In ub uids) -> (forall ub, In ub uids2 -> In ub uids) ->
  fresh (new1 ++ new2) before after uids.
Proof.
  intros [Hnd1 Hfirst] [Hnd2 Hsecond] Hbm Hma Hin1 Hin2. split.
  - rewrite map_app. apply NoDup_app. split; [exact Hnd1|]. split; [|exact Hnd2].
    intros u Hu1 Hu2. apply list_elem_of_In in Hu1, Hu2.
    destruct (Hfirst u Hu1) as (_ & Hm & _). destruct (Hsecond u Hu2) as (Hn & _).
    contradiction.
  - intros u Hu. rewrite map_app in Hu. apply in_app_or in Hu as [Hu|Hu].
    + destruct (Hfirst u Hu) as (Hb & Hm & ub & Hub & Hd).
      split; [exact Hb|]. split; [apply Hma, Hm|]. exists ub. auto.
    + destruct (Hsecond u Hu) as (Hm & Ha & ub & Hub & Hd).
      split; [intros Hb; apply Hm, Hbm, Hb|]. split; [exact Ha|]. exists ub. auto.
Qed.

Lemma process_loop_spec (uids_bytes : list string) (sender_name : string)
  (results : list MessageRecord) (st : @search_state W) :
  runs (process_loop uids_bytes sender_name results) st
    (processed results st uids_bytes).
Proof.
  revert results st. induction uids_bytes as [|uid_bytes rest IH]; intros results st.
  - cbn [process_loop]. apply runs_ret. split; [constructor|]. split; [reflexivity|].
    intros results' [= <-]. exists []. rewrite app_nil_r. split; [reflexivity | apply fresh_nil].
  - cbn [process_loop]. apply runs_bind.
    assert (Hstep : runs
              (catch (process_one uid_bytes sender_name results)
                 (fun e => if is_transport e then process_error sender_name results e
                           else raise e)) st
              (processed results st [uid_bytes])).
    { apply runs_catch. eapply runs_mono; [apply process_one_spec|].
      intros r st1 evs1 (Hq1 & Hs1 & Hr1). destruct r as [results1|e]; [split; auto|].
      destruct (is_transport e).
      - eapply runs_mono; [apply process_error_spec|].
        intros r st2 evs2 (Hq2 & Hs2 & Hr2).
        split; [apply Forall_app; auto|]. split; [set_solver|].
        intros results' Hr. destruct (Hr2 results' Hr) as [new [-> [_ Hnew]]].
        destruct new as [|rec new].
        + exists []. split; [reflexivity | apply fresh_nil].
        + destruct (Hnew (id rec) (or_introl eq_refl)) as (_ & _ & ub & [] & _).
      - apply runs_raise. rewrite app_nil_r. split; [exact Hq1|]. split; [exact Hs1|].
        discriminate. }
    eapply runs_mono; [apply Hstep|]. intros r st1 evs1 (Hq1 & Hs1 & Hr1).
    destruct r as [results1|e].
    2:{ split; [exact Hq1|]. split; [exact Hs1 | discriminate]. }
    destruct (Hr1 results1 eq_refl) as [new1 [-> Hnew1]].
    eapply runs_mono; [apply IH|]. intros r st2 evs2 (Hq2 & Hs2 & Hr2).
    split; [apply Forall_app; auto|]. split; [set_solver|].
    intros results' Hr. destruct (Hr2 results' Hr) as [new2 [-> Hnew2]].
    exists (new1 ++ new2)%list. split; [rewrite app_assoc; reflexivity|].
    eapply fresh_app; eauto.
    + intros ub [<-|[]]. left. reflexivity.
    + intros ub Hub. right. exact Hub.
Qed.

Lemma fresh_weaken (new : list MessageRecord) (before after : gset string)
  (uids uids' : list string) :
  fresh new before after uids -> (forall ub, In ub uids -> In ub uids') ->
  fresh new before after uids'.
Proof.
  intros [Hnd H] Hin. split; [exact Hnd|]. intros u Hu.
  destruct (H u Hu) as (Hb & Ha & ub & Hub & Hd). eauto 10.
Qed.

Lemma search_body_spec (self : OutlookService) (name : string)
  (results : list MessageRecord) (skip_line : string) (match_line : list string -> string)
  (st : @search_state W) :
  runs (uids_bytes ← lift_io (_search_sender_on_server self name);
        if is_nil uids_bytes then lift_io (print skip_line);; mret results
        else
          lift_io (print (match_line uids_bytes));;
          email_results ← _process_email_ids uids_bytes name;
          mret (results ++ email_results)%list) st
    (gathered results st).
Proof.
  apply runs_bind, runs_lift_io. eapply runs_mono; [apply search_sender_on_server_spec|].
  intros r s1 evs1 [Hn1 Hu1]. cbn [total_found_uids].
  destruct r as [uids_bytes|e].
  2:{ split; [exact Hn1|]. split; [reflexivity | discriminate]. }
  specialize (Hu1 uids_bytes eq_refl).
  destruct (is_nil uids_bytes).
  - apply runs_bind, runs_lift_io, runs_print, runs_ret. cbn [total_found_uids].
    split; [repeat (apply Forall_app; split); auto; repeat constructor|].
    split; [reflexivity|]. intros results' [= <-]. exists [].
    rewrite app_nil_r. split; [reflexivity | apply fresh_nil].
  - apply runs_bind, runs_lift_io, runs_print. apply runs_bind.
    unfold _process_email_ids. eapply runs_mono; [apply process_loop_spec|].
    intros r st2 evs2 (Hq2 & Hs2 & Hr2). cbn [total_found_uids sio] in *.
    assert (Hns : Forall no_store (evs1 ++ [Print (match_line uids_bytes)] ++ evs2)).
    { repeat (apply Forall_app; split); auto; [repeat constructor|].
      apply Forall_quiet_no_store, Hq2. }
    destruct r as [email_results|e].
    2:{ split; [exact Hns|]. split; [exact Hs2 | discriminate]. }
    apply runs_ret. rewrite !app_nil_r. split; [exact Hns|]. split; [exact Hs2|].
    intros results' [= <-]. destruct (Hr2 email_results eq_refl) as [new [Hnew Hfresh]].
    cbn [app] in Hnew. subst new. exists email_results. split; [reflexivity|].
    eapply fresh_weaken; [exact Hfresh|]. intros ub Hub.
    rewrite searched_uids_app. apply in_or_app. left. apply Hu1, Hub.
Qed.

End SearchResults.

Section SearchPhase.

Context {W : Type} {SV : Server W} {PL : PyLib}.

Lemma gathered_more (results new1 : list MessageRecord) (st st1 : @search_state W)
  (evs1 : list event) (r : result (list MessageRecord)) (st2 : @search_state W)
  (evs2 : list event) :
  Forall no_store evs1 ->
  total_found_uids st ⊆ total_found_uids st1 ->
  fresh new1 (total_found_uids st) (total_found_uids st1) (searched_uids evs1) ->
  gathered (results ++ new1) st1 r st2 evs2 ->
  gathered results st r st2 (evs1 ++ evs2).
Proof.
  intros Hn1 Hs1 Hf1 (Hn2 & Hs2 & Hr2).
  split; [apply Forall_app; auto|]. split; [set_solver|].
  intros results' Hr. destruct (Hr2 results' Hr) as [new2 [-> Hf2]].
  exists (new1 ++ new2)%list. split; [rewrite app_assoc; reflexivity|].
  eapply fresh_app; eauto; intros ub Hub; rewrite searched_uids_app; apply in_or_app; auto.
Qed.

Lemma search_one_spec (self : OutlookService) (name : string)
  (results : list MessageRecord) (st : @search_state W) :
  runs (search_one self name results) st (gathered results st).
Proof.
  apply (search_body_spec self name results
           ("  [SKIP] No emails found from '" ++ name ++ "'")
           (fun uids_bytes => "  [MATCH] Found " ++ str_of_nat (length uids_bytes)
                              ++ " emails from '" ++ name ++ "'")).
Qed.

Lemma search_retry_spec (self : OutlookService) (name : string)
  (results : list MessageRecord) (e : exn) (st : @search_state W) :
  runs (search_retry self name results e) st (gathered results st).
Proof.
  unfold search_retry. apply runs_bind, runs_lift_io, runs_print. cbn [total_found_uids].
  set (warn := Print _).
  set (st0 := SearchState _ _).
  assert (Hpre : forall r st' evs, gathered results st0 r st' evs ->
                   gathered results st r st' ([warn] ++ evs)).
  { intros r st' evs (Hn & Hs & Hr). split; [constructor; [exact I | exact Hn]|].
    split; [exact Hs|]. intros results' Hres. destruct (Hr results' Hres) as [new [-> Hf]].
    exists new. split; [reflexivity|]. eapply fresh_weaken; [exact Hf|].
    intros ub Hub. exact Hub. }
  eapply runs_mono; [|intros r st' evs H; apply Hpre, H].
  apply runs_catch, runs_bind, runs_lift_io. cbn [total_found_uids].
  eapply runs_mono; [apply (quiet_reconnect self)|]. intros r s1 evs1 [Hq1 _].
  apply Forall_quiet_no_store in Hq1 as Hn1.
  assert (Hkeep : forall (line : string) (st1 : @search_state W) evs,
            total_found_uids st0 ⊆ total_found_uids st1 -> Forall no_store evs ->
            runs (lift_io (print line);; mret results) st1
              (fun r' st' evs' => gathered results st0 r' st' (evs ++ evs'))).
  { intros line st1 evs Hst Hn. apply runs_bind, runs_lift_io, runs_print, runs_ret.
    cbn [total_found_uids]. split.
    - repeat (apply Forall_app; split); auto; repeat constructor.
    - split; [exact Hst|]. intros results' [= <-]. exists [].
      rewrite app_nil_r. split; [reflexivity | apply fresh_nil]. }
  destruct r as [[]|e1].
  - eapply runs_mono; [apply search_body_spec|].
    intros r st2 evs2 H2. cbn [total_found_uids] in H2.
    assert (Hg : gathered results st0 r st2 (evs1 ++ evs2)).
    { rewrite <- (app_nil_r results) in H2.
      eapply (gathered_more results [] st0 _ evs1);
        [exact Hn1 | | apply fresh_nil | exact H2].
      reflexivity. }
    destruct r as [results'|e2]; [exact Hg|].
    destruct Hg as (Hn & Hs & _). apply Hkeep; assumption.
  - apply Hkeep; [reflexivity | exact Hn1].
Qed.

Lemma senders_loop_spec (self : OutlookService) (sender_names : list string)
  (results : list MessageRecord) (st : @search_state W) :
  runs (senders_loop self sender_names results) st (gathered results st).
Proof.
  revert results st. induction sender_names as [|name rest IH]; intros results st.
  - cbn [senders_loop]. apply runs_ret. split; [constructor|]. split; [reflexivity|].
    intros results' [= <-]. exists []. rewrite app_nil_r. split; [reflexivity | apply fresh_nil].
  - cbn [senders_loop]. apply runs_bind.
    assert (Hstep : runs
              (catch (search_one self name results)
                 (fun e => if is_transport e then search_retry self name results e
                           else raise e)) st
              (gathered results st)).
    { apply runs_catch. eapply runs_mono; [apply search_one_spec|].
      intros r st1 evs1 H1. destruct r as [results1|e]; [exact H1|].
      destruct H1 as (Hn1 & Hs1 & _).
      destruct (is_transport e).
      - eapply runs_mono; [apply search_retry_spec|]. intros r st2 evs2 H2.
        rewrite <- (app_nil_r results) in H2.
        eapply gathered_more; eauto. apply fresh_nil.
      - apply runs_raise. rewrite app_nil_r. split; [exact Hn1|]. split; [exact Hs1|].
        discriminate. }
    eapply runs_mono; [apply Hstep|]. intros r st1 evs1 (Hn1 & Hs1 & Hr1).
    destruct r as [results1|e].
    2:{ split; [exact Hn1|]. split; [exact Hs1 | discriminate]. }
    destruct (Hr1 results1 eq_refl) as [new1 [-> Hf1]].
    eapply runs_mono; [apply IH|]. intros r st2 evs2 H2.
    eapply gathered_more; eauto.
Qed.

Lemma search_specific_senders_spec (self : OutlookService) (sender_names : list string)
  (s : io W) :
  runs (search_specific_senders self sender_names) s (fun r _ evs => deduplicated r evs).
Proof.
  set (m := (lift_io (print ("[*] Querying server for " ++ str_of_nat (length sender_names)
                             ++ " specific senders..."));;
             lift_io (print "");;
             senders_loop self sender_names []) : M (@search_state W) (list MessageRecord)).
  assert (H : runs m (SearchState s ∅) (fun r _ evs => deduplicated r evs)).
  { subst m. apply runs_bind, runs_lift_io, runs_print, runs_bind, runs_lift_io, runs_print.
    cbn [total_found_uids].
    eapply runs_mono; [apply senders_loop_spec|]. intros r st evs (Hn & _ & Hr).
    split; [repeat constructor; exact Hn|].
    intros emails Hres. destruct (Hr emails Hres) as [new [-> [Hnd Hf]]]. cbn [app].
    split; [exact Hnd|]. intros u Hu. destruct (Hf u Hu) as (_ & _ & ub & Hub & Hd).
    exists ub. split; [exact Hub | exact Hd]. }
  destruct H as [evs [Ht HQ]]. exists evs.
  unfold search_specific_senders. fold m.
  destruct (m (SearchState s ∅)) as [r st]. split; [exact Ht | exact HQ].
Qed.

End SearchPhase.

(** ** Deletion after search *)

Lemma quiet_deleting (ids : list string) (ev : event) : quiet ev -> deleting ids ev.
Proof. destruct ev as [[] r|line]; simpl; auto; contradiction. Qed.

Lemma deleting_no_search (ids : list string) (ev : event) : deleting ids ev -> no_search ev.
Proof. destruct ev as [[] r|line]; simpl; auto. Qed.

Lemma deleting_stored (ids : list string) (evs : list event) :
  Forall (deleting ids) evs -> forall u, In u (stored_uids evs) -> In u ids.
Proof.
  induction 1 as [|ev evs Hd _ IH]; intros u Hu; [contradiction|].
  destruct ev as [[] r|line]; simpl in *; auto. destruct Hu as [<-|Hu]; auto.
Qed.

Lemma in_slice {A : Type} (l : list A) (k n : nat) (x : A) : In x (slice l k n) -> In x l.
Proof.
  unfold slice. intros H. apply list_elem_of_In in H. apply list_elem_of_In.
  apply (subseteq_drop k l), (subseteq_take n _), H.
Qed.

Section DeletionFootprint.

Context {W : Type} {SV : Server W} {PL : PyLib}.

Lemma deleting_delete_one (self : OutlookService) (ids : list string) (uid : string) :
  In uid ids -> only (W := W) (deleting ids) (delete_one self uid).
Proof.
  intros Hin. unfold delete_one, _delete_single_uid, _retry_delete_single_uid.
  only_via (quiet_deleting ids).
Qed.

Lemma deleting_delete_each (self : OutlookService) (ids batch_uids : list string) :
  (forall u, In u batch_uids -> In u ids) ->
  only (W := W) (deleting ids) (delete_each self batch_uids).
Proof.
  induction batch_uids as [|uid rest IH]; intros Hin; cbn [delete_each].
  - only_auto.
  - apply only_bind; [apply deleting_delete_one, Hin; left; reflexivity|].
    intros _. apply IH. intros u Hu. apply Hin. right. exact Hu.
Qed.

Lemma deleting_delete_batches (self : OutlookService) (ids : list string)
  (bs : list (nat * list string)) :
  Forall (fun kb => forall u, In u (snd kb) -> In u ids) bs ->
  only (W := W) (deleting ids) (delete_batches self bs).
Proof.
  induction 1 as [|[k batch] rest Hb _ IH]; cbn [delete_batches].
  - only_auto.
  - apply only_bind; [|intros _; exact IH].
    unfold _process_deletion_batch.
    apply only_bind; [apply deleting_delete_each, Hb|]. intros _. only_auto.
Qed.

Lemma deleting_delete_emails (self : OutlookService) (email_ids : list string)
  (batch_size : nat) :
  only (W := W) (deleting email_ids) (delete_emails self email_ids batch_size).
Proof.
  unfold delete_emails.
  assert (Hb : only (W := W) (deleting email_ids)
                 (delete_batches self (batches email_ids batch_size))).
  { apply deleting_delete_batches. unfold batches. apply List.Forall_map.
    apply Forall_forall. intros k _ u Hu. simpl in Hu. eapply in_slice, Hu. }
  only_via (quiet_deleting email_ids).
Qed.

End DeletionFootprint.

Section CleanInbox.

Context {W : Type} {SV : Server W} {PL : PyLib}.

Lemma follow_quiet (evs : list event) : Forall quiet evs -> deletes_follow_searches evs.
Proof.
  intros Hq. exists evs, []. rewrite app_nil_r. split; [reflexivity|].
  split; [apply Forall_quiet_no_store, Hq|]. split; [constructor | intros u []].
Qed.

Lemma follow_prepend (pre evs : list event) :
  Forall quiet pre -> deletes_follow_searches evs -> deletes_follow_searches (pre ++ evs).
Proof.
  intros Hq (before & after & -> & Hb & Ha & Hu).
  exists (pre ++ before)%list, after. split; [apply app_assoc|].
  split; [apply Forall_app; split; [apply Forall_quiet_no_store, Hq | exact Hb]|].
  split; [exact Ha|]. intros u Hin. destruct (Hu u Hin) as (ub & Hub & Hd).
  exists ub. split; [|exact Hd]. rewrite searched_uids_app. apply in_or_app. auto.
Qed.

Lemma follow_append (evs post : list event) :
  Forall quiet post -> deletes_follow_searches evs -> deletes_follow_searches (evs ++ post).
Proof.
  intros Hq (before & after & -> & Hb & Ha & Hu).
  exists before, (after ++ post)%list. split; [symmetry; apply app_assoc|].
  split; [exact Hb|].
  split; [apply Forall_app; split; [exact Ha | eapply List.Forall_impl, Hq; apply quiet_no_search]|].
  intros u Hin. rewrite stored_uids_app in Hin. apply in_app_or in Hin as [Hin|Hin]; [auto|].
  rewrite stored_uids_no_store in Hin by apply Forall_quiet_no_store, Hq. contradiction.
Qed.

Lemma follow_base (ids : list string) (before after : list event) :
  Forall no_store before ->
  (forall u, In u ids ->
     exists ub, In ub (searched_uids before) /\ bytes_decode "utf-8" Strict ub = Ok u) ->
  Forall (deleting ids) after ->
  deletes_follow_searches (before ++ after).
Proof.
  intros Hb Hids Ha. exists before, after. split; [reflexivity|]. split; [exact Hb|].
  split; [eapply List.Forall_impl, Ha; apply deleting_no_search|].
  intros u Hu. apply Hids. eapply deleting_stored; eauto.
Qed.

Lemma deleting_after_search (service : OutlookService) (move_to_deleted : bool)
  (emails : list MessageRecord) :
  only (deleting (ids_to_delete emails)) (after_search service move_to_deleted emails).
Proof.
  unfold after_search.
  pose proof (deleting_delete_emails service (ids_to_delete emails) 100) as Hd.
  only_via (quiet_deleting (ids_to_delete emails)).
Qed.

Lemma clean_inbox_spec (user_email : string) (sender_names : list string)
  (access_token : string) (move_to_deleted : bool) (imap_server mailbox : string)
  (s : io W) :
  runs (clean_inbox user_email sender_names access_token move_to_deleted
          imap_server mailbox) s
    (fun _ _ evs => deletes_follow_searches evs).
Proof.
  unfold clean_inbox.
  set (service := {| server := imap_server; email := user_email; token := access_token;
                     mailbox := mailbox |}).
  apply runs_catch, runs_bind, runs_set_connection, runs_finally.
  set (s0 := IO (world s) false (trace s)).
  assert (Hbody : runs
            (connect service;;
             print ("[*] Senders containing: " ++ join ", " sender_names);;
             print "";;
             emails ← search_specific_senders service sender_names;
             after_search service move_to_deleted emails) s0
            (fun _ _ evs => deletes_follow_searches evs)).
  { apply runs_bind. eapply runs_mono; [apply (quiet_connect service)|].
    intros r s1 evs1 [Hq1 _]. destruct r as [[]|e]; [|apply follow_quiet, Hq1].
    apply runs_bind, runs_print, runs_bind, runs_print, runs_bind.
    eapply runs_mono; [apply search_specific_senders_spec|].
    intros r s2 evs2 [Hn2 Hr2].
    assert (Hclose : forall evs, deletes_follow_searches evs ->
              deletes_follow_searches
                (evs1 ++ [Print ("[*] Senders containing: " ++ join ", " sender_names)]
                      ++ [Print ""] ++ evs)).
    { intros evs H. apply follow_prepend; [exact Hq1|].
      apply follow_prepend; [repeat constructor|].
      apply follow_prepend; [repeat constructor | exact H]. }
    destruct r as [emails|e].
    - destruct (Hr2 emails eq_refl) as [_ Hfrom].
      eapply runs_mono; [apply deleting_after_search|].
      intros r s3 evs3 [Hd3 _]. apply Hclose.
      eapply follow_base; eauto.
    - apply Hclose. exists evs2, []. rewrite app_nil_r. split; [reflexivity|].
      split; [exact Hn2|]. split; [constructor | intros u []]. }
  eapply runs_mono; [apply Hbody|]. intros r s1 evs1 H1. cbn [app].
  eapply runs_mono; [apply quiet_close|]. intros r' s2 evs2 [Hq2 _].
  pose proof (follow_append _ _ Hq2 H1) as H2.
  assert (Hend : forall (res : result unit),
            match res with
            | Ok a => deletes_follow_searches (evs1 ++ evs2)
            | Raise e =>
                runs (print ("[ERROR] " ++ exn_msg e)) s2 (fun _ _ evs3 =>
                  deletes_follow_searches ((evs1 ++ evs2) ++ evs3))
            end).
  { intros [a|e]; [exact H2|]. apply runs_print.
    apply follow_append; [repeat constructor | exact H2]. }
  destruct r' as [[]|e']; [apply (Hend r) | apply (Hend (Raise e'))].
Qed.

(** C1: in the aggregated result of [search_specific_senders], over any
    list of sender names and whatever the server answers, no UID occurs in
    two records, and every UID decodes bytes returned by a search of the
    same run, which sends no store command; and a run of [clean_inbox]
    splits into a part without stores followed by a part without searches
    in which every UID stored was returned by a search of the first part. *)
Theorem search_results_are_deduplicated (self : OutlookService) (sender_names : list string)
  (user_email access_token imap_server mailbox : string) (move_to_deleted : bool)
  (s : io W) :
  runs (search_specific_senders self sender_names) s (fun r _ evs =>
    Forall no_store evs /\
    forall emails, r = Ok emails ->
      NoDup (map id emails) /\
      forall u, In u (map id emails) ->
        exists ub, In ub (searched_uids evs) /\ bytes_decode "utf-8" Strict ub = Ok u) /\
  runs (clean_inbox user_email sender_names access_token move_to_deleted
          imap_server mailbox) s
    (fun _ _ evs => deletes_follow_searches evs).
Proof.
  split.
  - apply search_specific_senders_spec.
  - apply clean_inbox_spec.
Qed.

End CleanInbox.

(** Two criteria that both match UID 42 give one record for it. *)
Example two_criteria_one_record :
  (@search_specific_senders unit always_42_server example_lib example_service
     ["Netflix"; "Bank"] (start tt true)).1 =
  Ok [{| id := "42"; sender := "Netflix"; subject := "hello" |}].
Proof. vm_compute. reflexivity. Qed.

(** ** The session handle and the discipline of the wire *)

Lemma opened_app (a b : list event) : opened (a ++ b)%list <-> opened a \/ opened b.
Proof. unfold opened. apply Exists_app. Qed.

Lemma opened_nil : ~ opened [].
Proof. unfold opened. intros H. inversion H. Qed.

Lemma opened_one (ev : event) : opened [ev] <-> is_open ev = true.
Proof.
  unfold opened. split.
  - intros H. inversion H as [? ? H1|? ? H1]; [exact H1 | inversion H1].
  - intros H. constructor. exact H.
Qed.

Section Obeys.

Context {S : Type} {TS : Traced S} {HS : Handled S}.
Variable P : event -> Prop.

Lemma obeys_ret {A : Type} (a : A) : obeys (S := S) P (mret a).
Proof.
  intros s. apply runs_ret. split; [constructor|]. intros [H|H]; [exact H|].
  destruct (opened_nil H).
Qed.

Lemma obeys_raise {A : Type} (e : exn) : obeys (S := S) (A := A) P (raise e).
Proof.
  intros s. apply runs_raise. split; [constructor|]. intros [H|H]; [exact H|].
  destruct (opened_nil H).
Qed.

Lemma obeys_lift_result {A : Type} (r : result A) : obeys (S := S) P (lift_result r).
Proof.
  intros s. apply runs_lift_result. split; [constructor|]. intros [H|H]; [exact H|].
  destruct (opened_nil H).
Qed.

Lemma obeys_seq (evs1 evs2 : list event) (s s1 s2 : S) :
  Forall P evs1 /\ (handle_of s = true \/ opened evs1 -> handle_of s1 = true) ->
  Forall P evs2 /\ (handle_of s1 = true \/ opened evs2 -> handle_of s2 = true) ->
  Forall P (evs1 ++ evs2)%list /\
  (handle_of s = true \/ opened (evs1 ++ evs2)%list -> handle_of s2 = true).
Proof.
  intros [HP1 Hh1] [HP2 Hh2]. split; [apply Forall_app; auto|].
  rewrite opened_app. intros [H|[H|H]]; auto.
Qed.

Lemma obeys_bind {A B : Type} (m : M S A) (k : A -> M S B) :
  obeys P m -> (forall a, obeys P (k a)) -> obeys P (m ≫= k).
Proof.
  intros Hm Hk s. apply runs_bind. eapply runs_mono; [apply Hm|].
  intros [a|e] s1 evs1 H1; [|exact H1].
  eapply runs_mono; [apply Hk|]. intros r s2 evs2 H2. exact (obeys_seq _ _ _ _ _ H1 H2).
Qed.

Lemma obeys_catch {A : Type} (m : M S A) (h : exn -> M S A) :
  obeys P m -> (forall e, obeys P (h e)) -> obeys P (catch m h).
Proof.
  intros Hm Hh s. apply runs_catch. eapply runs_mono; [apply Hm|].
  intros [a|e] s1 evs1 H1; [exact H1|].
  eapply runs_mono; [apply Hh|]. intros r s2 evs2 H2. exact (obeys_seq _ _ _ _ _ H1 H2).
Qed.

Lemma obeys_finally {A : Type} (m : M S A) (f : M S unit) :
  obeys P m -> obeys P f -> obeys P (finally m f).
Proof.
  intros Hm Hf s. apply runs_finally. eapply runs_mono; [apply Hm|].
  intros r s1 evs1 H1. eapply runs_mono; [apply Hf|].
  intros [u|e] s2 evs2 H2; exact (obeys_seq _ _ _ _ _ H1 H2).
Qed.

End Obeys.

Lemma obeys_mono {S A : Type} `{!Traced S} `{!Handled S} (P P' : event -> Prop) (m : M S A) :
  (forall ev, P ev -> P' ev) -> obeys P m -> obeys P' m.
Proof.
  intros H Hm s. eapply runs_mono; [apply Hm|]. intros r s' evs [HP Hc].
  split; [eapply List.Forall_impl; eauto | auto].
Qed.

Section ObeysIo.

Context {W : Type} {SV : Server W} {PL : PyLib}.
Variable P : event -> Prop.

Lemma obeys_call (c : command) :
  (forall r, P (Call c r)) -> (forall r, is_open (Call c r) = false) -> obeys P (call c).
Proof.
  intros HP Hno s. apply runs_call. intros r w _. split; [repeat constructor; auto|].
  intros [H|H]; [exact H|]. apply opened_one in H. rewrite Hno in H. discriminate.
Qed.

Lemma obeys_conn_call (c : command) :
  (forall r, P (Call c r)) -> (forall r, is_open (Call c r) = false) ->
  obeys P (conn_call c).
Proof.
  intros HP Hno s. apply runs_conn_call; intros Hc.
  - apply obeys_call; assumption.
  - split; [constructor|]. intros [H|H]; [exact H|]. destruct (opened_nil H).
Qed.

Lemma obeys_print (line : string) : P (Print line) -> obeys (S := io W) P (print line).
Proof.
  intros H s. apply runs_print. split; [repeat constructor; auto|].
  intros [H1|H1]; [exact H1|]. apply opened_one in H1. discriminate.
Qed.

Lemma obeys_get_connection : obeys (S := io W) P get_connection.
Proof.
  intros s. apply runs_get_connection. split; [constructor|].
  intros [H|H]; [exact H|]. destruct (opened_nil H).
Qed.

Lemma obeys_assign_state (st : string) :
  P (Call (SetState st) (Ret VNone)) -> obeys P (assign_state st).
Proof.
  intros H s. apply runs_assign_state. intros w. split; [repeat constructor; auto|].
  intros [H1|H1]; [exact H1|]. apply opened_one in H1. discriminate.
Qed.

(** Opening a connection and keeping its handle, in one step. *)
Lemma obeys_open {A : Type} (host : string) (k : M (io W) A) :
  (forall r, P (Call (IMAP4_SSL host) r)) -> obeys P k ->
  obeys P (call (IMAP4_SSL host);; set_connection true;; k).
Proof.
  intros HP Hk s. apply runs_bind, runs_call. intros r w _. destruct r as [v|e].
  - cbn [reply_result]. apply runs_bind, runs_set_connection.
    eapply runs_mono; [apply Hk|]. intros r s' evs [HPk Hh]. cbn [app].
    split; [constructor; auto|]. intros _. apply Hh. left. reflexivity.
  - cbn [reply_result]. split; [repeat constructor; auto|].
    intros [H|H]; [exact H|]. apply opened_one in H. discriminate.
Qed.

Lemma obeys_lift_io {A : Type} (m : M (io W) A) :
  obeys P m -> obeys (S := @search_state W) P (lift_io m).
Proof. intros Hm st. apply runs_lift_io. eapply runs_mono; [apply Hm|]. auto. Qed.

Lemma obeys_get_found : obeys (S := @search_state W) P get_found.
Proof.
  intros st. exists []. cbn [get_found fst snd]. rewrite app_nil_r.
  split; [reflexivity|]. split; [constructor|].
  intros [H|H]; [exact H|]. destruct (opened_nil H).
Qed.

Lemma obeys_add_found (uid : string) : obeys (S := @search_state W) P (add_found uid).
Proof.
  intros st. exists []. cbn [add_found fst snd]. rewrite app_nil_r.
  split; [reflexivity|]. split; [constructor|].
  intros [H|H]; [exact H|]. destruct (opened_nil H).
Qed.

End ObeysIo.

Ltac obeys_step :=
  lazymatch goal with
  | |- obeys _ (mbind _ (call (IMAP4_SSL _))) => apply obeys_open; [intros ?|]
  | |- obeys _ (mbind _ _) => apply obeys_bind; [| intros ?]
  | |- obeys _ (mret _) => apply obeys_ret
  | |- obeys _ (raise _) => apply obeys_raise
  | |- obeys _ (lift_result _) => apply obeys_lift_result
  | |- obeys _ (catch _ _) => apply obeys_catch; [| intros ?]
  | |- obeys _ (finally _ _) => apply obeys_finally
  | |- obeys _ (call _) => apply obeys_call; intros ?
  | |- obeys _ (conn_call _) => apply obeys_conn_call; intros ?
  | |- obeys _ (print _) => apply obeys_print
  | |- obeys _ get_connection => apply obeys_get_connection
  | |- obeys _ (assign_state _) => apply obeys_assign_state
  | |- obeys _ (lift_io _) => apply obeys_lift_io
  | |- obeys _ get_found => apply obeys_get_found
  | |- obeys _ (add_found _) => apply obeys_add_found
  | |- obeys _ (if ?b then _ else _) => destruct b
  | |- obeys _ (match ?x with _ => _ end) => destruct x
  end.

Create HintDb discipline.

Ltac obeys_side :=
  lazymatch goal with
  | |- obeys _ _ => fail
  | |- _ => first [ exact I | reflexivity | assumption | split; [reflexivity | reflexivity] ]
  end.

Ltac obeys_auto := repeat first [ solve [ auto with discipline ] | obeys_step | obeys_side ].

Section WireDiscipline.

Context {W : Type} {SV : Server W} {PL : PyLib}.
Variable service : OutlookService.
Variable sender_names : list string.
Variable move_to_deleted : bool.

#[local] Abbreviation P := (wire service sender_names move_to_deleted).

Lemma wire_read_imap_response : obeys (S := io W) P _read_imap_response.
Proof. unfold _read_imap_response. obeys_auto. Qed.

#[local] Hint Resolve wire_read_imap_response : discipline.

Lemma wire_read_final_loop fuel tag_str response_lines :
  obeys (S := io W) P (read_final_loop fuel tag_str response_lines).
Proof.
  revert response_lines. induction fuel as [|fuel IH]; intros response_lines; simpl.
  - obeys_auto.
  - obeys_auto.
Qed.

#[local] Hint Resolve wire_read_final_loop : discipline.

Lemma wire_authenticate_oauth2_manual :
  obeys (S := io W) P (_authenticate_oauth2_manual (auth_bytes_of (email service) (token service))).
Proof.
  unfold _authenticate_oauth2_manual, xoauth2_exchange, _read_final_auth_response.
  obeys_auto.
  - left. eexists. reflexivity.
  - right. reflexivity.
Qed.

#[local] Hint Resolve wire_authenticate_oauth2_manual : discipline.

Lemma wire_authenticate_oauth2 :
  obeys (S := io W) P (authenticate_oauth2 (email service) (token service)).
Proof. unfold authenticate_oauth2, authenticate_primary, unpack. obeys_auto. Qed.

#[local] Hint Resolve wire_authenticate_oauth2 : discipline.

Lemma wire_connect : obeys (S := io W) P (connect service).
Proof. unfold connect. obeys_auto. Qed.

#[local] Hint Resolve wire_connect : discipline.

Lemma wire_is_connection_alive : obeys (S := io W) P _is_connection_alive.
Proof. unfold _is_connection_alive. obeys_auto. Qed.

Lemma wire_reconnect : obeys (S := io W) P (_reconnect service).
Proof. unfold _reconnect, quietly. obeys_auto. Qed.

#[local] Hint Resolve wire_is_connection_alive wire_reconnect : discipline.

Lemma wire_fetch_email_subject uid : obeys (S := io W) P (_fetch_email_subject uid).
Proof. unfold _fetch_email_subject, unpack. obeys_auto. Qed.

#[local] Hint Resolve wire_fetch_email_subject : discipline.

Lemma wire_close : obeys (S := io W) P close.
Proof. unfold close, silently. obeys_auto. Qed.

Lemma wire_print_matches emails : obeys (S := io W) P (print_matches emails).
Proof. induction emails as [|mail rest IH]; simpl; obeys_auto. Qed.

#[local] Hint Resolve wire_close wire_print_matches : discipline.

Lemma wire_search_sender_on_server (name : string) :
  In name sender_names -> obeys (S := io W) P (_search_sender_on_server service name).
Proof.
  intros Hin.
  assert (Hc : forall cs r, cs = Some "UTF-8" \/ cs = None ->
            P (Call (UidSearch cs (search_criteria name)) r)).
  { intros cs r Hcs. split; [exact Hcs|]. exists name. auto. }
  unfold _search_sender_on_server. cbn [search_charsets].
  unfold search_attempt, _uid_search_with_charset, unpack, uids_of_data. cbn [String.eqb Ascii.eqb].
  obeys_auto; apply Hc; auto.
Qed.

#[local] Hint Resolve wire_search_sender_on_server : discipline.

Lemma wire_process_loop (uids_bytes : list string) (sender_name : string)
  (results : list MessageRecord) :
  obeys (S := @search_state W) P (process_loop uids_bytes sender_name results).
Proof.
  revert results. induction uids_bytes as [|uid_bytes rest IH]; intros results;
    cbn [process_loop]; unfold process_one, process_error; obeys_auto.
Qed.

#[local] Hint Resolve wire_process_loop : discipline.

Lemma wire_senders_loop (names : list string) (results : list MessageRecord) :
  (forall name, In name names -> In name sender_names) ->
  obeys (S := @search_state W) P (senders_loop service names results).
Proof.
  revert results. induction names as [|name rest IH]; intros results Hin; cbn [senders_loop].
  - obeys_auto.
  - assert (Hname : In name sender_names) by (apply Hin; left; reflexivity).
    assert (Hrest : forall results', obeys (S := @search_state W) P
                      (senders_loop service rest results')).
    { intros results'. apply IH. intros n Hn. apply Hin. right. exact Hn. }
    unfold search_one, search_retry, _process_email_ids. obeys_auto.
Qed.

Lemma wire_search_specific_senders :
  obeys (S := io W) P (search_specific_senders service sender_names).
Proof.
  intros s. unfold search_specific_senders.
  set (m := (lift_io (print _);; lift_io (print "");; senders_loop service sender_names [])).
  assert (Hm : obeys (S := @search_state W) P m).
  { unfold m. obeys_auto. apply wire_senders_loop. auto. }
  destruct (Hm (SearchState s ∅)) as [evs [Ht HQ]].
  exists evs. destruct (m (SearchState s ∅)) as [r st]. cbn in *. auto.
Qed.

#[local] Hint Resolve wire_search_specific_senders : discipline.

Lemma wire_expunge_with_retry :
  move_to_deleted = true -> obeys (S := io W) P (_expunge_with_retry service).
Proof. intros Hd. unfold _expunge_with_retry. obeys_auto. Qed.

Lemma wire_delete_each (batch_uids : list string) :
  move_to_deleted = true -> obeys (S := io W) P (delete_each service batch_uids).
Proof.
  intros Hd. induction batch_uids as [|uid rest IH]; cbn [delete_each];
    unfold delete_one, _delete_single_uid, _retry_delete_single_uid; obeys_auto;
    repeat split; auto.
Qed.

Lemma wire_delete_batches (bs : list (nat * list string)) :
  move_to_deleted = true -> obeys (S := io W) P (delete_batches service bs).
Proof.
  intros Hd. induction bs as [|[k batch] rest IH]; cbn [delete_batches];
    unfold _process_deletion_batch; obeys_auto. apply wire_delete_each, Hd.
Qed.

Lemma wire_delete_emails (email_ids : list string) (batch_size : nat) :
  move_to_deleted = true -> obeys (S := io W) P (delete_emails service email_ids batch_size).
Proof.
  intros Hd. unfold delete_emails. obeys_auto.
  - apply wire_delete_batches, Hd.
  - apply wire_expunge_with_retry, Hd.
Qed.

Lemma wire_session (emails_then : list MessageRecord -> M (io W) unit) :
  (forall emails, obeys P (emails_then emails)) ->
  obeys P
    (connect service;;
     print ("[*] Senders containing: " ++ join ", " sender_names);;
     print "";;
     emails ← search_specific_senders service sender_names;
     emails_then emails).
Proof. intros H. obeys_auto. Qed.

End WireDiscipline.

(** ** The whole cleaning run *)

Section CleaningRun.

Context {W : Type} {SV : Server W} {PL : PyLib}.

Lemma close_runs (s : io W) :
  runs close s (fun r s' evs =>
    r = Ok tt /\ connection s' = connection s /\ close_events s evs).
Proof.
  unfold close, close_events. apply runs_bind, runs_get_connection.
  destruct (connection s) eqn:Hc; [|apply runs_ret; auto].
  assert (Hs : forall (c : command) (s0 : io W), connection s0 = true ->
            runs (silently c) s0 (fun r s' evs =>
              r = Ok tt /\ connection s' = true /\ exists rp, evs = [Call c rp])).
  { intros c s0 Hc0. unfold silently. apply runs_catch, runs_bind, runs_conn_call.
    2:{ intros Hf. rewrite Hf in Hc0. discriminate. }
    intros _. apply runs_call. intros rp w _. destruct rp as [v|e]; cbn [reply_result].
    - apply runs_ret. cbn [connection app]. eauto.
    - apply runs_ret. cbn [connection app]. eauto. }
  apply runs_bind. eapply runs_mono; [apply Hs, Hc|].
  intros r s1 evs1 (-> & Hc1 & rc & ->).
  eapply runs_mono; [apply Hs, Hc1|]. intros r s2 evs2 (-> & Hc2 & rl & ->).
  cbn [app]. eauto.
Qed.

Lemma opened_close_events (s : io W) (evs : list event) : close_events s evs -> ~ opened evs.
Proof.
  unfold close_events. intros H Ho. destruct (connection s).
  - destruct H as (rc & rl & ->). unfold opened in Ho.
    inversion Ho as [? ? H1|? ? H1]; [discriminate|].
    inversion H1 as [? ? H2|? ? H2]; [discriminate | inversion H2].
  - subst. destruct (opened_nil Ho).
Qed.

Lemma wire_close_events service sender_names move_to_deleted (s : io W) (evs : list event) :
  close_events s evs -> Forall (wire service sender_names move_to_deleted) evs.
Proof.
  unfold close_events. destruct (connection s).
  - intros (rc & rl & ->). repeat constructor.
  - intros ->. constructor.
Qed.

Lemma clean_inbox_run (user_email : string) (sender_names : list string)
  (access_token : string) (move_to_deleted : bool) (imap_server mailbox : string) (s : io W) :
  let service :=
    {| server := imap_server; email := user_email; token := access_token;
       mailbox := mailbox |} in
  runs (clean_inbox user_email sender_names access_token move_to_deleted imap_server mailbox) s
    (fun r _ evs =>
       r = Ok tt /\
       Forall (wire service sender_names move_to_deleted) evs /\
       (opened evs -> closed_at_end evs)).
Proof.
  intros service. unfold clean_inbox. fold service.
  apply runs_catch, runs_bind, runs_set_connection, runs_finally.
  set (s0 := IO (world s) false (trace s)).
  assert (Hbody : obeys (S := io W) (wire service sender_names move_to_deleted)
            (connect service;;
             print ("[*] Senders containing: " ++ join ", " sender_names);;
             print "";;
             emails ← search_specific_senders service sender_names;
             let ids := ids_to_delete emails in
             print_matches emails;;
             print (chr 10 ++ "[*] Summary: Found " ++ str_of_nat (length ids)
                    ++ " emails to process.");;
             if move_to_deleted && negb (is_nil ids) then delete_emails service ids 100
             else print "[INFO] Read-only mode or no matches found. No changes made.")).
  { apply wire_session. intros emails. cbn zeta.
    apply obeys_bind; [apply wire_print_matches|]. intros _.
    apply obeys_bind; [apply obeys_print; exact I|]. intros _.
    destruct move_to_deleted; cbn [andb].
    - destruct (negb (is_nil (ids_to_delete emails))).
      + apply wire_delete_emails. reflexivity.
      + apply obeys_print. exact I.
    - apply obeys_print. exact I. }
  eapply runs_mono; [apply (Hbody s0)|]. intros r s1 evs1 [HP1 Hh1].
  eapply runs_mono; [apply close_runs|]. intros r2 s2 evs2 (-> & Hc2 & Hev2).
  assert (HP2 : Forall (wire service sender_names move_to_deleted) evs2)
    by (eapply wire_close_events; eauto).
  assert (Hclosed : forall post, Forall is_print post ->
            opened (([] ++ evs1 ++ evs2) ++ post)%list ->
            closed_at_end (([] ++ evs1 ++ evs2) ++ post)%list).
  { intros post Hpost Ho. cbn [app] in *.
    assert (Ho1 : opened evs1).
    { rewrite !opened_app in Ho. destruct Ho as [[Ho|Ho]|Ho]; [exact Ho| |].
      - destruct (opened_close_events _ _ Hev2 Ho).
      - exfalso. clear - Hpost Ho. unfold opened in Ho.
        induction Ho as [ev l H|ev l H IH]; inversion Hpost; subst; auto.
        destruct ev; [contradiction | discriminate]. }
    assert (Hc1 : connection s1 = true) by (apply Hh1; right; exact Ho1).
    unfold close_events in Hev2. rewrite Hc1 in Hev2. destruct Hev2 as (rc & rl & ->).
    exists evs1, rc, rl, post. rewrite <- app_assoc. auto. }
  destruct r as [[]|e].
  - split; [reflexivity|]. split; [cbn [app]; apply Forall_app; auto|].
    intros Ho. specialize (Hclosed [] (List.Forall_nil _)). rewrite !app_nil_r in Hclosed. auto.
  - apply runs_print. split; [reflexivity|]. split.
    + cbn [app]. repeat (apply Forall_app; split); auto. repeat constructor.
    + intros Ho. apply Hclosed; [repeat constructor | exact Ho].
Qed.

End CleaningRun.

Lemma wire_switch (service : OutlookService) (sender_names : list string)
  (move_to_deleted : bool) {PL : PyLib} (ev : event) :
  wire service sender_names move_to_deleted ev -> well_formed service sender_names ev.
Proof.
  unfold well_formed. destruct ev as [[] r|line]; cbn; try tauto.
Qed.

Lemma wire_read_only (service : OutlookService) (sender_names : list string)
  {PL : PyLib} (ev : event) :
  wire service sender_names false ev -> leaves_messages ev.
Proof.
  destruct ev as [[] r|line]; cbn; try tauto.
  - intros [H _]. discriminate.
  - discriminate.
Qed.

Section CleaningRunTheorems.

Context {W : Type} {SV : Server W} {PL : PyLib}.

(** X1: [clean_inbox] never raises, whatever the server does: every
    failure ends as a printed line.  And once a connection was opened
    during the run, the run ends with CLOSE and LOGOUT, both attempted,
    followed by prints only; so the session is closed also when the
    search or the deletion failed. *)
Theorem cleaning_run_returns_and_closes (user_email : string) (sender_names : list string)
  (access_token : string) (move_to_deleted : bool) (imap_server mailbox : string) (s : io W) :
  runs (clean_inbox user_email sender_names access_token move_to_deleted imap_server mailbox) s
    (fun r _ evs => r = Ok tt /\ (opened evs -> closed_at_end evs)).
Proof.
  eapply runs_mono; [apply clean_inbox_run|]. cbn beta. intros r s' evs (Hr & _ & Hc). auto.
Qed.

(** X2: every command of a cleaning run that is given its access token
    (a non-empty one, so that the code acquires none) has its expected
    shape: the connection goes to the configured host, authentication
    carries the XOAUTH2 string of the configured user and of that token,
    the configured mailbox is selected read-write, every search is
    [(FROM "name")] for one of the sender names, with charset UTF-8 or none,
    every fetch peeks at the subject header only (so it never marks a
    message as read), and every store adds the deleted flag and nothing
    else. *)
Theorem cleaning_run_wire_discipline (user_email : string) (sender_names : list string)
  (access_token : string) (move_to_deleted : bool) (imap_server mailbox : string) (s : io W) :
  String.eqb access_token "" = false ->
  runs (clean_inbox user_email sender_names access_token move_to_deleted imap_server mailbox) s
    (fun _ _ evs =>
       Forall (well_formed
                 {| server := imap_server; email := user_email; token := access_token;
                    mailbox := mailbox |} sender_names) evs).
Proof.
  intros _. eapply runs_mono; [apply clean_inbox_run|]. cbn beta. intros r s' evs (_ & Hw & _).
  eapply List.Forall_impl; [|exact Hw]. intros ev. apply wire_switch.
Qed.

(** X3: with [move_to_deleted] off, a cleaning run sends no STORE and no
    EXPUNGE, whatever the searches return and however the server fails. *)
Theorem read_only_run_leaves_messages (user_email : string) (sender_names : list string)
  (access_token : string) (imap_server mailbox : string) (s : io W) :
  runs (clean_inbox user_email sender_names access_token false imap_server mailbox) s
    (fun _ _ evs => Forall leaves_messages evs).
Proof.
  eapply runs_mono; [apply clean_inbox_run|]. cbn beta. intros r s' evs (_ & Hw & _).
  eapply List.Forall_impl; [|exact Hw]. intros ev. apply wire_read_only.
Qed.

(** X4: [close] never raises.  With a connection it sends CLOSE and then
    LOGOUT, the second also when the first failed; without one it sends
    nothing.  The handle is left as it was. *)
Theorem close_swallows_and_logs_out (s : io W) :
  runs close s (fun r s' evs =>
    r = Ok tt /\ connection s' = connection s /\
    (connection s = true -> exists rc rl, evs = [Call Close rc; Call Logout rl]) /\
    (connection s = false -> evs = [])).
Proof.
  eapply runs_mono; [apply close_runs|]. intros r s' evs (Hr & Hc & Hev).
  unfold close_events in Hev. split; [exact Hr|]. split; [exact Hc|].
  destruct (connection s); split; auto; discriminate.
Qed.

End CleaningRunTheorems.

Lemma cleaning_run_wire_discipline_witness :
  String.eqb "tok" "" = false /\
  runs (@clean_inbox unit always_42_server example_lib "user@example.com" ["Netflix"] "tok"
          true "outlook.office365.com" "Inbox") (start tt false)
    (fun _ _ evs => Forall (@well_formed example_lib example_service ["Netflix"]) evs).
Proof.
  split; [reflexivity|].
  apply (@cleaning_run_wire_discipline unit always_42_server example_lib "user@example.com"
           ["Netflix"] "tok" true "outlook.office365.com" "Inbox" (start tt false)).
  reflexivity.
Defined.

(** ** The session: connecting, expunging, flagging *)

Section SessionEvents.

Context {W : Type} {SV : Server W} {PL : PyLib}.

Lemma session_authenticate_oauth2 email_address access_token :
  obeys (S := io W) session_event (authenticate_oauth2 email_address access_token).
Proof.
  assert (Hloop : forall fuel tag_str response_lines,
            obeys (S := io W) session_event (read_final_loop fuel tag_str response_lines)).
  { induction fuel as [|fuel IH]; intros tag_str response_lines; simpl;
      unfold _read_imap_response; obeys_auto. }
  unfold authenticate_oauth2, authenticate_primary, unpack, _authenticate_oauth2_manual,
    xoauth2_exchange, _read_final_auth_response, _read_imap_response.
  obeys_auto.
Qed.

#[local] Hint Resolve session_authenticate_oauth2 : discipline.

Lemma session_connect self : obeys (S := io W) session_event (connect self).
Proof. unfold connect. obeys_auto. Qed.

#[local] Hint Resolve session_connect : discipline.

Lemma session_is_connection_alive : obeys (S := io W) session_event _is_connection_alive.
Proof. unfold _is_connection_alive. obeys_auto. Qed.

Lemma session_reconnect self : obeys (S := io W) session_event (_reconnect self).
Proof. unfold _reconnect, quietly. obeys_auto. Qed.

Lemma session_guard self :
  obeys (S := io W) session_event
    (alive ← _is_connection_alive; if alive : bool then mret tt else _reconnect self).
Proof.
  apply obeys_bind; [apply session_is_connection_alive|]. intros [|].
  - apply obeys_ret.
  - apply session_reconnect.
Qed.

End SessionEvents.

#[global] Hint Resolve session_authenticate_oauth2 session_connect
  session_is_connection_alive session_reconnect session_guard : discipline.

Lemma session_no_select_last (evs pre : list event) (ev : event) :
  Forall (fun ev => is_select ev = false) evs -> evs = (pre ++ [ev])%list ->
  is_select ev = false.
Proof.
  intros H ->. apply Forall_app in H as [_ H]. inversion H. assumption.
Qed.

Section ConnectFacts.

Context {W : Type} {SV : Server W} {PL : PyLib}.

Lemma authenticate_no_select email_address access_token :
  obeys (S := io W) (fun ev => is_select ev = false)
    (authenticate_oauth2 email_address access_token).
Proof.
  assert (Hloop : forall fuel tag_str response_lines,
            obeys (S := io W) (fun ev => is_select ev = false)
              (read_final_loop fuel tag_str response_lines)).
  { induction fuel as [|fuel IH]; intros tag_str response_lines; simpl;
      unfold _read_imap_response; obeys_auto. }
  unfold authenticate_oauth2, authenticate_primary, unpack, _authenticate_oauth2_manual,
    xoauth2_exchange, _read_final_auth_response, _read_imap_response.
  obeys_auto.
Qed.

(** X5: [connect] returns exactly when its last event is the SELECT of
    the configured mailbox, read-write, and that call returned, with
    whatever completion status; a SELECT is sent at most once, as the last
    event, so never before the connection is open and authenticated.  Once
    the connection is open the handle is kept, also when authentication
    raises. *)
Theorem connect_selects_last (self : OutlookService) (s : io W) :
  runs (connect self) s (fun r s' evs =>
    (r = Ok tt <-> exists pre v, evs = (pre ++ [Call (Select (mailbox self) false) (Ret v)])%list) /\
    Forall (fun ev => is_select ev = false) (removelast evs) /\
    (opened evs -> connection s' = true)).
Proof.
  assert (Hlast : forall evs, Forall (fun ev => is_select ev = false) evs ->
            ~ exists pre v, evs = (pre ++ [Call (Select (mailbox self) false) (Ret v)])%list).
  { intros evs H (pre & v & E). pose proof (session_no_select_last _ _ _ H E). discriminate. }
  assert (Hcut : forall evs, Forall (fun ev => is_select ev = false) evs ->
            Forall (fun ev => is_select ev = false) (removelast evs)).
  { intros evs H. induction H as [|ev l Hev Hl IH]; [constructor|].
    cbn [removelast]. destruct l; [constructor|]. constructor; auto. }
  unfold connect. apply runs_bind, runs_print. apply runs_bind, runs_call.
  intros [v|e] w _; cbn [reply_result].
  2:{ match goal with |- context [([Print ?p] ++ [?c])%list] => set (evs := ([Print p] ++ [c])%list) end.
      assert (H : Forall (fun ev => is_select ev = false) evs) by (repeat constructor).
      split; [split; [discriminate | intros H1; destruct (Hlast _ H H1)]|].
      split; [apply Hcut, H|]. intros Ho. unfold evs, opened in Ho.
      inversion Ho as [? ? Ha|? ? Ha]; [discriminate|].
      inversion Ha as [? ? Hb|? ? Hb]; [discriminate | inversion Hb]. }
  apply runs_bind, runs_set_connection. apply runs_bind, runs_print.
  apply runs_bind, runs_print. apply runs_bind.
  eapply runs_mono; [apply authenticate_no_select|]. intros r s1 evs1 [Hn1 Hh1].
  cbn [handle_of io_handled connection] in Hh1. unfold handle_of, io_handled in Hh1.
  cbn [connection] in Hh1. specialize (Hh1 (or_introl eq_refl)).
  cbn [app].
  match goal with |- context [Print ?a :: Call ?c (Ret v) :: Print ?b :: Print ?d :: evs1] =>
    set (front := Print a :: Call c (Ret v) :: Print b :: Print d :: evs1) end.
  assert (Hfront : Forall (fun ev => is_select ev = false) front)
    by (unfold front; repeat constructor; exact Hn1).
  destruct r as [ok|e].
  2:{ split; [split; [discriminate | intros H1; destruct (Hlast _ Hfront H1)]|].
      split; [apply Hcut, Hfront|]. intros _. exact Hh1. }
  apply runs_bind, runs_print. apply runs_bind, runs_conn_call.
  2:{ cbn [connection]. intros Hf. rewrite Hf in Hh1. discriminate. }
  intros _. apply runs_call. intros rp w2 _.
  assert (Hrem : forall x y, removelast (front ++ [x] ++ [y]) = (front ++ [x])%list).
  { intros x y. rewrite app_assoc. apply removelast_last. }
  destruct rp as [v2|e2]; cbn [reply_result].
  - apply runs_ret. rewrite app_nil_r.
    change (Print ?a :: Call ?c (Ret v) :: Print ?b :: Print ?d :: (evs1 ++ ?t)%list)
      with (front ++ t)%list.
    split; [split; [intros _|reflexivity]|].
    { eexists (front ++ [_])%list, v2. rewrite <- app_assoc. reflexivity. }
    split; [|intros _; exact Hh1]. rewrite Hrem. apply Forall_app. split; [exact Hfront|].
    repeat constructor.
  - change (Print ?a :: Call ?c (Ret v) :: Print ?b :: Print ?d :: (evs1 ++ ?t)%list)
      with (front ++ t)%list.
    split; [split; [discriminate|]|].
    { intros (pre & v2 & E). rewrite app_assoc in E. apply app_inj_tail in E as [_ E].
      discriminate. }
    split; [|intros _; exact Hh1]. rewrite Hrem. apply Forall_app. split; [exact Hfront|].
    repeat constructor.
Qed.

End ConnectFacts.

Lemma expunges_app (a b : list event) : expunges (a ++ b) = expunges a + expunges b.
Proof. unfold expunges. rewrite List.filter_app, length_app. reflexivity. Qed.

Lemma expunges_session (evs : list event) : Forall session_event evs -> expunges evs = 0.
Proof.
  unfold expunges. induction 1 as [|ev evs Hs _ IH]; [reflexivity|].
  destruct ev as [[] r|line]; simpl in *; auto; contradiction.
Qed.

Lemma unsettled_session (evs : list event) :
  Forall session_event evs -> Forall unsettled evs.
Proof.
  apply List.Forall_impl. intros [[] r|line]; simpl; tauto.
Qed.

Lemma settled_app (a b : list event) : Forall unsettled a -> settled b -> settled (a ++ b).
Proof.
  intros Ha Hb. induction Ha as [|ev a Hev _ IH]; [exact Hb|].
  destruct ev as [[] [v|e]|line]; simpl in *; auto; contradiction.
Qed.

Lemma settled_unsettled (evs : list event) : Forall unsettled evs -> settled evs.
Proof. intros H. rewrite <- (app_nil_r evs). apply settled_app; [exact H | exact I]. Qed.

Lemma store_commands_session (evs : list event) :
  Forall session_event evs -> store_commands evs = [].
Proof.
  induction 1 as [|ev evs Hs _ IH]; simpl; [reflexivity|].
  destruct ev as [[] r|line]; simpl in *; auto; contradiction.
Qed.

Section GuardFacts.

Context {W : Type} {SV : Server W} {PL : PyLib}.

(** The guard in front of a command: probe, and reconnect if the probe
    fails; it adds session events only. *)
Lemma runs_guard {A : Type} (self : OutlookService) (k : M (io W) A) (s : io W)
  (Q : result A -> io W -> list event -> Prop) :
  (forall s1 evs1, Forall session_event evs1 ->
     runs k s1 (fun r s' evs2 => Q r s' (evs1 ++ evs2)%list)) ->
  (forall e s1 evs1, Forall session_event evs1 -> Q (Raise e) s1 evs1) ->
  runs (alive ← _is_connection_alive;
        (if alive : bool then mret tt else _reconnect self);; k) s Q.
Proof.
  intros Hk He. apply runs_bind.
  eapply runs_mono; [apply session_is_connection_alive|]. intros [alive|e] s1 evs1 [H1 _].
  2:{ apply He, H1. }
  apply runs_bind. destruct alive.
  - apply runs_ret. cbn [app]. apply Hk, H1.
  - eapply runs_mono; [apply session_reconnect|]. intros [[]|e] s2 evs2 [H2 _].
    + eapply runs_mono; [apply (Hk s2 (evs1 ++ evs2)%list); apply Forall_app; auto|].
      intros r s' evs3 HQ. cbn beta in HQ. rewrite <- app_assoc in HQ. exact HQ.
    + apply He. apply Forall_app; auto.
Qed.

Lemma runs_reconnect_then {A : Type} (self : OutlookService) (k : M (io W) A) (s : io W)
  (Q : result A -> io W -> list event -> Prop) :
  (forall s1 evs1, Forall session_event evs1 ->
     runs k s1 (fun r s' evs2 => Q r s' (evs1 ++ evs2)%list)) ->
  (forall e s1 evs1, Forall session_event evs1 -> Q (Raise e) s1 evs1) ->
  runs (_reconnect self;; k) s Q.
Proof.
  intros Hk He. apply runs_bind.
  eapply runs_mono; [apply session_reconnect|]. intros [[]|e] s1 evs1 [H1 _].
  - apply Hk, H1.
  - apply He, H1.
Qed.

(** A call through the handle: one event, or none without a handle. *)
Lemma runs_conn_call_cases (c : command) (s : io W)
  (Q : result value -> io W -> list event -> Prop) :
  (forall rp s', Q (reply_result rp) s' [Call c rp]) ->
  (forall e, is_transport e = false -> Q (Raise e) s []) ->
  runs (conn_call c) s Q.
Proof.
  intros Hc Hn. apply runs_conn_call.
  - intros _. apply runs_call. intros rp w _. apply Hc.
  - intros _. apply Hn. reflexivity.
Qed.

End GuardFacts.

Section ExpungeFacts.

Context {W : Type} {SV : Server W} {PL : PyLib}.

(** X6: [_expunge_with_retry] never lets a transport or protocol error
    out: it returns, or raises what the first attempt raised outside
    those classes.  It sends at most two EXPUNGE commands, and once an
    EXPUNGE has returned it sends nothing more. *)
Theorem expunge_retries_at_most_once (self : OutlookService) (s : io W) :
  runs (_expunge_with_retry self) s (fun r _ evs =>
    (forall e, r = Raise e -> is_transport e = false) /\
    expunges evs <= 2 /\
    settled evs).
Proof.
  unfold _expunge_with_retry. apply runs_catch.
  assert (Hhandler : forall e s1 evs1, Forall unsettled evs1 -> expunges evs1 <= 1 ->
            runs (if is_transport e
                  then print ("[WARN] Error during expunge: " ++ exn_msg e);;
                       catch
                         (_reconnect self;; conn_call Expunge;;
                          print "[OK] Cleanup completed successfully (after reconnect).")
                         (fun expunge_err =>
                            print ("[ERROR] Failed to complete expunge: "
                                   ++ exn_msg expunge_err))
                  else raise e) s1
              (fun r _ evs2 =>
                 (forall e', r = Raise e' -> is_transport e' = false) /\
                 expunges (evs1 ++ evs2) <= 2 /\ settled (evs1 ++ evs2))).
  { intros e s1 evs1 Hu Hn. destruct (is_transport e) eqn:He.
    - apply runs_bind, runs_print.
      apply runs_catch, runs_reconnect_then.
      + intros s2 evs2 H2. apply runs_bind, runs_conn_call_cases.
        * intros [v|e2] s3; cbn [reply_result]; apply runs_print;
            (split; [discriminate|]);
            rewrite !expunges_app, (expunges_session _ H2); (split; [cbn; lia|]).
          -- apply settled_app; [exact Hu|]. cbn [app settled].
             apply settled_app; [apply unsettled_session, H2|]. cbn. repeat constructor.
          -- apply settled_unsettled. repeat (apply Forall_app; split);
               [exact Hu | repeat constructor | apply unsettled_session, H2
               | repeat constructor..].
        * intros e2 _. apply runs_print. split; [discriminate|].
          rewrite !expunges_app, (expunges_session _ H2). split; [cbn; lia|].
          apply settled_unsettled. repeat (apply Forall_app; split);
            [exact Hu | repeat constructor | apply unsettled_session, H2
            | repeat constructor..].
      + intros e2 s2 evs2 H2. apply runs_print. split; [discriminate|].
        rewrite !expunges_app, (expunges_session _ H2). split; [cbn; lia|].
        apply settled_unsettled. repeat (apply Forall_app; split);
          [exact Hu | repeat constructor | apply unsettled_session, H2 | repeat constructor].
    - apply runs_raise. rewrite app_nil_r. split; [intros e' [= <-]; exact He|].
      split; [lia | apply settled_unsettled, Hu]. }
  apply runs_guard.
  - intros s1 evs1 H1. apply runs_bind, runs_conn_call_cases.
    + intros [v|e] s2; cbn [reply_result].
      * apply runs_print. split; [discriminate|].
        rewrite !expunges_app, (expunges_session _ H1). split; [cbn; lia|].
        apply settled_app; [apply unsettled_session, H1|]. cbn. repeat constructor.
      * apply (Hhandler e s2 (evs1 ++ [Call Expunge (Throw e)])%list).
        -- apply Forall_app. split; [apply unsettled_session, H1 | repeat constructor].
        -- rewrite expunges_app, (expunges_session _ H1). cbn. lia.
    + intros e He. rewrite app_nil_r. apply Hhandler.
      * apply unsettled_session, H1.
      * rewrite (expunges_session _ H1). lia.
  - intros e s1 evs1 H1. apply Hhandler.
    + apply unsettled_session, H1.
    + rewrite (expunges_session _ H1). lia.
Qed.

End ExpungeFacts.

(** ** The subject of a fetched message *)

Section SubjectFacts.

Context {W : Type} {SV : Server W} {PL : PyLib}.

Lemma decode_header_safely_returns (header_val : option string) :
  exists text, _decode_header_safely header_val = Ok text.
Proof.
  unfold _decode_header_safely. destruct (negb (truthy header_val)); [eauto|].
  unfold catch_result.
  match goal with |- context [match ?r with Ok _ => _ | Raise _ => _ end] => destruct r end;
    eauto.
Qed.

Lemma subject_of_parts_last (msg_data : list item) (subject : string) :
  subject_of_parts msg_data subject =
  match last_part msg_data with
  | Some raw => _decode_header_safely (Some (header_text raw))
  | None => Ok subject
  end.
Proof.
  revert subject. induction msg_data as [|part rest IH]; intros subject; [reflexivity|].
  destruct part as [|b|b raw]; cbn [subject_of_parts last_part]; [apply IH..|].
  assert (Hh : match message_subject raw with Some h => Some h | None => Some "" end
               = Some (header_text raw)).
  { unfold header_text. destruct (message_subject raw); reflexivity. }
  rewrite Hh. destruct (decode_header_safely_returns (Some (header_text raw))) as [text Ht].
  rewrite Ht. cbn. rewrite IH. destruct (last_part rest); [reflexivity | auto].
Qed.

(** X10: when the FETCH completes with OK, the subject that
    [_fetch_email_subject] returns is the decoded Subject header of the
    last tuple part of the response; a part whose message has no Subject
    header gives the empty string, and only a response without any tuple
    part gives "(No Subject)". *)
Theorem fetched_subject_is_of_last_part (uid : string) (s : io W) (data : list item) (w : W) :
  connection s = true ->
  serve (UidFetch uid subject_parts) (world s) = (Ret (VResp "OK" data), w) ->
  (_fetch_email_subject uid s).1 =
  match last_part data with
  | Some raw => _decode_header_safely (Some (header_text raw))
  | None => Ok "(No Subject)"
  end.
Proof.
  intros Hc Hs. unfold _fetch_email_subject. rewrite catch_eq, bind_eq.
  unfold conn_call, call. rewrite Hc, Hs. cbn [unpack]. rewrite bind_eq.
  cbn [mret M_ret String.eqb Ascii.eqb Bool.eqb negb]. unfold lift_result.
  rewrite subject_of_parts_last. destruct (last_part data) as [raw|]; [|reflexivity].
  destruct (decode_header_safely_returns (Some (header_text raw))) as [text ->]. reflexivity.
Qed.

End SubjectFacts.

Lemma fetched_subject_is_of_last_part_witness :
  connection (start tt true) = true /\
  @serve unit always_42_server (UidFetch "42" subject_parts) tt =
    (Ret (VResp "OK" [IPair "1 (BODY[HEADER.FIELDS (SUBJECT)] {16}" "Subject: hello"]), tt) /\
  (@_fetch_email_subject unit always_42_server example_lib "42" (start tt true)).1 =
  @_decode_header_safely example_lib (Some (@header_text example_lib "Subject: hello")).
Proof.
  split; [reflexivity|]. split; [reflexivity|].
  apply (@fetched_subject_is_of_last_part unit always_42_server example_lib "42"
           (start tt true) [IPair "1 (BODY[HEADER.FIELDS (SUBJECT)] {16}" "Subject: hello"] tt);
    reflexivity.
Defined.

(** ** The manual exchange *)

Lemma sent_lines_app (a b : list event) :
  sent_lines (a ++ b) = (sent_lines a ++ sent_lines b)%list.
Proof.
  induction a as [|ev a IH]; simpl; [reflexivity|].
  destruct ev as [[] r|line]; simpl; rewrite ?IH; reflexivity.
Qed.

Lemma sent_lines_readlines (evs : list event) :
  Forall (fun ev => is_readline ev = true) evs -> sent_lines evs = [].
Proof.
  induction 1 as [|ev evs Hr _ IH]; simpl; [reflexivity|].
  destruct ev as [[] r|line]; simpl in *; auto; discriminate.
Qed.

Section ExchangeFacts.

Context {W : Type} {SV : Server W} {PL : PyLib}.

Lemma proceeds_on_plus (response : string) :
  negb (startswith response "+" || String.eqb response "+") = false ->
  startswith response "+" = true.
Proof.
  destruct (startswith response "+") eqn:Hs; [reflexivity|]. cbn [orb negb].
  intros H. apply negb_false_iff, String.eqb_eq in H. subst response. discriminate.
Qed.

(** X11: the manual exchange sends at most two lines: the AUTHENTICATE
    command under the tag it obtained and then the encoded credentials.
    The credentials are sent only directly after a line read from the
    server that begins with a plus sign; on any other answer, or on a
    failure before it, they never reach the wire. *)
Theorem credentials_wait_for_continuation (auth_bytes : string) (s : io W) :
  runs (_authenticate_oauth2_manual auth_bytes) s (fun _ _ evs =>
    exchange_sends auth_bytes evs).
Proof.
  unfold _authenticate_oauth2_manual. apply runs_bind, runs_call.
  intros [tag|e] w _; cbn [reply_result]; [|left; reflexivity].
  assert (Hh : forall (e : exn) (s1 : io W) (Q : result (option bool) -> io W -> list event -> Prop),
            (forall e', Q (Raise e') s1 []) ->
            runs (if is_imap_error e then raise e
                  else raise (Exn IMAP4_error
                                ("Error during XOAUTH2 authentication: " ++ exn_msg e))) s1 Q).
  { intros e s1 Q HQ. destruct (is_imap_error e); apply runs_raise, HQ. }
  assert (Hcmd : forall r1 more, sent_lines more = [] ->
            exchange_sends auth_bytes
              (Call NewTag (Ret tag)
               :: Call (Send ((py_str tag ++ " AUTHENTICATE XOAUTH2") ++ CRLF)) r1 :: more)).
  { intros r1 more Hmore. right. exists tag. left. cbn [sent_lines]. rewrite Hmore.
    reflexivity. }
  apply runs_catch, runs_bind. unfold xoauth2_exchange.
  apply runs_bind, runs_call. intros r1 w1 _.
  destruct r1 as [v1|e1]; cbn [reply_result].
  2:{ apply Hh. intros e'. cbn [app]. apply Hcmd. reflexivity. }
  apply runs_bind, runs_read_imap_response. intros r2 w2.
  destruct r2 as [v2|e2].
  2:{ apply Hh. intros e'. cbn [app]. apply Hcmd. reflexivity. }
  destruct (response_text v2) as [text|e2] eqn:Htext.
  2:{ apply Hh. intros e'. cbn [app]. apply Hcmd. reflexivity. }
  destruct (negb (startswith text "+" || String.eqb text "+")) eqn:Hplus.
  { apply runs_raise. apply Hh. intros e'. cbn [app]. apply Hcmd. reflexivity. }
  apply proceeds_on_plus in Hplus.
  apply runs_bind, runs_call. intros r3 w3 _.
  assert (Hdone : forall more, sent_lines more = [] ->
            exchange_sends auth_bytes
              (Call NewTag (Ret tag)
               :: Call (Send ((py_str tag ++ " AUTHENTICATE XOAUTH2") ++ CRLF)) (Ret v1)
               :: Call Readline (Ret v2)
               :: Call (Send (auth_bytes ++ CRLF)) r3 :: more)).
  { intros more Hmore. right. exists tag. right. cbn [sent_lines]. rewrite Hmore.
    split; [reflexivity|].
    exists [Call NewTag (Ret tag);
            Call (Send ((py_str tag ++ " AUTHENTICATE XOAUTH2") ++ CRLF)) (Ret v1)],
      v2, text, r3, more. auto. }
  destruct r3 as [v3|e3]; cbn [reply_result].
  2:{ apply Hh. intros e'. cbn [app]. apply (Hdone []). reflexivity. }
  unfold _read_final_auth_response. apply runs_bind.
  eapply runs_mono; [apply read_final_loop_spec|].
  intros r4 s4 evs4 (_ & Hread & _). apply sent_lines_readlines in Hread.
  destruct r4 as [lines|e4].
  2:{ apply Hh. intros e'. cbn [app]. rewrite ?app_nil_r. apply Hdone, Hread. }
  apply runs_ret. apply runs_bind, runs_lift_result.
  destruct (_validate_auth_response (join " " lines) (py_str tag)) as [valid|e5].
  2:{ apply Hh. intros e'. cbn [app]. rewrite ?app_nil_r. apply Hdone, Hread. }
  destruct valid.
  - apply runs_bind, runs_assign_state. intros w5. apply runs_ret.
    cbn [app]. rewrite ?app_nil_r. apply Hdone. rewrite sent_lines_app, Hread. reflexivity.
  - apply runs_ret. cbn [app]. rewrite ?app_nil_r. apply Hdone, Hread.
Qed.

Lemma authenticate_oauth2_outcome (email_address access_token : string)
  (s : io W) :
  runs (authenticate_oauth2 email_address access_token) s (fun r _ evs =>
    match r with
    | Ok v => v = Some true
    | Raise e =>
        is_imap_error e = true \/ exists pre, evs = (pre ++ [Call NewTag (Throw e)])%list
    end).
Proof.
  assert (Hends : forall (x : event) (front l : list event),
            (exists pre, l = (pre ++ [x])%list) ->
            exists pre, (front ++ l)%list = (pre ++ [x])%list).
  { intros x front l [pre ->]. exists (front ++ pre)%list. apply app_assoc. }
  assert (Hmanual : forall auth_bytes (s1 : io W) (front : list event),
            runs (_authenticate_oauth2_manual auth_bytes) s1 (fun r _ evs =>
              match r with
              | Ok v => v = Some true
              | Raise e =>
                  is_imap_error e = true \/
                  exists pre, (front ++ evs)%list = (pre ++ [Call NewTag (Throw e)])%list
              end)).
  { intros auth_bytes s1 front. unfold _authenticate_oauth2_manual.
    apply runs_bind, runs_call. intros [tag|e] w _; cbn [reply_result]; [|right; eauto].
    eapply runs_mono with
      (Q := fun r _ _ =>
              match r with Ok v => v = Some true | Raise e => is_imap_error e = true end);
      [|intros [v|e] s' evs H; [exact H | left; exact H]].
    match goal with |- runs ?m ?s0 _ =>
      assert (Hr : match (m s0).1 with
                   | Ok v => v = Some true
                   | Raise e => is_imap_error e = true
                   end);
      [| assert (Ho : only (W := W) quiet m)
           by (unfold xoauth2_exchange, _read_final_auth_response; only_auto);
         destruct (Ho s0) as [evs [Ht _]]; exists evs; split; [exact Ht | exact Hr] ]
    end.
    rewrite catch_eq, bind_eq.
    destruct (xoauth2_exchange auth_bytes tag _) as [[full|e] s3].
    - rewrite bind_eq. unfold lift_result, _validate_auth_response.
      destruct (contains (py_str tag) full && contains "OK" (upper full)).
      + unfold assign_state. rewrite bind_eq.
        destruct (serve (SetState "AUTH") (world s3)) as [rp w3]. reflexivity.
      + reflexivity.
    - destruct (is_imap_error e) eqn:He; cbn; [exact He | reflexivity]. }
  unfold authenticate_oauth2. apply runs_catch.
  unfold authenticate_primary. apply runs_bind, runs_call. intros rp w _.
  destruct rp as [v|e]; cbn [reply_result].
  - apply runs_bind. destruct v as [| | |typ data]; cbn [unpack];
      [apply runs_raise| apply runs_raise | apply runs_raise | apply runs_ret].
    1-3: cbn [is_attribute_or_type exn_cls]; apply runs_bind, runs_print;
         (eapply runs_mono; [apply (Hmanual _ _ [])|]); intros [ok|e'] s' evs H;
         [exact H | destruct H as [H|H]; [left; exact H | right; repeat apply Hends; exact H]].
    destruct (String.eqb typ "OK").
    + apply runs_ret. reflexivity.
    + apply runs_raise. cbn [is_attribute_or_type exn_cls]. apply runs_bind, runs_print.
      (eapply runs_mono; [apply (Hmanual _ _ [])|]); intros [ok|e'] s' evs H;
         [exact H | destruct H as [H|H]; [left; exact H | right; repeat apply Hends; exact H]].
  - destruct (is_attribute_or_type e); apply runs_bind, runs_print;
      (eapply runs_mono; [apply (Hmanual _ _ [])|]); intros [ok|e'] s' evs H;
         [exact H | destruct H as [H|H]; [left; exact H | right; repeat apply Hends; exact H]
         | exact H | destruct H as [H|H]; [left; exact H | right; repeat apply Hends; exact H]].
Qed.

(** X12: [authenticate_oauth2] returns [True] or raises: it never returns
    another value.  What it raises is an [IMAP4.error], whatever went wrong
    in the built-in call or in the manual exchange, with one exception: a
    failure of [_new_tag] itself, which is outside the [try]. *)
Theorem authentication_returns_true_or_raises (email_address access_token : string)
  (s : io W) :
  runs (authenticate_oauth2 email_address access_token) s (fun r _ evs =>
    match r with
    | Ok v => v = Some true
    | Raise e =>
        is_imap_error e = true \/ exists pre, evs = (pre ++ [Call NewTag (Throw e)])%list
    end).
Proof. apply authenticate_oauth2_outcome. Qed.

End ExchangeFacts.

(** ** The results of the search phase *)

Section Yields.

Context {S : Type}.

Lemma yields_bind {A B : Type} (m : M S A) (k : A -> M S B)
  (R1 : result A -> Prop) (R : result B -> Prop) :
  yields m R1 ->
  (forall a, R1 (Ok a) -> yields (k a) R) ->
  (forall e, R1 (Raise e) -> R (Raise e)) ->
  yields (m ≫= k) R.
Proof.
  intros Hm Hk He s. rewrite bind_eq. specialize (Hm s).
  destruct (m s) as [[a|e] s1]; cbn [fst] in *; [apply Hk, Hm | apply He, Hm].
Qed.

Lemma yields_catch {A : Type} (m : M S A) (h : exn -> M S A)
  (R1 R : result A -> Prop) :
  yields m R1 ->
  (forall a, R1 (Ok a) -> R (Ok a)) ->
  (forall e, R1 (Raise e) -> yields (h e) R) ->
  yields (catch m h) R.
Proof.
  intros Hm Hok Hh s. rewrite catch_eq. specialize (Hm s).
  destruct (m s) as [[a|e] s1]; cbn [fst] in *; [apply Hok, Hm | apply Hh, Hm].
Qed.

Lemma yields_any {A : Type} (m : M S A) : yields m (fun _ => True).
Proof. intros s. exact I. Qed.

Lemma yields_mono {A : Type} (m : M S A) (R R' : result A -> Prop) :
  yields m R -> (forall r, R r -> R' r) -> yields m R'.
Proof. intros Hm H s. apply H, Hm. Qed.

End Yields.

Section SearchOutcome.

Context {W : Type} {SV : Server W} {PL : PyLib}.

Lemma yields_lift_io {A : Type} (m : M (io W) A) (R : result A -> Prop) :
  yields m R -> yields (lift_io m) R.
Proof.
  intros Hm st. unfold lift_io. specialize (Hm (sio st)).
  destruct (m (sio st)) as [r s']. exact Hm.
Qed.

Lemma yields_print (line : string) : yields (S := io W) (print line) (fun r => r = Ok tt).
Proof. intros s. reflexivity. Qed.

Lemma yields_print_then {A : Type} (line : string) (k : M (@search_state W) A)
  (R : result A -> Prop) :
  yields k R -> yields (lift_io (print line);; k) R.
Proof.
  intros Hk. eapply yields_bind; [apply yields_lift_io, yields_print | intros _ _; exact Hk|].
  intros e H. discriminate.
Qed.

Lemma extended_for_refl (name : string) (results : list MessageRecord) :
  extended_for name results (Ok results).
Proof. intros results' [= <-]. exists []. rewrite app_nil_r. auto. Qed.

Lemma extended_for_raise (name : string) (results : list MessageRecord) (e : exn) :
  extended_for name results (Raise e).
Proof. intros results' H. discriminate. Qed.

Lemma extended_for_trans (name : string) (results new : list MessageRecord)
  (r : result (list MessageRecord)) :
  Forall (fun mail => sender mail = name) new ->
  extended_for name (results ++ new) r -> extended_for name results r.
Proof.
  intros Hnew H results' Hr. destruct (H results' Hr) as [new2 [-> H2]].
  exists (new ++ new2)%list. rewrite app_assoc. split; [reflexivity|].
  apply Forall_app. auto.
Qed.

Lemma process_one_extends (uid_bytes sender_name : string) (results : list MessageRecord) :
  yields (process_one (W := W) uid_bytes sender_name results)
    (extended_for sender_name results).
Proof.
  intros st. unfold process_one. rewrite bind_eq. unfold lift_result.
  destruct (bytes_decode "utf-8" Strict uid_bytes) as [uid|e]; [|apply extended_for_raise].
  rewrite bind_eq. cbn [get_found].
  destruct (bool_decide (uid ∈ total_found_uids st)); [apply extended_for_refl|].
  rewrite bind_eq. cbn [add_found]. rewrite bind_eq. unfold lift_io. cbn [sio total_found_uids].
  destruct (_fetch_email_subject uid (sio st)) as [[subject|e] s']; cbn [fst mret M_ret];
    [|apply extended_for_raise].
  intros results' [= <-]. eexists. split; [reflexivity|]. repeat constructor.
Qed.

Lemma process_error_extends (sender_name : string) (results : list MessageRecord) (e : exn) :
  yields (process_error (W := W) sender_name results e) (extended_for sender_name results).
Proof.
  unfold process_error. apply yields_print_then.
  eapply yields_bind; [apply yields_any | |].
  - intros _ _ st. apply extended_for_refl.
  - intros e' _. apply extended_for_raise.
Qed.

Lemma process_loop_extends (uids_bytes : list string) (sender_name : string)
  (results : list MessageRecord) :
  yields (process_loop (W := W) uids_bytes sender_name results)
    (extended_for sender_name results).
Proof.
  revert results. induction uids_bytes as [|uid_bytes rest IH]; intros results;
    cbn [process_loop].
  - intros st. apply extended_for_refl.
  - eapply yields_bind with (R1 := extended_for sender_name results).
    + eapply yields_catch; [apply process_one_extends | auto |].
      intros e _. destruct (is_transport e).
      * apply process_error_extends.
      * intros st. apply extended_for_raise.
    + intros results1 H1. destruct (H1 results1 eq_refl) as [new [-> Hnew]].
      eapply yields_mono; [apply IH|]. intros r. apply extended_for_trans, Hnew.
    + intros e _. apply extended_for_raise.
Qed.

Lemma search_body_extends (self : OutlookService) (name : string)
  (results : list MessageRecord) (skip found : list string -> string) :
  yields
    (uids_bytes ← lift_io (_search_sender_on_server (W := W) self name);
     if is_nil uids_bytes then
       lift_io (print (skip uids_bytes));;
       mret results
     else
       lift_io (print (found uids_bytes));;
       email_results ← _process_email_ids uids_bytes name;
       mret (results ++ email_results)%list)
    (extended_for name results).
Proof.
  eapply yields_bind; [apply yields_any | | intros e _; apply extended_for_raise].
  intros uids_bytes _. destruct (is_nil uids_bytes).
  - apply yields_print_then. intros st. apply extended_for_refl.
  - apply yields_print_then. unfold _process_email_ids.
    eapply yields_bind; [apply process_loop_extends | | intros e _; apply extended_for_raise].
    intros email_results H st. destruct (H email_results eq_refl) as [new [-> Hnew]].
    intros results' [= <-]. exists new. auto.
Qed.

Lemma search_one_extends (self : OutlookService) (name : string)
  (results : list MessageRecord) :
  yields (search_one (W := W) self name results) (extended_for name results).
Proof.
  unfold search_one.
  apply (search_body_extends self name results
           (fun _ => "  [SKIP] No emails found from '" ++ name ++ "'")
           (fun uids_bytes => "  [MATCH] Found " ++ str_of_nat (length uids_bytes)
                              ++ " emails from '" ++ name ++ "'")).
Qed.

Lemma search_retry_extends (self : OutlookService) (name : string)
  (results : list MessageRecord) (e : exn) :
  yields (search_retry (W := W) self name results e)
    (fun r => (exists results', r = Ok results') /\ extended_for name results r).
Proof.
  unfold search_retry. apply yields_print_then.
  eapply yields_catch with (R1 := extended_for name results).
  - eapply yields_bind; [apply yields_any | | intros e' _; apply extended_for_raise].
    intros _ _.
    apply (search_body_extends self name results
             (fun _ => "  [SKIP] No emails found from '" ++ name ++ "' (after reconnect)")
             (fun uids_bytes => "  [MATCH] Found " ++ str_of_nat (length uids_bytes)
                                ++ " emails from '" ++ name ++ "' (after reconnect)")).
  - intros results' H. split; [eauto | exact H].
  - intros e' _. apply yields_print_then. intros st.
    split; [eexists; reflexivity | apply extended_for_refl].
Qed.

Lemma senders_loop_outcome (self : OutlookService) (sender_names : list string)
  (results : list MessageRecord) :
  yields (senders_loop (W := W) self sender_names results) (fun r =>
    (forall e, r = Raise e -> is_transport e = false) /\
    forall emails, r = Ok emails ->
      exists groups,
        emails = (results ++ concat groups)%list /\
        Forall2 (fun name group => Forall (fun mail => sender mail = name) group)
          sender_names groups).
Proof.
  revert results. induction sender_names as [|name rest IH]; intros results;
    cbn [senders_loop].
  - intros st. split; [discriminate|]. intros emails [= <-]. exists [].
    cbn. rewrite app_nil_r. split; [reflexivity | constructor].
  - eapply yields_bind with
      (R1 := fun r => (forall e, r = Raise e -> is_transport e = false) /\
                      extended_for name results r).
    + eapply yields_catch; [apply search_one_extends | |].
      * intros results1 H. split; [discriminate | exact H].
      * intros e _. destruct (is_transport e) eqn:He.
        -- eapply yields_mono; [apply search_retry_extends|].
           intros r [[results1 ->] H]. split; [discriminate | exact H].
        -- intros st. split; [intros e' [= <-]; exact He | apply extended_for_raise].
    + intros results1 [_ H1]. destruct (H1 results1 eq_refl) as [new [-> Hnew]].
      eapply yields_mono; [apply IH|]. intros r [He Hr]. split; [exact He|].
      intros emails Hemails. destruct (Hr emails Hemails) as [groups [-> Hg]].
      exists (new :: groups). cbn [concat]. rewrite app_assoc.
      split; [reflexivity | constructor; assumption].
    + intros e [He _]. split; [exact He | discriminate].
Qed.

Lemma search_specific_senders_outcome (self : OutlookService) (sender_names : list string) :
  yields (search_specific_senders (W := W) self sender_names) (fun r =>
    (forall e, r = Raise e -> is_transport e = false) /\
    forall emails, r = Ok emails -> grouped_by_sender sender_names emails).
Proof.
  intros s. unfold search_specific_senders.
  match goal with |- context [let '(r, st) := ?m ?st0 in _] =>
    assert (Hy : yields m (fun r =>
                   (forall e, r = Raise e -> is_transport e = false) /\
                   forall emails, r = Ok emails -> grouped_by_sender sender_names emails));
    [| specialize (Hy st0); destruct (m st0) as [r st]; exact Hy ]
  end.
  apply yields_print_then, yields_print_then.
  eapply yields_mono; [apply senders_loop_outcome|]. intros r [He Hr]. split; [exact He|].
  intros emails Hem. destruct (Hr emails Hem) as [groups [-> Hg]]. exists groups. auto.
Qed.

(** X13: no transport or protocol error gets out of
    [search_specific_senders]: a connection failure while one name is
    searched ends, at worst, with that name skipped, and the search goes on
    with the next name. *)
Theorem search_phase_contains_transport_errors (self : OutlookService)
  (sender_names : list string) (s : io W) (e : exn) :
  (search_specific_senders self sender_names s).1 = Raise e -> is_transport e = false.
Proof. apply search_specific_senders_outcome. Qed.

(** X14: the records that [search_specific_senders] returns come grouped
    by sender name, in the order of the configured names, and every record
    carries as its sender the name whose search found it. *)
Theorem search_results_grouped_by_sender (self : OutlookService)
  (sender_names : list string) (s : io W) (emails : list MessageRecord) :
  (search_specific_senders self sender_names s).1 = Ok emails ->
  grouped_by_sender sender_names emails.
Proof. apply search_specific_senders_outcome. Qed.

End SearchOutcome.

(** An undecodable UID is not a transport error, and it does get out. *)
Lemma search_phase_contains_transport_errors_witness :
  (@search_specific_senders unit garbled_uid_server example_lib example_service
     ["Netflix"] (start tt true)).1 = Raise undecodable /\
  is_transport undecodable = false.
Proof.
  split; [vm_compute; reflexivity|].
  apply (@search_phase_contains_transport_errors unit garbled_uid_server example_lib
           example_service ["Netflix"] (start tt true) undecodable).
  vm_compute. reflexivity.
Defined.

Lemma search_results_grouped_by_sender_witness :
  grouped_by_sender ["Netflix"; "Bank"]
    [{| id := "42"; sender := "Netflix"; subject := "hello" |}].
Proof.
  apply (@search_results_grouped_by_sender unit always_42_server example_lib example_service
           ["Netflix"; "Bank"] (start tt true)).
  vm_compute. reflexivity.
Defined.

(** ** Filters and configuration *)

Lemma contains_ignoring_case_spec (needle hay : string) :
  contains (upper needle) (upper hay) = true <-> contains_ignoring_case needle hay.
Proof.
  rewrite contains_spec. unfold has_substring, contains_ignoring_case. split.
  - intros (pre & post & H). apply upper_split in H as (a & rest & -> & Ha & Hrest).
    apply upper_split in Hrest as (mid & b & -> & Hmid & Hb).
    exists a, mid, b. auto.
  - intros (pre & mid & post & -> & Hmid). exists (upper pre), (upper post).
    rewrite !upper_app, Hmid. reflexivity.
Qed.

Section FilterFacts.

Context {PT : PyText}.

Import SenderNameFilter.

Lemma record_original_first (names : list string) (sender : string) (name : string)
  (email_data : email_dict) (seen : list string) :
  (forall m, In m seen -> contains (str_upper m) sender = false) ->
  contains (str_upper name) sender = true ->
  record_original (seen ++ name :: names) (str_upper name) email_data =
  <["matched_name" := name]> email_data.
Proof.
  intros Hseen Hname. induction seen as [|m seen IH]; cbn [app record_original].
  - rewrite String.eqb_refl. reflexivity.
  - destruct (String.eqb (str_upper m) (str_upper name)) eqn:E.
    + apply String.eqb_eq in E. rewrite <- E, (Hseen m (or_introl eq_refl)) in Hname.
      discriminate.
    + apply IH. intros m' Hm'. apply Hseen. right. exact Hm'.
Qed.

Lemma matches_from_find (originals seen names : list string) (sender : string)
  (email_data : email_dict) :
  originals = (seen ++ names)%list ->
  (forall m, In m seen -> contains (str_upper m) sender = false) ->
  matches_from (init originals) (map str_upper names) sender email_data =
  match find (fun name => contains (str_upper name) sender) names with
  | Some name => (true, <["matched_name" := name]> email_data)
  | None => (false, email_data)
  end.
Proof.
  revert seen. induction names as [|name rest IH]; intros seen Horig Hseen;
    cbn [map matches_from find]; [reflexivity|].
  destruct (contains (str_upper name) sender) eqn:Hc.
  - cbn [init restricted_names_original]. rewrite Horig.
    rewrite (record_original_first rest sender name email_data seen Hseen Hc). reflexivity.
  - apply (IH (seen ++ [name])%list).
    + rewrite <- app_assoc. exact Horig.
    + intros m Hm. apply in_app_or in Hm as [Hm|[<-|[]]]; auto.
Qed.

Lemma sender_filter_finds (names : list string) (email_data : email_dict) :
  matches (init names) email_data =
  match find (fun name => contains (str_upper name)
                            (str_upper (get_text email_data "sender"))) names with
  | Some name => (true, <["matched_name" := name]> email_data)
  | None => (false, email_data)
  end.
Proof.
  unfold matches. cbn [init restricted_names].
  apply (matches_from_find names [] names); [reflexivity | intros m []].
Qed.

(** X15: [SenderNameFilter.matches] answers with the first configured
    name, in the order of the configuration, whose upper case occurs in the
    upper-cased sender, whatever [str.upper] makes of the text: it returns
    [True] and records that name, as configured, under [matched_name]; if
    there is no such name it returns [False] and leaves the message as it
    was.  A message without a sender counts as having the empty one. *)
Theorem sender_filter_finds_first_name (names : list string) (email_data : email_dict) :
  matches (init names) email_data =
  match find (fun name => contains (str_upper name)
                            (str_upper (get_text email_data "sender"))) names with
  | Some name => (true, <["matched_name" := name]> email_data)
  | None => (false, email_data)
  end.
Proof. apply sender_filter_finds. Qed.

(** X16: on ASCII text, [SenderNameFilter.matches] is a substring test
    that ignores the case of letters: when the configured names and the
    sender are ASCII, it returns [True] exactly when the sender contains
    one of the names up to letter case. *)
Theorem sender_filter_ignores_case (names : list string) (email_data : email_dict) :
  forallb isascii names = true ->
  isascii (get_text email_data "sender") = true ->
  ((matches (init names) email_data).1 = true <->
   exists name, In name names /\
                contains_ignoring_case name (get_text email_data "sender")).
Proof.
  intros Hnames Hsender. rewrite forallb_forall in Hnames.
  rewrite sender_filter_finds, (str_upper_ascii _ Hsender).
  destruct (find _ names) as [name|] eqn:Hfind; cbn [fst].
  - apply find_some in Hfind as [Hin Hc]. split; [intros _|reflexivity].
    exists name. split; [exact Hin|].
    rewrite (str_upper_ascii _ (Hnames _ Hin)) in Hc.
    apply contains_ignoring_case_spec, Hc.
  - split; [discriminate|]. intros (name & Hin & Hc).
    apply contains_ignoring_case_spec in Hc.
    pose proof (find_none _ _ Hfind name Hin) as Hn. cbn beta in Hn.
    rewrite (str_upper_ascii _ (Hnames _ Hin)) in Hn. congruence.
Qed.

(** X17: [SubjectFilter.matches] answers with the first keyword whose
    upper case occurs in the upper-cased subject, whatever [str.upper]
    makes of the text; unlike the sender filter it records the keyword in
    upper case, not as it was configured. *)
Theorem subject_filter_records_upper_case (words : list string) (email_data : email_dict) :
  SubjectFilter.matches (SubjectFilter.init words) email_data =
  match find (fun word => contains (str_upper word)
                            (str_upper (get_text email_data "subject"))) words with
  | Some word => (true, <["matched_keyword" := str_upper word]> email_data)
  | None => (false, email_data)
  end.
Proof.
  unfold SubjectFilter.matches. cbn [SubjectFilter.init SubjectFilter.keywords].
  induction words as [|word rest IH]; cbn [map SubjectFilter.matches_from find];
    [reflexivity|].
  destruct (contains (str_upper word) _); [reflexivity | exact IH].
Qed.

End FilterFacts.

(** A sender in capitals matches the name as it was configured. *)
Lemma sender_filter_ignores_case_witness :
  forallb isascii ["Amazon"; "Netflix"] = true /\
  isascii (get_text netflix_mail "sender") = true /\
  ((@SenderNameFilter.matches ascii_text
      (@SenderNameFilter.init ascii_text ["Amazon"; "Netflix"]) netflix_mail).1 = true <->
   exists name, In name ["Amazon"; "Netflix"] /\
                contains_ignoring_case name (get_text netflix_mail "sender")).
Proof.
  split; [reflexivity|]. split; [vm_compute; reflexivity|].
  apply (@sender_filter_ignores_case ascii_text ["Amazon"; "Netflix"] netflix_mail).
  - reflexivity.
  - vm_compute. reflexivity.
Defined.

Example capitals_match_the_configured_name :
  @SenderNameFilter.matches ascii_text
    (@SenderNameFilter.init ascii_text ["Amazon"; "Netflix"]) netflix_mail =
  (true, <["matched_name" := "Netflix"]> netflix_mail).
Proof. rewrite sender_filter_finds. vm_compute find. reflexivity. Qed.

(** X18: the default of [get_config_value] matters only when the key path
    is broken: with two defaults, either both calls return the same value,
    the one found, or each returns its own default. *)
Theorem config_default_only_when_missing {A : Type} (config : config_value A)
  (keys : list string) (default1 default2 : config_value A) :
  get_config_value config keys default1 = get_config_value config keys default2 \/
  (get_config_value config keys default1 = default1 /\
   get_config_value config keys default2 = default2).
Proof.
  revert config. induction keys as [|key rest IH]; intros config; cbn [get_config_value].
  - left. reflexivity.
  - destruct config as [a|d]; [right; auto|].
    destruct (d !! key) as [value|]; [apply IH | right; auto].
Qed.

(** X19: a key path can be followed in two steps: with a default that is
    not itself a [dict], looking up [keys1 ++ keys2] gives what looking up
    [keys2] gives in the result of looking up [keys1]. *)
Theorem config_path_composes {A : Type} (config : config_value A)
  (keys1 keys2 : list string) (default : A) :
  get_config_value config (keys1 ++ keys2) (Other default) =
  get_config_value (get_config_value config keys1 (Other default)) keys2 (Other default).
Proof.
  assert (Hd : forall keys, get_config_value (Other default) keys (Other default)
                            = Other default).
  { intros [|key rest]; reflexivity. }
  revert config. induction keys1 as [|key rest IH]; intros config;
    cbn [app get_config_value]; [reflexivity|].
  destruct config as [a|d]; [rewrite Hd; reflexivity|].
  destruct (d !! key) as [value|]; [apply IH | rewrite Hd; reflexivity].
Qed.

(** ** Reconnecting *)

Section ReconnectFacts.

Context {W : Type} {SV : Server W} {PL : PyLib}.

(** X20: [_reconnect] on a service that holds a connection sends CLOSE
    and LOGOUT to the old connection and then connects afresh, from the
    state the two calls left; a failure of either call in the transport,
    in the protocol or for want of an attribute changes nothing to that:
    LOGOUT is still sent and [connect] still runs. *)
Theorem reconnect_survives_failed_teardown (self : OutlookService) (s : io W)
  (rc rl : reply) (w1 w2 : W) :
  connection s = true ->
  serve Close (world s) = (rc, w1) ->
  serve Logout w1 = (rl, w2) ->
  passed_over rc -> passed_over rl ->
  _reconnect self s =
  connect self
    (IO w2 true
       (trace s ++ [Print "[*] Connection lost, reconnecting..."; Call Close rc;
                    Call Logout rl])).
Proof.
  intros Hc Hclose Hlogout Hrc Hrl.
  unfold _reconnect. rewrite bind_eq. cbn [print]. rewrite bind_eq, catch_eq, bind_eq.
  cbn [get_connection fst snd connection]. rewrite Hc.
  assert (Hq : forall (c : command) (s0 : io W) (r : reply) (w : W),
            connection s0 = true -> serve c (world s0) = (r, w) -> passed_over r ->
            quietly c s0 = (Ok tt, IO w true (trace s0 ++ [Call c r]))).
  { intros c s0 r w Hc0 Hs Hr. unfold quietly. rewrite catch_eq, bind_eq.
    unfold conn_call, call. rewrite Hc0, Hs. destruct r as [v|e]; [reflexivity|].
    cbn in Hr. rewrite Hr. reflexivity. }
  rewrite bind_eq. erewrite Hq; [|reflexivity | exact Hclose | exact Hrc].
  erewrite Hq; [|reflexivity | exact Hlogout | exact Hrl].
  cbn [trace]. rewrite <- !app_assoc. reflexivity.
Qed.

End ReconnectFacts.

(** On a dead connection both calls of the teardown fail, and the new
    connection is attempted all the same. *)
Lemma reconnect_survives_failed_teardown_witness :
  connection (start tt true) = true /\
  @serve unit dead_server Close tt = (Throw broken_pipe, tt) /\
  @serve unit dead_server Logout tt = (Throw broken_pipe, tt) /\
  passed_over (Throw broken_pipe) /\
  @_reconnect unit dead_server example_lib example_service (start tt true) =
  @connect unit dead_server example_lib example_service
    (IO tt true
       [Print "[*] Connection lost, reconnecting..."; Call Close (Throw broken_pipe);
        Call Logout (Throw broken_pipe)]).
Proof.
  repeat (split; [reflexivity|]).
  apply (@reconnect_survives_failed_teardown unit dead_server example_lib example_service
           (start tt true) (Throw broken_pipe) (Throw broken_pipe) tt tt); reflexivity.
Defined.

(** ** A run that finds nothing, and a fetch that fails *)

Lemma runs_conj {S A : Type} `{!Traced S} (m : M S A) (s : S)
  (Q1 Q2 : result A -> S -> list event -> Prop) :
  runs m s Q1 -> runs m s Q2 -> runs m s (fun r s' evs => Q1 r s' evs /\ Q2 r s' evs).
Proof.
  intros [evs1 [Ht1 H1]] [evs2 [Ht2 H2]]. rewrite Ht1 in Ht2.
  apply app_inv_head in Ht2. subst evs2. exists evs1. auto.
Qed.

Section NoMatch.

Context {W : Type} {SV : Server W} {PL : PyLib}.

(** X21: a cleaning run in which no search returns a UID changes nothing:
    it sends no STORE and no EXPUNGE, with [move_to_deleted] on as well. *)
Theorem no_match_leaves_messages (user_email : string) (sender_names : list string)
  (access_token : string) (move_to_deleted : bool) (imap_server mailbox : string) (s : io W) :
  runs (clean_inbox user_email sender_names access_token move_to_deleted imap_server mailbox) s
    (fun _ _ evs => searched_uids evs = [] -> Forall leaves_messages evs).
Proof.
  unfold clean_inbox.
  set (service := {| server := imap_server; email := user_email; token := access_token;
                     mailbox := mailbox |}).
  assert (Hlm : forall evs, Forall (wire service sender_names false) evs ->
            Forall leaves_messages evs).
  { intros evs. apply List.Forall_impl. intros ev. apply wire_read_only. }
  apply runs_catch, runs_bind, runs_set_connection, runs_finally.
  set (s0 := IO (world s) false (trace s)).
  assert (Hbody : runs
            (connect service;;
             print ("[*] Senders containing: " ++ join ", " sender_names);;
             print "";;
             emails ← search_specific_senders service sender_names;
             after_search service move_to_deleted emails) s0
            (fun _ _ evs => searched_uids evs = [] -> Forall leaves_messages evs)).
  { apply runs_bind.
    eapply runs_mono; [apply (wire_connect service sender_names false)|].
    intros r s1 evs1 [Hw1 _]. apply Hlm in Hw1. destruct r as [[]|e]; [|auto].
    apply runs_bind, runs_print, runs_bind, runs_print, runs_bind.
    eapply runs_mono;
      [apply runs_conj;
         [apply (wire_search_specific_senders service sender_names false)
         | apply search_specific_senders_spec]|].
    intros r s2 evs2 [[Hw2 _] [_ Hr2]]. apply Hlm in Hw2.
    assert (Hfront : forall evs, Forall leaves_messages evs ->
              Forall leaves_messages
                (evs1 ++ [Print ("[*] Senders containing: " ++ join ", " sender_names)]
                      ++ [Print ""] ++ evs2 ++ evs)).
    { intros evs H. repeat (apply Forall_app; split); auto; repeat constructor. }
    destruct r as [emails|e].
    2:{ intros _. rewrite <- (app_nil_r evs2). apply Hfront. constructor. }
    destruct emails as [|mail rest].
    - unfold after_search. cbn [ids_to_delete map print_matches is_nil negb andb].
      rewrite andb_false_r. apply runs_bind, runs_ret, runs_bind, runs_print, runs_print.
      intros _. apply Hfront. repeat constructor.
    - eapply runs_mono; [apply deleting_after_search|]. intros r s3 evs3 _ Hnone.
      exfalso. destruct (Hr2 (mail :: rest) eq_refl) as [_ Hfrom].
      destruct (Hfrom (id mail) (or_introl eq_refl)) as (ub & Hub & _).
      rewrite !searched_uids_app in Hnone.
      apply app_eq_nil in Hnone as [_ Hnone]. apply app_eq_nil in Hnone as [_ Hnone].
      apply app_eq_nil in Hnone as [_ Hnone]. apply app_eq_nil in Hnone as [Hnone _].
      rewrite Hnone in Hub. destruct Hub. }
  eapply runs_mono; [apply Hbody|]. intros r s1 evs1 H1. cbn [app].
  eapply runs_mono; [apply close_runs|]. intros r' s2 evs2 (-> & _ & Hev2).
  pose proof (Hlm _ (wire_close_events service sender_names false _ _ Hev2)) as Hl2.
  assert (Hq2 : searched_uids evs2 = []).
  { unfold close_events in Hev2. destruct (connection s1).
    - destruct Hev2 as (rc & rl & ->). reflexivity.
    - subst evs2. reflexivity. }
  destruct r as [[]|e].
  - intros Hnone. rewrite searched_uids_app, Hq2, app_nil_r in Hnone.
    apply Forall_app. auto.
  - apply runs_print. intros Hnone.
    rewrite !searched_uids_app, Hq2 in Hnone. cbn in Hnone. rewrite ?app_nil_r in Hnone.
    repeat (apply Forall_app; split); auto. repeat constructor.
Qed.

(** X22: [_fetch_email_subject] never lets a transport or protocol error
    out.  Through a connection it sends one FETCH, and when that is
    refused, by an exception of those classes or by a completion status
    other than OK, the subject is the placeholder. *)
Theorem refused_fetch_gives_placeholder (uid : string) (s : io W) :
  runs (_fetch_email_subject uid) s (fun r _ evs =>
    (forall e, r = Raise e -> is_transport e = false) /\
    (connection s = true ->
     exists rp, evs = [Call (UidFetch uid subject_parts) rp] /\
                (rejected rp -> r = Ok placeholder_subject))).
Proof.
  unfold _fetch_email_subject. apply runs_catch, runs_bind, runs_conn_call.
  2:{ intros Hc. cbn [is_transport exn_cls]. apply runs_raise.
      split; [intros e [= <-]; reflexivity|]. intros Ht. rewrite Hc in Ht. discriminate. }
  intros Hc. apply runs_call. intros rp w _.
  assert (Hh : forall e (s1 : io W),
            runs (if is_transport e then mret placeholder_subject else raise e) s1
              (fun r _ evs2 =>
                 (forall e', r = Raise e' -> is_transport e' = false) /\
                 (is_transport e = true -> r = Ok placeholder_subject) /\ evs2 = [])).
  { intros e s1. destruct (is_transport e) eqn:He.
    - apply runs_ret. split; [discriminate | auto].
    - apply runs_raise. split; [intros e' [= <-]; exact He|]. split; [discriminate | auto]. }
  destruct rp as [v|e]; cbn [reply_result].
  - apply runs_bind. destruct v as [| | |typ data]; cbn [unpack].
    1-3: apply runs_raise; (eapply runs_mono; [apply Hh|]); intros r s' evs2 (He & _ & ->);
         (split; [exact He|]); intros _; eexists; (split; [reflexivity|]); intros [].
    apply runs_ret. destruct (String.eqb typ "OK") eqn:Htyp; cbn [negb].
    + apply runs_lift_result. rewrite subject_of_parts_last.
      assert (Hok : exists text,
                match last_part data with
                | Some raw => _decode_header_safely (Some (header_text raw))
                | None => Ok "(No Subject)"
                end = Ok text).
      { destruct (last_part data); [apply decode_header_safely_returns | eauto]. }
      destruct Hok as [text ->]. split; [discriminate|]. intros _. eexists.
      split; [reflexivity|]. cbn [rejected]. apply String.eqb_eq in Htyp. congruence.
    + apply runs_raise. eapply runs_mono; [apply Hh|]. intros r s' evs2 (He & Hp & ->).
      split; [exact He|]. intros _. eexists. split; [reflexivity|]. intros _. apply Hp.
      reflexivity.
  - eapply runs_mono; [apply Hh|]. intros r s' evs2 (He & Hp & ->).
    split; [exact He|]. intros _. eexists. split; [reflexivity|]. exact Hp.
Qed.

End NoMatch.

(** ** Fetching each message once *)

Lemma fetched_uids_app (a b : list event) :
  fetched_uids (a ++ b) = (fetched_uids a ++ fetched_uids b)%list.
Proof.
  induction a as [|ev a IH]; simpl; [reflexivity|].
  destruct ev as [[] r|line]; simpl; rewrite ?IH; reflexivity.
Qed.

Lemma fetched_uids_none (evs : list event) : Forall no_fetch evs -> fetched_uids evs = [].
Proof.
  induction 1 as [|ev evs Hn _ IH]; simpl; [reflexivity|].
  destruct ev as [[] r|line]; simpl in *; auto; contradiction.
Qed.

Lemma session_no_fetch (ev : event) : session_event ev -> no_fetch ev.
Proof. destruct ev as [[] r|line]; simpl; auto. Qed.

Lemma session_no_expunge (ev : event) : session_event ev -> no_expunge ev.
Proof. unfold no_expunge. destruct ev as [[] r|line]; simpl; auto; intros []. Qed.

(** The same as [obeys_auto] for a footprint that every session event
    satisfies. *)
Ltac obeys_via Himp :=
  repeat first
    [ solve [ auto with discipline ]
    | solve [ eapply obeys_mono; [exact Himp | auto with discipline] ]
    | obeys_step
    | obeys_side ].

Section FetchOnce.

Context {W : Type} {SV : Server W} {PL : PyLib}.

Lemma fetches_fresh_none (st st' : @search_state W) (evs : list event) :
  total_found_uids st ⊆ total_found_uids st' -> fetched_uids evs = [] ->
  fetches_fresh st st' evs.
Proof.
  intros Hsub Hnone. split; [exact Hsub|]. rewrite Hnone.
  split; [constructor | intros u []].
Qed.

Lemma fetches_fresh_seq (st st1 st2 : @search_state W) (evs1 evs2 : list event) :
  fetches_fresh st st1 evs1 -> fetches_fresh st1 st2 evs2 ->
  fetches_fresh st st2 (evs1 ++ evs2).
Proof.
  intros (Hs1 & Hn1 & Hf1) (Hs2 & Hn2 & Hf2).
  split; [intros x Hx; apply Hs2, Hs1, Hx|].
  rewrite fetched_uids_app. split.
  - apply NoDup_app. split; [exact Hn1|]. split; [|exact Hn2].
    intros u Hu1 Hu2. apply list_elem_of_In in Hu1, Hu2.
    destruct (Hf1 u Hu1) as [_ Hin]. destruct (Hf2 u Hu2) as [Hout _]. contradiction.
  - intros u Hu. apply in_app_or in Hu as [Hu|Hu].
    + destruct (Hf1 u Hu) as [Hout Hin]. split; [exact Hout | apply Hs2, Hin].
    + destruct (Hf2 u Hu) as [Hout Hin]. split; [|exact Hin].
      intros Hst. apply Hout, Hs1, Hst.
Qed.

Lemma keeps_fresh_ret {A : Type} (a : A) : keeps_fresh (W := W) (mret a).
Proof. intros st. apply runs_ret. apply fetches_fresh_none; reflexivity. Qed.

Lemma keeps_fresh_raise {A : Type} (e : exn) : keeps_fresh (W := W) (A := A) (raise e).
Proof. intros st. apply runs_raise. apply fetches_fresh_none; reflexivity. Qed.

Lemma keeps_fresh_bind {A B : Type} (m : M (@search_state W) A)
  (k : A -> M (@search_state W) B) :
  keeps_fresh m -> (forall a, keeps_fresh (k a)) -> keeps_fresh (m ≫= k).
Proof.
  intros Hm Hk st. apply runs_bind. eapply runs_mono; [apply Hm|].
  intros [a|e] st1 evs1 H1; [|exact H1].
  eapply runs_mono; [apply Hk|]. intros r st2 evs2 H2. eapply fetches_fresh_seq; eauto.
Qed.

Lemma keeps_fresh_catch {A : Type} (m : M (@search_state W) A)
  (h : exn -> M (@search_state W) A) :
  keeps_fresh m -> (forall e, keeps_fresh (h e)) -> keeps_fresh (catch m h).
Proof.
  intros Hm Hh st. apply runs_catch. eapply runs_mono; [apply Hm|].
  intros [a|e] st1 evs1 H1; [exact H1|].
  eapply runs_mono; [apply Hh|]. intros r st2 evs2 H2. eapply fetches_fresh_seq; eauto.
Qed.

Lemma keeps_fresh_lift_io {A : Type} (m : M (io W) A) :
  obeys no_fetch m -> keeps_fresh (lift_io m).
Proof.
  intros Hm st. apply runs_lift_io. eapply runs_mono; [apply Hm|].
  intros r s' evs [Hn _]. apply fetches_fresh_none; [reflexivity|].
  apply fetched_uids_none, Hn.
Qed.

Lemma no_fetch_reconnect (self : OutlookService) : obeys (S := io W) no_fetch (_reconnect self).
Proof. eapply obeys_mono; [exact session_no_fetch | apply session_reconnect]. Qed.

Lemma no_fetch_search_sender_on_server (self : OutlookService) (name : string) :
  obeys (S := io W) no_fetch (_search_sender_on_server self name).
Proof.
  unfold _search_sender_on_server. cbn [search_charsets].
  unfold search_attempt, _uid_search_with_charset, unpack, uids_of_data.
  cbn [String.eqb Ascii.eqb]. obeys_via session_no_fetch.
Qed.

Lemma no_fetch_print (line : string) : obeys (S := io W) no_fetch (print line).
Proof. apply obeys_print. exact I. Qed.

Lemma fetch_email_subject_fetches (uid : string) (s : io W) :
  runs (_fetch_email_subject uid) s (fun _ _ evs =>
    fetched_uids evs = [] \/ fetched_uids evs = [uid]).
Proof.
  unfold _fetch_email_subject. apply runs_catch, runs_bind, runs_conn_call_cases.
  - intros rp s'.
    assert (Hh : forall e (s1 : io W),
              runs (if is_transport e then mret placeholder_subject else raise e) s1
                (fun _ _ evs2 =>
                   fetched_uids ([Call (UidFetch uid subject_parts) rp] ++ evs2) = [] \/
                   fetched_uids ([Call (UidFetch uid subject_parts) rp] ++ evs2) = [uid])).
    { intros e s1. destruct (is_transport e); [apply runs_ret | apply runs_raise];
        right; reflexivity. }
    destruct rp as [v|e]; cbn [reply_result]; [|apply Hh].
    apply runs_bind. destruct v as [| | |typ data]; cbn [unpack];
      [apply runs_raise, Hh..|].
    apply runs_ret. destruct (negb (String.eqb typ "OK")); [apply runs_raise, Hh|].
    apply runs_lift_result. destruct (subject_of_parts data "(No Subject)");
      [right; reflexivity | apply Hh].
  - intros e He. rewrite He. apply runs_raise. left. reflexivity.
Qed.

Lemma process_one_fresh (uid_bytes sender_name : string) (results : list MessageRecord) :
  keeps_fresh (W := W) (process_one uid_bytes sender_name results).
Proof.
  intros st. unfold process_one. apply runs_bind, runs_lift_result.
  destruct (bytes_decode "utf-8" Strict uid_bytes) as [uid|e].
  2:{ apply fetches_fresh_none; reflexivity. }
  apply runs_bind. exists []. cbn [get_found fst snd]. rewrite app_nil_r.
  split; [reflexivity|].
  destruct (bool_decide (uid ∈ total_found_uids st)) eqn:Hseen.
  { apply runs_ret. apply fetches_fresh_none; reflexivity. }
  apply bool_decide_eq_false in Hseen.
  apply runs_bind. exists []. cbn [add_found fst snd]. rewrite app_nil_r.
  split; [reflexivity|].
  apply runs_bind, runs_lift_io. cbn [sio total_found_uids].
  eapply runs_mono; [apply fetch_email_subject_fetches|].
  intros r s' evs Hev. cbn [app].
  assert (Hfresh : forall more, more = [] ->
            fetches_fresh st (SearchState s' ({[uid]} ∪ total_found_uids st)) (evs ++ more)).
  { intros more ->. rewrite app_nil_r.
    split; [cbn [total_found_uids]; apply union_subseteq_r|].
    destruct Hev as [->| ->].
    - split; [constructor | intros u []].
    - split; [repeat constructor; intros H; inversion H|].
      intros u [<-|[]]. split; [exact Hseen|].
      cbn [total_found_uids]. apply elem_of_union_l, elem_of_singleton. reflexivity. }
  destruct r as [subject|e].
  - apply runs_ret. apply Hfresh. reflexivity.
  - rewrite <- (app_nil_r evs). apply Hfresh. reflexivity.
Qed.

Lemma process_loop_fresh (uids_bytes : list string) (sender_name : string)
  (results : list MessageRecord) :
  keeps_fresh (W := W) (process_loop uids_bytes sender_name results).
Proof.
  revert results. induction uids_bytes as [|uid_bytes rest IH]; intros results;
    cbn [process_loop].
  - apply keeps_fresh_ret.
  - apply keeps_fresh_bind; [|intros results1; apply IH].
    apply keeps_fresh_catch; [apply process_one_fresh|]. intros e.
    destruct (is_transport e); [|apply keeps_fresh_raise].
    unfold process_error.
    apply keeps_fresh_bind; [apply keeps_fresh_lift_io, no_fetch_print|]. intros _.
    apply keeps_fresh_bind; [|intros _; apply keeps_fresh_ret].
    apply keeps_fresh_catch.
    + apply keeps_fresh_bind; [|intros _; apply keeps_fresh_ret].
      apply keeps_fresh_lift_io. apply obeys_conn_call; intros; [exact I | reflexivity].
    + intros e'. destruct (is_transport e'); apply keeps_fresh_raise.
Qed.

Lemma search_body_fresh (self : OutlookService) (name : string)
  (results : list MessageRecord) (skip found : list string -> string) :
  keeps_fresh
    (uids_bytes ← lift_io (_search_sender_on_server (W := W) self name);
     if is_nil uids_bytes then
       lift_io (print (skip uids_bytes));;
       mret results
     else
       lift_io (print (found uids_bytes));;
       email_results ← _process_email_ids uids_bytes name;
       mret (results ++ email_results)%list).
Proof.
  apply keeps_fresh_bind; [apply keeps_fresh_lift_io, no_fetch_search_sender_on_server|].
  intros uids_bytes. destruct (is_nil uids_bytes).
  - apply keeps_fresh_bind; [apply keeps_fresh_lift_io, no_fetch_print|]. intros _.
    apply keeps_fresh_ret.
  - apply keeps_fresh_bind; [apply keeps_fresh_lift_io, no_fetch_print|]. intros _.
    apply keeps_fresh_bind; [apply process_loop_fresh|]. intros email_results.
    apply keeps_fresh_ret.
Qed.

Lemma senders_loop_fresh (self : OutlookService) (sender_names : list string)
  (results : list MessageRecord) :
  keeps_fresh (W := W) (senders_loop self sender_names results).
Proof.
  revert results. induction sender_names as [|name rest IH]; intros results;
    cbn [senders_loop].
  - apply keeps_fresh_ret.
  - apply keeps_fresh_bind; [|intros results1; apply IH].
    apply keeps_fresh_catch.
    + unfold search_one.
      apply (search_body_fresh self name results
               (fun _ => "  [SKIP] No emails found from '" ++ name ++ "'")
               (fun uids_bytes => "  [MATCH] Found " ++ str_of_nat (length uids_bytes)
                                  ++ " emails from '" ++ name ++ "'")).
    + intros e. destruct (is_transport e); [|apply keeps_fresh_raise].
      unfold search_retry.
      apply keeps_fresh_bind; [apply keeps_fresh_lift_io, no_fetch_print|]. intros _.
      apply keeps_fresh_catch.
      * apply keeps_fresh_bind; [apply keeps_fresh_lift_io, no_fetch_reconnect|]. intros _.
        apply (search_body_fresh self name results
                 (fun _ => "  [SKIP] No emails found from '" ++ name ++ "' (after reconnect)")
                 (fun uids_bytes => "  [MATCH] Found " ++ str_of_nat (length uids_bytes)
                                    ++ " emails from '" ++ name ++ "' (after reconnect)")).
      * intros e'. apply keeps_fresh_bind; [apply keeps_fresh_lift_io, no_fetch_print|].
        intros _. apply keeps_fresh_ret.
Qed.

(** X23: in one run of [search_specific_senders] no UID is fetched twice:
    the set of UIDs met so far, which survives reconnections and failed
    attempts, keeps every later search from fetching a subject again. *)
Theorem each_uid_is_fetched_once (self : OutlookService) (sender_names : list string)
  (s : io W) :
  runs (search_specific_senders self sender_names) s (fun _ _ evs =>
    NoDup (fetched_uids evs)).
Proof.
  unfold search_specific_senders.
  match goal with |- runs (fun s0 => let '(r, st) := ?m _ in _) _ _ =>
    assert (Hm : keeps_fresh m)
  end.
  { apply keeps_fresh_bind; [apply keeps_fresh_lift_io, no_fetch_print|]. intros _.
    apply keeps_fresh_bind; [apply keeps_fresh_lift_io, no_fetch_print|]. intros _.
    apply senders_loop_fresh. }
  destruct (Hm (SearchState s ∅)) as [evs [Ht (_ & Hnd & _)]].
  exists evs. revert Ht Hnd.
  match goal with |- context [?m (SearchState s ∅)] => destruct (m (SearchState s ∅)) as [r st] end.
  auto.
Qed.

(** X24: [delete_emails] expunges only at the end: once an EXPUNGE has
    been sent no STORE follows, so the trace splits into a part without
    EXPUNGE and a part without STORE. *)
Theorem expunge_follows_all_stores (self : OutlookService) (email_ids : list string)
  (batch_size : nat) (s : io W) :
  runs (delete_emails self email_ids batch_size) s (fun _ _ evs =>
    exists flagging expunging,
      evs = (flagging ++ expunging)%list /\
      Forall no_expunge flagging /\ Forall no_store expunging).
Proof.
  assert (Hbatches : forall bs, obeys (S := io W) no_expunge (delete_batches self bs)).
  { induction bs as [|[k batch] rest IH]; cbn [delete_batches]; [apply obeys_ret|].
    apply obeys_bind; [|intros _; exact IH]. unfold _process_deletion_batch.
    apply obeys_bind; [|intros _; apply obeys_print; reflexivity].
    induction batch as [|uid batch IHb]; cbn [delete_each]; [apply obeys_ret|].
    apply obeys_bind; [|intros _; exact IHb].
    unfold delete_one, _delete_single_uid, _retry_delete_single_uid.
    obeys_via session_no_expunge. }
  assert (Hwhole : forall l : list event, Forall no_expunge l ->
            exists flagging expunging,
              l = (flagging ++ expunging)%list /\
              Forall no_expunge flagging /\ Forall no_store expunging).
  { intros l Hl. exists l, []. rewrite app_nil_r. split; [reflexivity|].
    split; [exact Hl | constructor]. }
  unfold delete_emails. destruct (is_nil email_ids).
  { apply runs_print. apply Hwhole. repeat constructor. }
  apply runs_bind, runs_print. apply runs_guard.
  2:{ intros e s1 evs1 H1. apply Hwhole. constructor; [reflexivity|].
      eapply List.Forall_impl; [|exact H1]. apply session_no_expunge. }
  intros s1 evs1 H1.
  assert (H1' : Forall no_expunge evs1).
  { eapply List.Forall_impl; [|exact H1]. apply session_no_expunge. }
  apply runs_bind. destruct (Nat.eqb batch_size 0).
  { apply runs_raise. apply Hwhole. rewrite app_nil_r. constructor; [reflexivity | exact H1']. }
  eapply runs_mono; [apply Hbatches|]. intros r s2 evs2 [H2 _].
  destruct r as [[]|e].
  - eapply runs_mono; [apply only_runs, quiet_expunge_with_retry|].
    intros r s3 evs3 [H3 _].
    exists ([Print ("[*] Moving " ++ str_of_nat (length email_ids)
                    ++ " emails to Deleted folder in batches...")] ++ evs1 ++ evs2)%list, evs3.
    split; [rewrite <- !app_assoc; reflexivity|].
    split; [|apply Forall_quiet_no_store, H3].
    constructor; [reflexivity|]. apply Forall_app. auto.
  - apply Hwhole. constructor; [reflexivity|]. apply Forall_app. auto.
Qed.

End FetchOnce.

(** Two names that both match UID 42: its subject is fetched for the
    first and not again for the second. *)
Example second_match_is_not_fetched_again :
  fetched_uids
    (trace (@search_specific_senders unit always_42_server example_lib example_service
              ["Netflix"; "Bank"] (start tt true)).2) = ["42"].
Proof. vm_compute. reflexivity. Qed.


(** ** The search by one name and its fallback *)

Section FallbackFacts.

Context {W : Type} {SV : Server W} {PL : PyLib}.

Lemma unselected_authenticate_oauth2 email_address access_token :
  obeys (S := io W) (fun ev => selected ev = false)
    (authenticate_oauth2 email_address access_token).
Proof.
  eapply obeys_mono; [|apply authenticate_no_select].
  intros [[] [v|e]|line]; simpl; congruence.
Qed.

(** [connect] returns with the mailbox selected, as its last event, and
    the handle set; when it raises no SELECT has returned. *)
Lemma connect_outcome (self : OutlookService) (s : io W) :
  runs (connect self) s (fun r s' evs =>
    match r with
    | Ok _ =>
        connection s' = true /\
        exists pre v, evs = (pre ++ [Call (Select (mailbox self) false) (Ret v)])%list
    | Raise _ => Forall (fun ev => selected ev = false) evs
    end).
Proof.
  unfold connect. apply runs_bind, runs_print. apply runs_bind, runs_call.
  intros [v|e] w _; cbn [reply_result].
  2:{ repeat constructor. }
  apply runs_bind, runs_set_connection. apply runs_bind, runs_print.
  apply runs_bind, runs_print. apply runs_bind.
  eapply runs_mono; [apply unselected_authenticate_oauth2|]. intros r s1 evs1 [Hn1 Hh1].
  unfold handle_of, io_handled in Hh1. cbn [connection] in Hh1.
  specialize (Hh1 (or_introl eq_refl)). cbn [app].
  match goal with |- context [Print ?a :: Call ?c (Ret v) :: Print ?b :: Print ?d :: evs1] =>
    set (front := Print a :: Call c (Ret v) :: Print b :: Print d :: evs1) end.
  assert (Hfront : Forall (fun ev => selected ev = false) front)
    by (unfold front; repeat constructor; exact Hn1).
  destruct r as [ok|e]; [|exact Hfront].
  apply runs_bind, runs_print. apply runs_bind, runs_conn_call.
  2:{ cbn [connection]. intros Hf. rewrite Hf in Hh1. discriminate. }
  intros _. apply runs_call. intros rp w2 _.
  destruct rp as [v2|e2]; cbn [reply_result].
  - apply runs_ret. rewrite app_nil_r.
    change (Print ?a :: Call ?c (Ret v) :: Print ?b :: Print ?d :: (evs1 ++ ?t)%list)
      with (front ++ t)%list.
    split; [exact Hh1|]. eexists (front ++ [_])%list, v2. rewrite <- app_assoc. reflexivity.
  - change (Print ?a :: Call ?c (Ret v) :: Print ?b :: Print ?d :: (evs1 ++ ?t)%list)
      with (front ++ t)%list.
    apply Forall_app. split; [exact Hfront|]. repeat constructor.
Qed.

Lemma reconnect_outcome (self : OutlookService) (s : io W) :
  runs (_reconnect self) s (fun r s' evs =>
    In (Print reconnect_line) evs /\
    match r with
    | Ok _ =>
        connection s' = true /\
        exists pre v, evs = (pre ++ [Call (Select (mailbox self) false) (Ret v)])%list
    | Raise _ => Forall (fun ev => selected ev = false) evs
    end).
Proof.
  assert (Hdown : obeys (S := io W) (fun ev => selected ev = false)
            (catch
               (has ← get_connection;
                if has : bool then quietly Close;; quietly Logout else mret tt)
               (fun e => if is_os_or_attribute e then mret tt else raise e))).
  { unfold quietly. obeys_auto. }
  unfold _reconnect. apply runs_bind, runs_print. apply runs_bind.
  eapply runs_mono; [apply Hdown|]. intros [[]|e] s1 evs1 [H1 _].
  - eapply runs_mono; [apply connect_outcome|]. intros r s2 evs2 H2. cbn [app].
    split; [left; reflexivity|]. destruct r as [u|e].
    + destruct H2 as [Hc (pre & v & ->)]. split; [exact Hc|].
      exists (Print reconnect_line :: evs1 ++ pre)%list, v.
      cbn [app]. rewrite <- app_assoc. reflexivity.
    + constructor; [reflexivity|]. apply Forall_app. auto.
  - cbn [app]. split; [left; reflexivity|]. constructor; [reflexivity | exact H1].
Qed.

(** The guard in front of a command secures the connection or raises. *)
Lemma guard_outcome (self : OutlookService) (s : io W) :
  runs (alive ← _is_connection_alive; if alive : bool then mret tt else _reconnect self) s
    (fun r s' evs =>
       match r with
       | Ok _ => connection s' = true /\ secured self evs
       | Raise e => unsecured e evs
       end).
Proof.
  eapply runs_mono; [apply runs_conj; [apply session_guard|]|].
  2:{ intros r s' evs [[Hs _] H]. revert H. instantiate (1 := fun r s' evs =>
        match r with
        | Ok _ =>
            connection s' = true /\
            ((exists v, evs = [Call Noop (Ret v)]) \/
             (In (Print reconnect_line) evs /\
              exists pre v, evs = (pre ++ [Call (Select (mailbox self) false) (Ret v)])%list))
        | Raise e =>
            (evs = [Call Noop (Throw e)] /\ is_liveness_error e = false) \/
            (In (Print reconnect_line) evs /\ Forall (fun ev => selected ev = false) evs)
        end). cbn beta. destruct r as [u|e]; intros H.
      - destruct H as [Hc H]. split; [exact Hc|]. split; assumption.
      - split; assumption. }
  assert (Hre : forall s1 evs1,
            Forall (fun ev => selected ev = false) evs1 ->
            runs (_reconnect self) s1 (fun r s' evs2 =>
              match r with
              | Ok _ =>
                  connection s' = true /\
                  ((exists v, (evs1 ++ evs2)%list = [Call Noop (Ret v)]) \/
                   (In (Print reconnect_line) (evs1 ++ evs2)%list /\
                    exists pre v,
                      (evs1 ++ evs2)%list =
                      (pre ++ [Call (Select (mailbox self) false) (Ret v)])%list))
              | Raise e =>
                  ((evs1 ++ evs2)%list = [Call Noop (Throw e)] /\
                   is_liveness_error e = false) \/
                  (In (Print reconnect_line) (evs1 ++ evs2)%list /\
                   Forall (fun ev => selected ev = false) (evs1 ++ evs2)%list)
              end)).
  { intros s1 evs1 H1. eapply runs_mono; [apply reconnect_outcome|].
    intros [u|e] s2 evs2 [Hin H2].
    - destruct H2 as [Hc (pre & v & ->)]. split; [exact Hc|]. right.
      split; [apply in_or_app; right; exact Hin|].
      exists (evs1 ++ pre)%list, v. rewrite app_assoc. reflexivity.
    - right. split; [apply in_or_app; right; exact Hin|]. apply Forall_app. auto. }
  unfold _is_connection_alive. apply runs_bind, runs_catch, runs_bind.
  apply runs_conn_call; intros Hc.
  - apply runs_call. intros [v|e] w _; cbn [reply_result].
    + apply runs_ret, runs_ret. cbn [app connection]. split; [exact Hc|]. left. eauto.
    + destruct (is_liveness_error e) eqn:He.
      * apply runs_ret. rewrite app_nil_r. apply Hre. repeat constructor.
      * apply runs_raise. rewrite !app_nil_r. left. auto.
  - cbn [is_liveness_error exn_cls]. apply runs_ret. apply (Hre s []). constructor.
Qed.

Lemma uid_search_with_charset_outcome (self : OutlookService) (criteria : string)
  (charset : option string) (s : io W) :
  runs (_uid_search_with_charset self criteria charset) s (fun r _ evs =>
    (exists pre rp,
       evs = (pre ++ [Call (UidSearch (wire_charset charset) criteria) rp])%list /\
       secured self pre /\ r = reply_result rp) \/
    (exists e, r = Raise e /\ unsecured e evs)).
Proof.
  unfold _uid_search_with_charset.
  assert (Hsame : (match charset with
                   | Some cs => if String.eqb cs "" then conn_call (UidSearch None criteria)
                                else conn_call (UidSearch (Some cs) criteria)
                   | None => conn_call (UidSearch None criteria)
                   end : M (io W) value) = conn_call (UidSearch (wire_charset charset) criteria)).
  { destruct charset as [cs|]; simpl; [destruct (String.eqb cs "")|]; reflexivity. }
  rewrite Hsame. clear Hsame.
  eapply runs_ext; [apply bind_assoc|].
  apply runs_bind. eapply runs_mono; [apply guard_outcome|].
  intros [[]|e] s1 evs1 H1.
  - destruct H1 as [Hc Hsec]. apply runs_conn_call; [intros _|congruence].
    apply runs_call. intros rp w _. left. exists evs1, rp. auto.
  - right. eauto.
Qed.

Lemma search_attempt_outcome (self : OutlookService) (criteria : string)
  (charset : option string) (s : io W) :
  runs (search_attempt self criteria charset) s (fun r _ evs =>
    attempt self (UidSearch (wire_charset charset) criteria) r evs).
Proof.
  unfold search_attempt. apply runs_bind.
  eapply runs_mono; [apply uid_search_with_charset_outcome|].
  intros r s1 evs [(pre & rp & -> & Hsec & ->)|(e & -> & Hun)].
  2:{ right. eauto. }
  assert (Hpost : forall (r' : result (list string)), r' = search_outcome rp ->
            attempt self (UidSearch (wire_charset charset) criteria) r'
              (pre ++ [Call (UidSearch (wire_charset charset) criteria) rp])).
  { intros r' ->. left. exists pre, rp. auto. }
  assert (Hdone : forall (m : M (io W) (list string)) (r' : result (list string)),
            (forall s2, m s2 = (r', s2)) -> r' = search_outcome rp ->
            runs m s1 (fun r'' _ evs2 =>
              attempt self (UidSearch (wire_charset charset) criteria) r''
                ((pre ++ [Call (UidSearch (wire_charset charset) criteria) rp]) ++ evs2))).
  { intros m r' Hm Hr'. exists []. rewrite Hm. simpl. rewrite !app_nil_r.
    split; [reflexivity | apply Hpost, Hr']. }
  destruct rp as [v|e]; cbn [reply_result]; [|apply Hpost; reflexivity].
  destruct v as [| | |typ data]; unfold unpack.
  1-3: apply runs_bind, runs_raise; rewrite app_nil_r; apply Hpost; reflexivity.
  apply runs_bind, runs_ret.
  destruct (String.eqb typ "OK") eqn:Hok; cbn [negb].
  + unfold uids_of_data.
    destruct data as [|[|b|b1 b2] data]; [| |destruct (String.eqb b "") eqn:Hb|];
      (eapply Hdone;
       [intros; reflexivity | cbn [search_outcome]; rewrite Hok, ?Hb; reflexivity]).
  + eapply Hdone; [intros; reflexivity | cbn [search_outcome]; rewrite Hok; reflexivity].
Qed.

(** C5, amended: [_search_sender_on_server] makes one attempt asking for
    the UTF-8 charset: the connection is secured and the search sent.
    When that attempt fails with a transport or protocol error, as it does
    on an exception of these classes and on any completion status other
    than OK alike, it makes one more attempt, without a charset, and no
    third; when this one fails the same way it prints a warning and
    returns the empty list.  A failure of any other class is not retried
    and leaves the search as it is: the search never raises a transport or
    protocol error, and may raise another. *)
Theorem search_falls_back_once (self : OutlookService) (name : string) (s : io W) :
  runs (_search_sender_on_server self name) s (fun r _ evs =>
    fell_back self name r evs /\ (forall e, r = Raise e -> is_transport e = false)) /\
  (forall rp, rejected rp -> exists e, search_outcome rp = Raise e /\ is_transport e = true).
Proof.
  split; [|apply rejected_outcome].
  unfold _search_sender_on_server. cbn [search_charsets]. apply runs_catch.
  eapply runs_mono; [apply search_attempt_outcome|]. cbn [wire_charset String.eqb Ascii.eqb Bool.eqb].
  intros [uids|e1] s1 evs1 H1.
  - split; [|discriminate]. exists (Ok uids), evs1. auto.
  - destruct (is_transport e1) eqn:He1.
    + apply runs_catch. eapply runs_mono; [apply search_attempt_outcome|]. cbn [wire_charset].
      intros [uids|e2] s2 evs2 H2.
      * split; [|discriminate]. exists (Raise e1), evs1. split; [exact H1|]. rewrite He1.
        exists (Ok uids), evs2. auto.
      * destruct (is_transport e2) eqn:He2.
        -- apply runs_bind, runs_print, runs_ret. rewrite app_nil_r.
           split; [|discriminate]. exists (Raise e1), evs1. split; [exact H1|]. rewrite He1.
           exists (Raise e2), evs2. split; [exact H2|]. rewrite He2. auto.
        -- apply runs_raise. rewrite app_nil_r. split.
           ++ exists (Raise e1), evs1. split; [exact H1|]. rewrite He1.
              exists (Raise e2), evs2. split; [exact H2|]. rewrite He2. auto.
           ++ intros e [= <-]. exact He2.
    + apply runs_raise. rewrite app_nil_r. split.
      * exists (Raise e1), evs1. split; [exact H1|]. rewrite He1. auto.
      * intros e [= <-]. exact He1.
Qed.

End FallbackFacts.

(** The claim as the specification words it fails: a sender name that is not
    ASCII makes the first attempt fail with a [UnicodeEncodeError], which
    the fallback does not await.  There is no second attempt and no empty
    result: the exception leaves the search, and the whole search phase
    with it, the names after this one never being looked for. *)
Lemma non_ascii_name_aborts_the_search :
  let name := "Telef" ++ chr 243 ++ "nica" in
  let run :=
    @_search_sender_on_server unit ascii_only_server example_lib example_service name
      (start tt true) in
  let phase :=
    @search_specific_senders unit ascii_only_server example_lib example_service
      [name; "Netflix"] (start tt true) in
  run.1 = Raise unicode_encode_error /\
  is_transport unicode_encode_error = false /\
  search_commands (trace run.2) = [UidSearch (Some "UTF-8") (search_criteria name)] /\
  phase.1 = Raise unicode_encode_error /\
  search_commands (trace phase.2) = [UidSearch (Some "UTF-8") (search_criteria name)].
Proof. vm_compute. repeat split; reflexivity. Qed.

(** ** A pass that logs no deletion error *)





Lemma flagged_in_app (uid : string) (a b : list event) :
  flagged_in uid (a ++ b)%list <-> flagged_in uid a \/ flagged_in uid b.
Proof.
  unfold flagged_in. split.
  - intros [v H]. apply in_app_or in H as [H|H]; eauto.
  - intros [[v H]|[v H]]; exists v; apply in_or_app; auto.
Qed.

Section FlaggingFacts.

Context {W : Type} {SV : Server W} {PL : PyLib}.










End FlaggingFacts.


(** ** The turn of each UID in a deletion pass *)

Lemma thrown_app (e : exn) (a b : list event) :
  thrown e (a ++ b)%list <-> thrown e a \/ thrown e b.
Proof.
  unfold thrown. split.
  - intros [c H]. apply in_app_or in H as [H|H]; eauto.
  - intros [[c H]|[c H]]; exists c; apply in_or_app; auto.
Qed.

Lemma thrown_one (c : command) (e : exn) : thrown e [Call c (Throw e)].
Proof. exists c. left. reflexivity. Qed.

Lemma gave_up_app (uid : string) (a b : list event) :
  gave_up uid (a ++ b)%list <-> gave_up uid a \/ gave_up uid b.
Proof.
  unfold gave_up. split.
  - intros [e H]. apply in_app_or in H as [H|H]; eauto.
  - intros [[e H]|[e H]]; exists e; apply in_or_app; auto.
Qed.

Lemma all_dealt_with_app (a b : list string) (evs1 evs2 : list event) :
  all_dealt_with a evs1 -> all_dealt_with b evs2 -> all_dealt_with (a ++ b) (evs1 ++ evs2).
Proof.
  intros Ha Hb uid Hin. rewrite flagged_in_app, gave_up_app.
  apply in_app_or in Hin as [Hin|Hin]; [destruct (Ha uid Hin) | destruct (Hb uid Hin)]; auto.
Qed.

Lemma all_dealt_with_more (uids : list string) (evs evs' : list event) :
  (forall ev, In ev evs -> In ev evs') ->
  all_dealt_with uids evs -> all_dealt_with uids evs'.
Proof.
  intros Hsub H uid Hin. destruct (H uid Hin) as [[v Hv]|[e He]].
  - left. exists v. apply Hsub, Hv.
  - right. exists e. apply Hsub, He.
Qed.

Ltac among_events :=
  let ev := fresh "ev" in
  let H := fresh "H" in
  intros ev H; cbn [app In]; rewrite ?in_app_iff; cbn [In]; tauto.

Lemma transport_is_imap (e : exn) : is_imap_error e = true -> is_transport e = true.
Proof. unfold is_imap_error, is_transport. destruct (exn_cls e); congruence. Qed.

Lemma liveness_of_transport (e : exn) : is_liveness_error e = false -> is_transport e = false.
Proof. unfold is_liveness_error, is_transport. destruct (exn_cls e); congruence. Qed.

Ltac find_thrown :=
  rewrite ?thrown_app;
  repeat first [ left; solve [ apply thrown_one ] | right ];
  solve [ apply thrown_one ].

Section Honest.

Context {W : Type} {SV : Server W} {PL : PyLib}.

Lemma honest_ret {A : Type} (a : A) : honest (W := W) (mret a).
Proof. intros s. apply runs_ret. discriminate. Qed.

Lemma honest_print (line : string) : honest (W := W) (print line).
Proof. intros s. apply runs_print. discriminate. Qed.

Lemma honest_call (c : command) : honest (W := W) (call c).
Proof.
  intros s. apply runs_call. intros [v|e] w _; cbn [reply_result]; [discriminate|].
  intros e' [= <-]. right. apply thrown_one.
Qed.

Lemma honest_bind {A B : Type} (m : M (io W) A) (k : A -> M (io W) B) :
  honest m -> (forall a, honest (W := W) (k a)) -> honest (W := W) (m ≫= k).
Proof.
  intros Hm Hk s. apply runs_bind. eapply runs_mono; [apply Hm|].
  intros [a|e] s1 evs1 H1.
  - eapply runs_mono; [apply Hk|]. intros r s2 evs2 H2 e He.
    rewrite thrown_app. destruct (H2 e He); auto.
  - intros e' [= <-]. apply H1. reflexivity.
Qed.

(** A call through the handle whose failures of the liveness classes are
    absorbed: the probe, and the two commands of the teardown. *)
Lemma honest_absorbed {A : Type} (c : command) (a b : A) :
  honest (W := W) (catch (conn_call c;; mret a)
            (fun e => if is_liveness_error e then mret b else raise e)).
Proof.
  intros s. apply runs_catch, runs_bind, runs_conn_call; intros _.
  - apply runs_call. intros [v|e] w _; cbn [reply_result].
    + apply runs_ret. discriminate.
    + destruct (is_liveness_error e).
      * apply runs_ret. discriminate.
      * apply runs_raise. intros e' [= <-]. right. rewrite app_nil_r. apply thrown_one.
  - cbn [is_liveness_error exn_cls]. apply runs_ret. discriminate.
Qed.

Lemma honest_authenticate_oauth2 (email_address access_token : string) :
  honest (W := W) (authenticate_oauth2 email_address access_token).
Proof.
  intros s. eapply runs_mono; [apply authenticate_oauth2_outcome|].
  intros r s' evs H e ->. destruct H as [H|[pre ->]].
  - left. apply transport_is_imap, H.
  - right. rewrite thrown_app. right. apply thrown_one.
Qed.

Lemma honest_connect (self : OutlookService) : honest (W := W) (connect self).
Proof.
  intros s. unfold connect. apply runs_bind, runs_print. apply runs_bind, runs_call.
  intros [v|e] w _; cbn [reply_result].
  2:{ intros e' [= <-]. right. rewrite thrown_app. right. apply thrown_one. }
  apply runs_bind, runs_set_connection. apply runs_bind, runs_print.
  apply runs_bind, runs_print. apply runs_bind.
  eapply runs_mono;
    [apply runs_conj; [apply session_authenticate_oauth2 | apply honest_authenticate_oauth2]|].
  intros r s1 evs1 [[_ Hh1] Hr1].
  unfold handle_of, io_handled in Hh1. cbn [connection] in Hh1.
  specialize (Hh1 (or_introl eq_refl)).
  destruct r as [ok|e].
  2:{ intros e' [= <-]. destruct (Hr1 e eq_refl) as [H|H]; [left; exact H|].
      right. rewrite !thrown_app. auto 10. }
  apply runs_bind, runs_print. apply runs_bind, runs_conn_call.
  2:{ cbn [connection]. intros Hf. rewrite Hf in Hh1. discriminate. }
  intros _. apply runs_call. intros [v2|e2] w2 _; cbn [reply_result].
  - apply runs_ret. discriminate.
  - intros e' [= <-]. right. find_thrown.
Qed.

Lemma honest_reconnect (self : OutlookService) : honest (W := W) (_reconnect self).
Proof.
  assert (Hdown : honest (W := W)
            (catch
               (has ← get_connection;
                if has : bool then quietly Close;; quietly Logout else mret tt)
               (fun e => if is_os_or_attribute e then mret tt else raise e))).
  { intros s. apply runs_catch, runs_bind, runs_get_connection.
    assert (Hbody : honest (W := W)
              (if connection s then quietly Close;; quietly Logout else mret tt)).
    { destruct (connection s); [|apply honest_ret].
      apply honest_bind; [apply honest_absorbed|]. intros _. apply honest_absorbed. }
    eapply runs_mono; [apply Hbody|]. intros [u|e] s1 evs1 H1; [discriminate|].
    destruct (is_os_or_attribute e).
    - apply runs_ret. discriminate.
    - apply runs_raise. rewrite app_nil_r. intros e' [= <-]. apply H1. reflexivity. }
  unfold _reconnect. apply honest_bind; [apply honest_print|]. intros _.
  apply honest_bind; [exact Hdown|]. intros _. apply honest_connect.
Qed.

(** The guard in front of a command: when it returns there is a handle,
    and what it raises it raises honestly. *)
Lemma runs_guard_honest {A : Type} (self : OutlookService) (k : M (io W) A) (s : io W)
  (Q : result A -> io W -> list event -> Prop) :
  (forall s1 evs1, Forall session_event evs1 -> connection s1 = true ->
     runs k s1 (fun r s' evs2 => Q r s' (evs1 ++ evs2)%list)) ->
  (forall e s1 evs1, Forall session_event evs1 ->
     is_transport e = true \/ thrown e evs1 -> Q (Raise e) s1 evs1) ->
  runs (alive ← _is_connection_alive;
        (if alive : bool then mret tt else _reconnect self);; k) s Q.
Proof.
  intros Hk He.
  assert (Hguard : honest (W := W)
            (alive ← _is_connection_alive; if alive : bool then mret tt else _reconnect self)).
  { apply honest_bind; [apply honest_absorbed|]. intros [|]; [apply honest_ret|].
    apply honest_reconnect. }
  eapply runs_ext; [apply bind_assoc|]. apply runs_bind.
  eapply runs_mono; [apply runs_conj; [apply guard_outcome | apply Hguard]|].
  intros [[]|e] s1 evs1 [H1 H2].
  - destruct H1 as [Hc [Hs _]]. apply Hk; assumption.
  - destruct H1 as [Hs _]. apply He; [exact Hs | apply H2; reflexivity].
Qed.

End Honest.

Section BatchFacts.

Context {W : Type} {SV : Server W} {PL : PyLib}.

(** One round of the loop.  It returns with the UID flagged, or given up
    and logged so; it sends at most two stores, both for this UID; and it
    raises only the exception of a failed call, of a class that is no
    transport or protocol error. *)
Lemma delete_one_turn (self : OutlookService) (uid : string) (s : io W) :
  runs (delete_one self uid) s (fun r _ evs =>
    (forall e, r = Raise e -> is_transport e = false /\ thrown e evs) /\
    (r = Ok tt -> flagged_in uid evs \/ gave_up uid evs) /\
    exists k, k <= 2 /\ store_commands evs = map flag_command (repeat uid k)).
Proof.
  unfold delete_one. apply runs_catch.
  assert (Hhandler : forall e s1 evs1 k1, k1 <= 1 ->
            store_commands evs1 = map flag_command (repeat uid k1) ->
            is_transport e = true \/ thrown e evs1 ->
            runs (if is_transport e
                  then print ("  [WARN] Error deleting UID " ++ uid ++ ": " ++ exn_msg e);;
                       catch (_retry_delete_single_uid self uid)
                         (fun retry_err =>
                            print ("  [ERROR] Failed to delete UID " ++ uid
                                   ++ " after reconnect: " ++ exn_msg retry_err))
                  else raise e) s1
              (fun r _ evs2 =>
                 (forall e', r = Raise e' -> is_transport e' = false /\ thrown e' (evs1 ++ evs2)) /\
                 (r = Ok tt -> flagged_in uid (evs1 ++ evs2) \/ gave_up uid (evs1 ++ evs2)) /\
                 exists k, k <= 2 /\
                   store_commands (evs1 ++ evs2) = map flag_command (repeat uid k))).
  { intros e s1 evs1 k1 Hk1 Hst Hth. destruct (is_transport e) eqn:He.
    - apply runs_bind, runs_print. unfold _retry_delete_single_uid.
      apply runs_catch, runs_reconnect_then.
      + intros s2 evs2 H2. apply runs_bind, runs_conn_call_cases.
        * intros [v|e2] s3; cbn [reply_result].
          -- apply runs_ret. split; [discriminate|]. split.
             ++ intros _. left. exists v. unfold flag_command.
                rewrite !in_app_iff. cbn [In]. auto 10.
             ++ exists (k1 + 1). split; [lia|].
                rewrite !store_commands_app, Hst, (store_commands_session _ H2).
                rewrite repeat_app, map_app. reflexivity.
          -- apply runs_print. split; [discriminate|]. split.
             ++ intros _. right. unfold gave_up. exists e2.
                rewrite !in_app_iff. cbn [In]. auto 10.
             ++ exists (k1 + 1). split; [lia|].
                rewrite !store_commands_app, Hst, (store_commands_session _ H2).
                rewrite repeat_app, map_app. reflexivity.
        * intros e2 _. apply runs_print. split; [discriminate|]. split.
          -- intros _. right. unfold gave_up. exists e2.
             rewrite !in_app_iff. cbn [In]. auto 10.
          -- exists k1. split; [lia|].
             rewrite !store_commands_app, Hst, (store_commands_session _ H2).
             cbn. rewrite app_nil_r. reflexivity.
      + intros e2 s2 evs2 H2. apply runs_print. split; [discriminate|]. split.
        * intros _. right. unfold gave_up. exists e2.
          rewrite !in_app_iff. cbn [In]. auto 10.
        * exists k1. split; [lia|].
          rewrite !store_commands_app, Hst, (store_commands_session _ H2).
          cbn. rewrite app_nil_r. reflexivity.
    - apply runs_raise. rewrite app_nil_r. split; [|split; [discriminate|]].
      + intros e' [= <-]. split; [exact He|]. destruct Hth as [Hth|Hth]; [congruence|exact Hth].
      + exists k1. split; [lia | exact Hst]. }
  unfold _delete_single_uid. apply runs_guard_honest.
  - intros s1 evs1 H1 Hc. apply runs_bind, runs_conn_call; [intros _|congruence].
    apply runs_call. intros [v|e] w _; cbn [reply_result].
    + apply runs_ret. split; [discriminate|]. split.
      * intros _. left. exists v. unfold flag_command. rewrite !in_app_iff. cbn [In]. auto.
      * exists 1. split; [lia|].
        rewrite !store_commands_app, (store_commands_session _ H1). reflexivity.
    + apply (Hhandler e _ (evs1 ++ [Call (UidStore uid "+FLAGS" store_flags) (Throw e)])%list 1);
        [lia| |].
      * rewrite !store_commands_app, (store_commands_session _ H1). reflexivity.
      * right. rewrite thrown_app. right. apply thrown_one.
  - intros e s1 evs1 H1 Hth. apply (Hhandler e s1 evs1 0); [lia| |exact Hth].
    apply store_commands_session, H1.
Qed.

Lemma delete_each_turns (self : OutlookService) (batch_uids : list string) (s : io W) :
  runs (delete_each self batch_uids) s (fun r _ evs =>
    (forall e, r = Raise e -> is_transport e = false /\ thrown e evs) /\
    (r = Ok tt -> all_dealt_with batch_uids evs) /\
    exists counts,
      length counts <= length batch_uids /\
      (r = Ok tt -> length counts = length batch_uids) /\
      Forall (fun k => k <= 2) counts /\
      store_commands evs = map flag_command (repeated batch_uids counts)).
Proof.
  revert s. induction batch_uids as [|uid rest IH]; intros s; cbn [delete_each].
  - apply runs_ret. split; [discriminate|]. split; [intros _ uid []|].
    exists []. cbn. auto.
  - apply runs_bind. eapply runs_mono; [apply delete_one_turn|].
    intros [[]|e] s1 evs1 (He1 & Hd1 & k & Hk & Hst).
    + eapply runs_mono; [apply IH|].
      intros r s2 evs2 (He2 & Hd2 & counts & Hlen & Hok & Hall & Hst2).
      split; [|split].
      * intros e He. destruct (He2 e He) as [Ht Hth]. split; [exact Ht|].
        rewrite thrown_app. auto.
      * intros Hr. change (uid :: rest) with ([uid] ++ rest)%list.
        apply all_dealt_with_app; [|apply Hd2, Hr].
        intros uid' [<-|[]]. apply Hd1. reflexivity.
      * exists (k :: counts). cbn [length repeated].
        split; [lia|]. split; [intros Hr; rewrite (Hok Hr); reflexivity|].
        split; [constructor; assumption|].
        rewrite store_commands_app, Hst, Hst2, map_app. reflexivity.
    + split; [exact He1|]. split; [discriminate|]. exists [k]. cbn [length repeated].
      split; [lia|]. split; [discriminate|]. split; [constructor; [exact Hk | constructor]|].
      rewrite Hst. destruct rest; cbn [repeated]; rewrite app_nil_r; reflexivity.
Qed.

Lemma process_deletion_batch_turns (self : OutlookService) (batch_uids : list string)
  (batch_start : nat) (s : io W) :
  runs (_process_deletion_batch self batch_uids batch_start) s (fun r _ evs =>
    (forall e, r = Raise e -> is_transport e = false /\ thrown e evs) /\
    (r = Ok tt -> all_dealt_with batch_uids evs) /\
    exists counts,
      length counts <= length batch_uids /\
      (r = Ok tt -> length counts = length batch_uids) /\
      Forall (fun k => k <= 2) counts /\
      store_commands evs = map flag_command (repeated batch_uids counts)).
Proof.
  unfold _process_deletion_batch. apply runs_bind.
  eapply runs_mono; [apply delete_each_turns|].
  intros [[]|e] s1 evs1 (He & Hd & counts & Hlen & Hok & Hall & Hst).
  - apply runs_print. split; [discriminate|]. split.
    + intros _. eapply all_dealt_with_more; [|apply Hd; reflexivity]. among_events.
    + exists counts. split; [exact Hlen|]. split; [intros _; apply Hok; reflexivity|].
      split; [exact Hall|].
      rewrite store_commands_app, Hst. cbn. rewrite app_nil_r. reflexivity.
  - split; [exact He|]. split; [discriminate|]. exists counts.
    split; [exact Hlen|]. split; [discriminate|]. auto.
Qed.

(** X7: [_process_deletion_batch] never lets a transport or protocol
    error out, so a failure on one UID does not stop the batch: it raises
    only the exception of a call that failed with an error of another
    class.  When it returns, every UID of the batch was dealt with: a
    store flagging it was sent and returned, or its deletion was given up
    after the retry and logged.  The stores go through the batch in order,
    with at most two for each UID. *)
Theorem deletion_batch_tolerates_failures (self : OutlookService) (batch_uids : list string)
  (batch_start : nat) (s : io W) :
  runs (_process_deletion_batch self batch_uids batch_start) s (fun r _ evs =>
    (forall e, r = Raise e -> is_transport e = false /\ thrown e evs) /\
    (r = Ok tt -> all_dealt_with batch_uids evs) /\
    stores_in_order batch_uids evs).
Proof.
  eapply runs_mono; [apply process_deletion_batch_turns|].
  intros r s' evs (He & Hd & counts & _ & _ & Hall & Hst). split; [exact He|].
  split; [exact Hd|]. exists counts. auto.
Qed.

Lemma repeated_short (a b : list string) (counts : list nat) :
  length counts <= length a -> repeated (a ++ b) counts = repeated a counts.
Proof.
  revert counts. induction a as [|uid a IH]; intros [|k counts] Hlen; cbn in *;
    try reflexivity; try lia.
  - destruct b; reflexivity.
  - rewrite IH by lia. reflexivity.
Qed.

Lemma repeated_app (a b : list string) (counts1 counts2 : list nat) :
  length counts1 = length a ->
  repeated (a ++ b) (counts1 ++ counts2) = (repeated a counts1 ++ repeated b counts2)%list.
Proof.
  revert counts1. induction a as [|uid a IH]; intros [|k counts1] Hlen; cbn in *;
    try reflexivity; try lia.
  rewrite IH by lia. rewrite app_assoc. reflexivity.
Qed.

Lemma delete_batches_turns (self : OutlookService) (bs : list (nat * list string))
  (s : io W) :
  runs (delete_batches self bs) s (fun r _ evs =>
    (r = Ok tt -> all_dealt_with (concat (map snd bs)) evs) /\
    exists counts,
      length counts <= length (concat (map snd bs)) /\
      (r = Ok tt -> length counts = length (concat (map snd bs))) /\
      Forall (fun k => k <= 2) counts /\
      store_commands evs = map flag_command (repeated (concat (map snd bs)) counts)).
Proof.
  revert s. induction bs as [|[k batch] rest IH]; intros s; cbn [delete_batches map concat snd].
  - apply runs_ret. split; [intros _ uid []|]. exists []. cbn. auto.
  - apply runs_bind. eapply runs_mono; [apply process_deletion_batch_turns|].
    intros [[]|e] s1 evs1 (_ & Hd1 & counts1 & Hlen1 & Hok1 & Hall1 & Hst1).
    + specialize (Hok1 eq_refl). eapply runs_mono; [apply IH|].
      intros r s2 evs2 (Hd2 & counts2 & Hlen2 & Hok2 & Hall2 & Hst2). split.
      * intros Hr. apply all_dealt_with_app; [apply Hd1; reflexivity | apply Hd2, Hr].
      * exists (counts1 ++ counts2)%list. rewrite !length_app.
        split; [lia|]. split; [intros Hr; rewrite (Hok2 Hr); lia|].
        split; [apply Forall_app; auto|].
        rewrite store_commands_app, Hst1, Hst2, <- map_app, repeated_app by exact Hok1.
        reflexivity.
    + split; [discriminate|]. exists counts1. rewrite length_app. split; [lia|].
      split; [discriminate|].
      split; [exact Hall1|]. rewrite Hst1, repeated_short by exact Hlen1. reflexivity.
Qed.

(** X8: whatever fails, [delete_emails] goes through the UIDs in the
    order of the list and sends at most two stores for each of them (the
    attempt, and one retry after a reconnection), always the store that
    adds the deleted flag; and when it returns, every UID of the list was
    dealt with: a store flagging it was sent and returned, or its deletion
    was given up after the retry and logged. *)
Theorem delete_emails_attempts_each_uid (self : OutlookService) (email_ids : list string)
  (batch_size : nat) (s : io W) :
  0 < batch_size ->
  runs (delete_emails self email_ids batch_size) s (fun r _ evs =>
    (r = Ok tt -> all_dealt_with email_ids evs) /\ stores_in_order email_ids evs).
Proof.
  intros Hsize. unfold delete_emails. destruct (is_nil email_ids) eqn:Hnil.
  { destruct email_ids; [|discriminate]. apply runs_print.
    split; [intros _ uid []|]. exists []. cbn. auto. }
  apply runs_bind, runs_print. apply runs_guard.
  2:{ intros e s1 evs1 H1. split; [discriminate|]. exists []. split; [constructor|].
      destruct email_ids; cbn; rewrite (store_commands_session _ H1); reflexivity. }
  intros s1 evs1 H1. destruct (Nat.eqb_spec batch_size 0) as [->|_]; [lia|].
  apply runs_bind. eapply runs_mono; [apply delete_batches_turns|].
  rewrite batches_concat by exact Hsize.
  intros [[]|e] s2 evs2 (Hd & counts & Hlen & Hok & Hall & Hst).
  - eapply runs_mono; [apply only_runs, quiet_expunge_with_retry|].
    intros r s3 evs3 [Hq _]. split.
    + intros _. eapply all_dealt_with_more; [|apply Hd; reflexivity]. among_events.
    + exists counts. split; [exact Hall|].
      cbn [app store_commands]. rewrite !store_commands_app, Hst,
        (store_commands_session _ H1), (store_commands_quiet _ Hq), app_nil_r. reflexivity.
  - split; [discriminate|]. exists counts. split; [exact Hall|].
    cbn [app store_commands]. rewrite !store_commands_app, Hst,
      (store_commands_session _ H1). reflexivity.
Qed.

(** X9: a batch size of zero makes [delete_emails] raise on a non-empty
    list, as [range] does with a zero step: nothing is flagged and nothing
    expunged, the only traffic being that of the connection check. *)
Theorem zero_batch_size_deletes_nothing (self : OutlookService) (email_ids : list string)
  (s : io W) :
  is_nil email_ids = false ->
  runs (delete_emails self email_ids 0) s (fun r _ evs =>
    (exists e, r = Raise e) /\ Forall session_event evs).
Proof.
  intros Hne. unfold delete_emails. rewrite Hne. apply runs_bind, runs_print.
  apply runs_guard.
  - intros s1 evs1 H1. cbn [Nat.eqb]. apply runs_bind, runs_raise.
    rewrite app_nil_r. split; [eauto|]. constructor; [exact I | exact H1].
  - intros e s1 evs1 H1. split; [eauto|]. constructor; [exact I | exact H1].
Qed.

End BatchFacts.

Lemma delete_emails_attempts_each_uid_witness :
  0 < 2 /\
  runs (@delete_emails unit failing_store_server example_lib example_service ["7"; "8"; "9"] 2)
    (start tt true)
    (fun r _ evs =>
       (r = Ok tt -> all_dealt_with ["7"; "8"; "9"] evs) /\
       stores_in_order ["7"; "8"; "9"] evs).
Proof.
  split; [lia|].
  apply (@delete_emails_attempts_each_uid unit failing_store_server example_lib example_service
           ["7"; "8"; "9"] 2 (start tt true)).
  lia.
Defined.

(** When every store fails, each UID is tried twice and the pass still
    ends normally. *)
Example failing_stores_are_retried_once :
  let run :=
    @delete_emails unit failing_store_server example_lib example_service ["7"; "8"; "9"] 2
      (start tt true) in
  run.1 = Ok tt /\
  store_commands (trace run.2) = map flag_command (repeated ["7"; "8"; "9"] [2; 2; 2]).
Proof. vm_compute. split; reflexivity. Qed.

(** On a server that grants everything the connection check passes, and
    the loop over the batches is where the run stops. *)
Lemma zero_batch_size_deletes_nothing_witness :
  is_nil ["7"; "8"] = false /\
  runs (@delete_emails unit obliging_server example_lib example_service ["7"; "8"] 0)
    (start tt true)
    (fun r _ evs => (exists e, r = Raise e) /\ Forall session_event evs).
Proof.
  split; [reflexivity|].
  apply (@zero_batch_size_deletes_nothing unit obliging_server example_lib example_service
           ["7"; "8"] (start tt true)).
  reflexivity.
Defined.
